(** * Sockeye inference: request chunking, batching, traceback, reassembly

    A shallow embedding of [sockeye/inference.py]: the request model
    ([TranslatorInput]), the chunker ([TranslatorInput.chunks]), the batch
    assembler and result reassembly of [Translator.translate], the lexicon
    choice of [Translator._get_inference_input], the backpointer traceback
    [Translator._get_best_word_indices_for_kth_hypotheses] and the chunk
    reassembler [_concat_translations].

    Python lists are lists, [int] indices that the code keeps non-negative are
    [nat], token ids and array entries are [Z], scores are IEEE binary64
    floats ([PrimFloat.float]), [Optional[T]] is [option T], and a Python
    exception is a [Raise] in the [result] monad, tagged with the place that
    raises it. *)

From Stdlib Require Import PrimFloat.
From stdpp Require Import base option list sorting strings pretty gmap.

Set Default Proof Using "Type".
Open Scope Z_scope.
Open Scope nat_scope.

(** ** Exceptions and the error monad *)

(** The exceptions the modelled code can raise, one constructor per raising
    expression. *)
Inductive Exn : Set :=
| ValueError_range_step        (* range(0, n, 0) in chunks *)
| IndexError_target_ids_last   (* translation.target_ids[-1] on an empty list *)
| IndexError_token_first       (* tokens[0] on a token without factors *)
| ValueError_unpack_scores     (* score, *factor_scores = [] *)
| ValueError_broadcast         (* np.add on shapes that do not broadcast *)
| IndexError_scores_first      (* scores[0] on an empty score list *)
| AttributeError_nbest_none    (* translation.nbest_translations.target_ids_list on None *)
| IndexError_reduce_empty      (* nbest_translations_list[0] on an empty list *)
| IndexError_vocab_list        (* self.vocab_targets_inv[factor_index] out of range *)
| KeyError_vocab               (* vocab_target_inv[target_id] on an unknown id *)
| ValueError_unpack_tokens     (* tokens, *factor_tokens = [] *)
| TypeError_unorderable        (* '<' between two Translation objects *)
| ValueError_max_empty         (* max() of an empty batch *)
| ValueError_negative_dim      (* np.zeros with a negative dimension *)
| IndexError_translations_first (* translations[0] on an empty list *)
| IndexError_batch_first        (* batch[0] on an empty batch *)
| Exception_inference           (* raised while the tensors of a batch are built, or by the search *)
| IndexError_array.            (* numpy index out of bounds *)

Inductive result (A : Type) : Type :=
| Ok (a : A)
| Raise (e : Exn).
Arguments Ok {A} a.
Arguments Raise {A} e.

#[global] Instance result_ret : MRet result := fun A a => Ok a.
#[global] Instance result_bind : MBind result := fun A B f m =>
  match m with Ok a => f a | Raise e => Raise e end.
#[global] Instance result_fmap : FMap result := fun A B f m =>
  match m with Ok a => Ok (f a) | Raise e => Raise e end.

Definition is_Ok {A} (m : result A) : Prop := exists a, m = Ok a.

(** [mapM] for [result]: the first exception, in list order, wins. *)
Fixpoint mapR {A B} (f : A -> result B) (l : list A) : result (list B) :=
  match l with
  | [] => Ok []
  | x :: l' => y ← f x; ys ← mapR f l'; Ok (y :: ys)
  end.

(** ** Python list primitives *)

(** [l[i:j]] for [0 <= i] and [0 <= j]. *)
Definition slice {A} (l : list A) (i j : nat) : list A := take (j - i) (drop i l).

(** [len(range(start, stop, step))] for [step > 0]. *)
Definition range_len (start stop step : nat) : nat :=
  (stop - start + (step - 1)) / step.

(** [list(range(start, stop, step))] for [step > 0]. *)
Definition py_range (start stop step : nat) : list nat :=
  (fun k => start + k * step) <$> seq 0 (range_len start stop step).

(** [list(enumerate(l))]. *)
Definition enumerate {A} (l : list A) : list (nat * A) := zip (seq 0 (length l)) l.

(** [min(len(l), n)] then [l[n:]], as in [_remove_target_prefix_tokens]. *)
Definition py_min (a b : nat) : nat := if decide (b < a) then b else a.

(** [sorted(l, key=...)]: a stable insertion sort; [le x y] says that [x] may
    stand before [y]. An element is placed before the first later element it
    may stand before, so equal keys keep their input order. *)
Fixpoint sorted_insert {A} (le : A -> A -> bool) (x : A) (l : list A) : list A :=
  match l with
  | [] => [x]
  | y :: l' => if le x y then x :: y :: l' else y :: sorted_insert le x l'
  end.

Fixpoint py_sorted {A} (le : A -> A -> bool) (l : list A) : list A :=
  match l with
  | [] => []
  | x :: l' => sorted_insert le x (py_sorted le l')
  end.

(** [itertools.groupby(l, key)]: maximal runs of consecutive equal keys. *)
Fixpoint groupby {A} (key : A -> nat) (l : list A) : list (nat * list A) :=
  match l with
  | [] => []
  | x :: l' =>
      match groupby key l' with
      | (k, g) :: rest =>
          if decide (key x = k) then (k, x :: g) :: rest
          else (key x, [x]) :: (k, g) :: rest
      | [] => [(key x, [x])]
      end
  end.

(** ** Request model *)

Abbreviation Tokens := (list string).
Abbreviation TokenIds := (list (list Z)).

(** [SentenceId = Union[int, str]]. *)
Inductive SentenceId : Set :=
| IntId (n : Z)
| StrId (s : string).

(** A [lexicon.RestrictLexicon] object, known by its identity (the code
    compares lexicons with [is]). *)
Definition Lexicon : Set := nat.
#[global] Instance Lexicon_eq_dec : EqDecision Lexicon := Nat.eq_dec.

(** The pass-through dictionary, an opaque JSON object. *)
Abbreviation PassThrough := (list (string * string)).

(** [TranslatorInput], with [is_bad] for the subclass [BadTranslatorInput]
    (tested by [isinstance] in [translate]). *)
Record TranslatorInput : Type := mkTranslatorInput {
  is_bad : bool;
  sentence_id : SentenceId;
  tokens : Tokens;
  factors : option (list Tokens);
  source_prefix_tokens : option Tokens;
  source_prefix_factors : option (list Tokens);
  target_prefix_tokens : option Tokens;
  target_prefix_factors : option (list Tokens);
  target_segment_durations : option (list Z);
  use_target_prefix_all_chunks : option bool;
  keep_target_prefix_key : option bool;
  restrict_lexicon : option Lexicon;
  constraints : option (list Tokens);
  avoid_list : option (list Tokens);
  pass_through_dict : option PassThrough
}.

(** Truth value of an [Optional[bool]]: [None] and [False] are false. *)
Definition truthy (b : option bool) : bool := default false b.

Definition get_source_prefix_tokens (self : TranslatorInput) : Tokens :=
  default [] (source_prefix_tokens self).

Definition num_source_prefix_tokens (self : TranslatorInput) : nat :=
  length (get_source_prefix_tokens self).

(** [TranslatorInput.__len__]. *)
Definition input_len (self : TranslatorInput) : nat :=
  length (tokens self) + num_source_prefix_tokens self.

Definition get_target_prefix_tokens (self : TranslatorInput) : Tokens :=
  default [] (target_prefix_tokens self).

Definition num_target_prefix_tokens (self : TranslatorInput) : nat :=
  length (get_target_prefix_tokens self).

(** One chunk of [TranslatorInput.chunks], for chunk number [chunk_id]
    starting at token [i]: the body of the generator's loop. The object
    yielded is a plain [TranslatorInput], whatever the class of [self]. *)
Definition chunk_at (self : TranslatorInput) (chunk_size chunk_id i : nat)
  : TranslatorInput :=
  let factors' :=
    (fun fs : list Tokens => (fun factor => slice factor i (i + chunk_size)) <$> fs)
      <$> factors self in
  let constraints' := if decide (chunk_id = 0) then constraints self else None in
  let target_prefix_tokens' :=
    if decide (chunk_id = 0) then target_prefix_tokens self
    else if truthy (use_target_prefix_all_chunks self) then target_prefix_tokens self
    else None in
  let target_prefix_factors' :=
    if decide (chunk_id = 0) then target_prefix_factors self
    else if truthy (use_target_prefix_all_chunks self) then target_prefix_factors self
    else None in
  let pass_through_dict' :=
    if decide (chunk_id = 0) then pass_through_dict self else None in
  {| is_bad := false;
     sentence_id := sentence_id self;
     tokens := slice (tokens self) i (i + chunk_size);
     factors := factors';
     source_prefix_tokens := source_prefix_tokens self;
     source_prefix_factors := source_prefix_factors self;
     target_prefix_tokens := target_prefix_tokens';
     (* the call passes [self.target_prefix_factors], not the local
        [target_prefix_factors] computed above *)
     target_prefix_factors := target_prefix_factors self;
     target_segment_durations := target_segment_durations self;
     use_target_prefix_all_chunks := use_target_prefix_all_chunks self;
     keep_target_prefix_key := keep_target_prefix_key self;
     restrict_lexicon := restrict_lexicon self;
     constraints := constraints';
     avoid_list := avoid_list self;
     pass_through_dict := pass_through_dict' |}.

(** [list(self.chunks(chunk_size))]. The loop runs over
    [enumerate(range(0, len(self) - self.num_source_prefix_tokens, chunk_size))];
    [range] raises [ValueError] for a zero step. The warning logged for
    constrained over-length inputs has no effect on the chunks. *)
Definition chunks (self : TranslatorInput) (chunk_size : nat)
  : result (list TranslatorInput) :=
  if decide (chunk_size = 0) then Raise ValueError_range_step
  else Ok ((fun '(chunk_id, i) => chunk_at self chunk_size chunk_id i)
             <$> enumerate (py_range 0 (input_len self - num_source_prefix_tokens self)
                                     chunk_size)).


(** [with_eos]. [C.EOS_SYMBOL] is a constant of [sockeye/constants.py],
    taken as a parameter. *)
Definition with_eos (EOS_SYMBOL : string) (self : TranslatorInput) : TranslatorInput :=
  {| is_bad := false;
     sentence_id := sentence_id self;
     tokens := tokens self ++ [EOS_SYMBOL];
     factors := (fun fs : list Tokens => (fun factor => factor ++ [EOS_SYMBOL]) <$> fs)
                  <$> factors self;
     source_prefix_tokens := source_prefix_tokens self;
     source_prefix_factors := source_prefix_factors self;
     target_prefix_tokens := target_prefix_tokens self;
     target_prefix_factors := target_prefix_factors self;
     target_segment_durations := target_segment_durations self;
     use_target_prefix_all_chunks := use_target_prefix_all_chunks self;
     keep_target_prefix_key := keep_target_prefix_key self;
     restrict_lexicon := restrict_lexicon self;
     constraints := constraints self;
     avoid_list := avoid_list self;
     pass_through_dict := pass_through_dict self |}.

(** ** Translations *)

(** [NBestTranslations], in a module of its own: [Translation] has a field
    [scores] too. *)
Module NBestTranslations.
Record t : Type := mk {
  target_ids_list : list TokenIds;
  scores : list (list float)
}.
End NBestTranslations.

Record Translation : Type := mkTranslation {
  target_ids : TokenIds;
  scores : list float;
  nbest_translations : option NBestTranslations.t;
  estimated_reference_length : option float
}.

(** [empty_translation(add_nbest)]; [-np.inf] is [neg_infinity]. *)
Definition empty_translation (add_nbest : bool) : Translation :=
  {| target_ids := [];
     scores := [neg_infinity];
     nbest_translations := if add_nbest then Some (NBestTranslations.mk [] []) else None;
     estimated_reference_length := None |}.

Module IndexedTranslatorInput.
Record t : Type := mk {
  input_idx : nat;
  chunk_idx : nat;
  translator_input : TranslatorInput
}.
End IndexedTranslatorInput.

Record IndexedTranslation : Type := mkIndexedTranslation {
  input_idx : nat;
  chunk_idx : nat;
  translation : Translation
}.

(** [CandidateScorer] of [sockeye/beam_search.py]: only its interface is
    used here, [scorer(score, length, reference_length)] and
    [scorer.unnormalize(score, length, reference_length)]. *)
Record CandidateScorer : Type := mkCandidateScorer {
  scorer_call : float -> nat -> option float -> float;
  unnormalize : float -> nat -> option float -> float
}.

(** [_reduce_nbest_translations]. *)
Definition _reduce_nbest_translations (nbest_translations_list : list Translation)
  : result Translation :=
  match nbest_translations_list with
  | [] => Raise IndexError_reduce_empty
  | best_translation :: _ =>
      let sequences := target_ids <$> nbest_translations_list in
      let scores' := scores <$> nbest_translations_list in
      Ok {| target_ids := target_ids best_translation;
            scores := scores best_translation;
            nbest_translations := Some (NBestTranslations.mk sequences scores');
            estimated_reference_length := estimated_reference_length best_translation |}
  end.

(** [_expand_nbest_translation]. *)
Definition _expand_nbest_translation (t : Translation) : result (list Translation) :=
  match nbest_translations t with
  | None => Raise AttributeError_nbest_none
  | Some nb =>
      Ok ((fun '(ids, score) =>
             {| target_ids := ids; scores := score; nbest_translations := None;
                estimated_reference_length := estimated_reference_length t |})
            <$> zip (NBestTranslations.target_ids_list nb) (NBestTranslations.scores nb))
  end.

(** [_remove_target_prefix_tokens]. *)
Definition _remove_target_prefix_tokens (target_ids : TokenIds)
  (num_target_prefix_tokens : nat) : TokenIds :=
  let starting_idx := py_min (length target_ids) num_target_prefix_tokens in
  drop starting_idx target_ids.

(** [np.add] on two one-dimensional float arrays, with numpy's broadcasting
    of a length-one operand. *)
Definition np_add (x y : list float) : result (list float) :=
  if decide (length x = length y) then Ok (zip_with PrimFloat.add x y)
  else match x, y with
       | [a], _ => Ok ((fun b => PrimFloat.add a b) <$> y)
       | _, [b] => Ok ((fun a => PrimFloat.add a b) <$> x)
       | _, _ => Raise ValueError_broadcast
       end.

(** A loop whose body may raise: [for x in l: s = f(s, x)]. *)
Fixpoint foldR {S X} (f : S -> X -> result S) (s : S) (l : list X) : result S :=
  match l with
  | [] => Ok s
  | x :: l' => s' ← f s x; foldR f s' l'
  end.

(** The state of the loop of [_concat_translations]: [target_ids],
    [estimated_reference_length] and [scores]. *)
Definition ConcatState : Type := TokenIds * option float * list float.

(** One iteration of the loop of [_concat_translations] over
    [enumerate(translations)], [n] being [len(translations)]. *)
Definition concat_step (stop_ids : gset Z) (scorer : CandidateScorer) (n : nat)
  (st : ConcatState) (it : nat * Translation) : result ConcatState :=
  let '(target_ids0, estimated_reference_length0, scores0) := st in
  let '(idx, t) := it in
  target_ids' ←
    (if decide (idx = n - 1) then Ok (target_ids0 ++ target_ids t)
     else match last (target_ids t) with
          | None => Raise IndexError_target_ids_last
          | Some token =>
              match head token with
              | None => Raise IndexError_token_first
              | Some w =>
                  if decide (w ∈ stop_ids)
                  then Ok (target_ids0 ++ take (length (target_ids t) - 1) (target_ids t))
                  else Ok (target_ids0 ++ target_ids t)
              end
          end);
  let estimated_reference_length' :=
    match estimated_reference_length t with
    | Some e =>
        match estimated_reference_length0 with
        | None => Some e
        | Some e0 => Some (PrimFloat.add e0 e)
        end
    | None => estimated_reference_length0
    end in
  match scores t with
  | [] => Raise ValueError_unpack_scores
  | score :: factor_scores =>
      let raw_score :=
        unnormalize scorer score (length (target_ids t)) (estimated_reference_length t) in
      scores' ← np_add scores0 (raw_score :: factor_scores);
      Ok (target_ids', estimated_reference_length', scores')
  end.

(** [_concat_translations]. *)
Definition _concat_translations (translations : list Translation)
  (stop_ids : gset Z) (scorer : CandidateScorer) : result Translation :=
  match translations with
  | [t] => Ok t
  | [] => Raise IndexError_translations_first
  | t0 :: _ =>
      let scores0 := (fun _ => 0%float) <$> scores t0 in
      '(target_ids', estimated_reference_length', scores') ←
        foldR (concat_step stop_ids scorer (length translations))
              ([], None, scores0) (enumerate translations);
      match scores' with
      | [] => Raise IndexError_scores_first
      | s0 :: rest =>
          let s0' := scorer_call scorer s0 (length target_ids') estimated_reference_length' in
          Ok {| target_ids := target_ids';
                scores := s0' :: rest;
                nbest_translations := None;
                estimated_reference_length := estimated_reference_length' |}
      end
  end.

(** [zip( *rows )]: the transpose, cut at the shortest row; no row, no column. *)
Definition zip_star {A} (rows : list (list A)) : list (list A) :=
  match rows with
  | [] => []
  | r :: rs =>
      let n := foldr (fun r' m => py_min m (length r')) (length r) rs in
      (fun j => omap (fun r' => r' !! j) rows) <$> seq 0 n
  end.

(** [_concat_nbest_translations]. *)
Definition _concat_nbest_translations (translations : list Translation)
  (stop_ids : gset Z) (scorer : CandidateScorer) : result Translation :=
  expanded_translations ← mapR _expand_nbest_translation translations;
  concatenated_translations ←
    mapR (fun translations_to_concat =>
            _concat_translations translations_to_concat stop_ids scorer)
         (zip_star expanded_translations);
  _reduce_nbest_translations concatenated_translations.

(** ** Backpointer traceback *)

(** A two-dimensional integer numpy array: its shape and its entries. *)
Record ndarray2 : Type := mkNdarray2 {
  shape0 : nat;
  shape1 : nat;
  at2 : nat -> nat -> Z
}.

(** numpy's reading of one index into an axis of length [n]: a negative
    index counts from the end, anything outside [-n, n) raises. *)
Definition np_index (n : nat) (i : Z) : result nat :=
  if decide (0 <= i < Z.of_nat n)%Z then Ok (Z.to_nat i)
  else if decide (- Z.of_nat n <= i < 0)%Z then Ok (Z.to_nat (i + Z.of_nat n))
  else Raise IndexError_array.

(** [a[rows, col]] for an index array [rows] and a scalar [col]. *)
Definition take_column (a : ndarray2) (rows : list Z) (col : Z) : result (list Z) :=
  c ← np_index (shape1 a) col;
  mapR (fun r => i ← np_index (shape0 a) r; Ok (at2 a i c)) rows.

(** [np.zeros((n, m), dtype=...)]. *)
Definition np_zeros (n m : nat) : ndarray2 :=
  {| shape0 := n; shape1 := m; at2 := fun _ _ => 0%Z |}.

(** [res[:, step] = pointer], for [pointer] of shape [(shape0 res,)] and
    [step < shape1 res]. *)
Definition set_column (res : ndarray2) (step : nat) (pointer : list Z) : ndarray2 :=
  {| shape0 := shape0 res; shape1 := shape1 res;
     at2 := fun b t => if decide (t = step) then default 0%Z (pointer !! b)
                       else at2 res b t |}.

(** [list(range(n - 1, -1, -1))]. *)
Definition range_down (n : nat) : list nat := reverse (seq 0 n).

(** The body of the loop of the traceback: record the pointer, then follow
    it one step back. *)
Definition traceback_step (all_hyp_indices : ndarray2)
  (st : ndarray2 * list Z) (step : nat) : result (ndarray2 * list Z) :=
  let '(res, pointer) := st in
  let res' := set_column res step pointer in
  pointer' ← take_column all_hyp_indices pointer (Z.of_nat step);
  Ok (res', pointer').

(** [Translator._get_best_word_indices_for_kth_hypotheses]. *)
Definition _get_best_word_indices_for_kth_hypotheses
  (ks : list Z) (all_hyp_indices : ndarray2) : result ndarray2 :=
  let batch_size := length ks in
  let num_steps := shape1 all_hyp_indices in
  if decide (num_steps = 0) then Raise ValueError_negative_dim
  else
    let res := np_zeros batch_size (num_steps - 1) in
    pointer ← take_column all_hyp_indices ks (-1);
    st ← foldR (traceback_step all_hyp_indices) (res, pointer)
               (range_down (num_steps - 1));
    Ok st.1.

(** The slots of the path of batch item [b] for the hypothesis that ends in
    slot [k]: position [num_steps - 1], the final step, holds [k] itself, and
    an earlier position [t] holds the recorded [res[b, t]]. *)
Definition slot_at (num_steps : nat) (res : ndarray2) (b : nat) (k : Z) (t : nat) : Z :=
  if decide (t = num_steps - 1) then k else at2 res b t.

(** ** The translator *)

(** [Translator.restrict_lexicon]: none, one lexicon for all inputs, or a
    dict of named lexicons. *)
Inductive TranslatorLexicon : Type :=
| NoLexicon
| SingleLexicon (l : Lexicon)
| NamedLexicons (d : gmap string Lexicon).

(** What [_get_inference_input] logs while it picks the lexicon. *)
Inductive LogRecord : Type :=
| Warning_different_restrict_lexicon (sid : SentenceId)
| Info_no_restrict_lexicon.

(** The part of the loop body of [_get_inference_input] that updates
    [restrict_lexicon]. *)
Definition restrict_lexicon_step (self_restrict_lexicon : TranslatorLexicon)
  (st : option Lexicon * list LogRecord) (trans_input : TranslatorInput)
  : option Lexicon * list LogRecord :=
  let '(cur, log) := st in
  match restrict_lexicon trans_input with
  | Some l =>
      let log' :=
        match cur with
        | Some l0 => if decide (l0 = l) then log
                     else log ++ [Warning_different_restrict_lexicon (sentence_id trans_input)]
        | None => log
        end in
      (Some l, log')
  | None =>
      match self_restrict_lexicon with
      | NoLexicon => (cur, log)
      | NamedLexicons _ => (None, log)
      | SingleLexicon l => (Some l, log)
      end
  end.

(** The [restrict_lexicon] that [_get_inference_input] returns for a batch,
    with what it logged. *)
Definition batch_restrict_lexicon (self_restrict_lexicon : TranslatorLexicon)
  (trans_inputs : list TranslatorInput) : option Lexicon * list LogRecord :=
  let '(lex, log) :=
    foldl (restrict_lexicon_step self_restrict_lexicon) (None, []) trans_inputs in
  match lex, self_restrict_lexicon with
  | None, NamedLexicons _ => (lex, log ++ [Info_no_restrict_lexicon])
  | _, _ => (lex, log)
  end.

(** The last lexicon named by an input of the batch, if any. *)
Definition last_named_lexicon (trans_inputs : list TranslatorInput) : option Lexicon :=
  last (omap restrict_lexicon trans_inputs).

(** The constants of [sockeye/constants.py] that the modelled code reads;
    the module is not part of the sources at hand, so they are parameters.
    [PAD_ID] is the exception: the constructor of [Translator] asserts
    [C.PAD_ID == 0]. *)
Record Constants : Type := mkConstants {
  EOS_SYMBOL : string;
  EOS_ID : Z;
  UNK_ID : Z;
  TOKEN_SEPARATOR : string;
  SPACE_FOR_XOS : Z
}.

Definition PAD_ID : Z := 0.

Module TranslatorOutput.
Record t : Type := mk {
  sentence_id : SentenceId;
  translation : string;
  tokens : Tokens;
  score : float;
  pass_through_dict : option PassThrough;
  nbest_translations : option (list string);
  nbest_tokens : option (list Tokens);
  nbest_scores : option (list (list float));
  factor_translations : option (list string);
  factor_tokens : option (list Tokens);
  factor_scores : option (list float);
  nbest_factor_translations : option (list (list string));
  nbest_factor_tokens : option (list (list Tokens))
}.
End TranslatorOutput.

(** The attributes of a [Translator] that the modelled methods read.
    [self_restrict_lexicon] is [self.restrict_lexicon]. [_translate_np] stands
    for [self._translate_np( *tensors )]: the tensors that
    [_get_inference_input] builds from a batch (source ids, lengths, output
    length caps, target prefixes, segment durations) are functions of the
    batch's inputs and of the vocabularies, so the search and the decoding of
    its trellis are taken here as a function of the batch's inputs, next to
    the one restriction lexicon that [_get_inference_input] picks for the
    batch. Building the tensors and searching call into the models, the
    vocabularies and numpy, and may raise: the function returns a
    [result]. *)
Record Translator : Type := mkTranslator {
  C : Constants;
  _scorer : CandidateScorer;
  batch_size : nat;
  nbest_size : nat;
  self_restrict_lexicon : TranslatorLexicon;
  strip_unknown_words : bool;
  vocab_targets_inv : list (gmap Z string);
  _max_input_length : Z;
  _translate_np : option Lexicon -> list TranslatorInput -> result (list Translation)
}.

(** [self.stop_ids = {C.EOS_ID, C.PAD_ID}]. *)
Definition stop_ids (self : Translator) : gset Z := {[ EOS_ID (C self); PAD_ID ]}.

(** [self.strip_ids]: the stop ids, and the unknown-word id on request. *)
Definition strip_ids (self : Translator) : gset Z :=
  if strip_unknown_words self then stop_ids self ∪ {[ UNK_ID (C self) ]}
  else stop_ids self.

(** [Translator.max_input_length]. *)
Definition max_input_length (self : Translator) : Z :=
  (_max_input_length self - SPACE_FOR_XOS (C self))%Z.

(** [Translator.max_batch_size]. *)
Definition max_batch_size (self : Translator) : nat := batch_size self.

(** [self._concat_translations], the partial application chosen by the
    constructor. *)
Definition self_concat_translations (self : Translator)
  (translations : list Translation) : result Translation :=
  if decide (1 < nbest_size self)
  then _concat_nbest_translations translations (stop_ids self) (_scorer self)
  else _concat_translations translations (stop_ids self) (_scorer self).

(** [Translator._get_translation_tokens_and_factors]. *)
Definition _get_translation_tokens_and_factors (self : Translator)
  (target_ids : TokenIds) : result (Tokens * string * list Tokens * list string) :=
  keep ← mapR (fun tokens' : list Z =>
                 match head tokens' with
                 | None => Raise IndexError_token_first
                 | Some w => Ok (bool_decide (w ∉ strip_ids self), tokens')
                 end) target_ids;
  let pruned_target_ids := snd <$> filter (fun p => p.1 = true) keep in
  all_target_tokens ←
    mapR (fun '(factor_index, factor_sequence) =>
            match vocab_targets_inv self !! factor_index with
            | None => Raise IndexError_vocab_list
            | Some vocab_target_inv =>
                mapR (fun target_id : Z =>
                        match vocab_target_inv !! target_id with
                        | None => Raise KeyError_vocab
                        | Some token => Ok token
                        end) factor_sequence
            end)
         (enumerate (zip_star pruned_target_ids));
  let all_target_strings := String.concat (TOKEN_SEPARATOR (C self)) <$> all_target_tokens in
  let '(all_target_tokens', all_target_strings') :=
    match all_target_strings with
    | [] => (replicate (length (vocab_targets_inv self)) [],
             replicate (length (vocab_targets_inv self)) EmptyString)
    | _ => (all_target_tokens, all_target_strings)
    end in
  match all_target_tokens', all_target_strings' with
  | tokens' :: factor_tokens, translation' :: factor_translations =>
      Ok (tokens', translation', factor_tokens, factor_translations)
  | _, _ => Raise ValueError_unpack_tokens
  end.

(** [Translator._make_result]. *)
Definition _make_result (self : Translator) (trans_input : TranslatorInput)
  (t : Translation) : result TranslatorOutput.t :=
  '(primary_tokens, primary_translation, factor_tokens, factor_translations) ←
    _get_translation_tokens_and_factors self (target_ids t);
  nbest ←
    match nbest_translations t with
    | None => Ok None
    | Some nb =>
        parts ← mapR (_get_translation_tokens_and_factors self)
                     (NBestTranslations.target_ids_list nb);
        Ok (Some (parts, NBestTranslations.scores nb))
    end;
  match scores t with
  | [] => Raise IndexError_scores_first
  | score :: factor_scores =>
      Ok {| TranslatorOutput.sentence_id := sentence_id trans_input;
            TranslatorOutput.translation := primary_translation;
            TranslatorOutput.tokens := primary_tokens;
            TranslatorOutput.score := score;
            TranslatorOutput.pass_through_dict := pass_through_dict trans_input;
            TranslatorOutput.nbest_translations :=
              (fun n : list (Tokens * string * list Tokens * list string) * _ =>
                 (fun p => p.1.1.2) <$> n.1) <$> nbest;
            TranslatorOutput.nbest_tokens :=
              (fun n : list (Tokens * string * list Tokens * list string) * _ =>
                 (fun p => p.1.1.1) <$> n.1) <$> nbest;
            TranslatorOutput.nbest_scores := snd <$> nbest;
            TranslatorOutput.factor_translations := Some factor_translations;
            TranslatorOutput.factor_tokens := Some factor_tokens;
            TranslatorOutput.factor_scores := Some factor_scores;
            TranslatorOutput.nbest_factor_translations :=
              (fun n : list (Tokens * string * list Tokens * list string) * _ =>
                 (fun p => p.2) <$> n.1) <$> nbest;
            TranslatorOutput.nbest_factor_tokens :=
              (fun n : list (Tokens * string * list Tokens * list string) * _ =>
                 (fun p => p.1.2) <$> n.1) <$> nbest |}
  end.

(** Modelled from the spec: [utils.grouper] ([sockeye/utils.py] is not part
    of the sources at hand). The spec of the batch assembler groups the
    sorted chunks "into batches of size N (consecutive, non-overlapping
    groups)", the final batch keeping its "natural (possibly smaller)" size. *)
Definition grouper {A} (iterable : list A) (size : nat) : list (list A) :=
  (fun i => slice iterable i (i + size)) <$> py_range 0 (length iterable) size.

(** The empty translation that stands for an input that is not translated. *)
Definition skipped (self : Translator) (trans_input_idx : nat) : IndexedTranslation :=
  {| input_idx := trans_input_idx; chunk_idx := 0;
     translation := empty_translation (bool_decide (1 < nbest_size self)) |}.

(** The body of the first loop of [translate]: what one input adds to
    [translated_chunks] and to [input_chunks]. *)
Definition split_input (self : Translator) (trans_input_idx : nat)
  (trans_input : TranslatorInput)
  : result (list IndexedTranslation * list IndexedTranslatorInput.t) :=
  if is_bad trans_input then Ok ([skipped self trans_input_idx], [])
  else if decide (length (tokens trans_input) = 0)
  then Ok ([skipped self trans_input_idx], [])
  else
    let max_input_length_for_chunking :=
      (max_input_length self - Z.of_nat (num_source_prefix_tokens trans_input))%Z in
    if decide (max_input_length_for_chunking <= 0)%Z
    then Ok ([skipped self trans_input_idx], [])
    else if decide (Z.of_nat (length (tokens trans_input)) > max_input_length_for_chunking)%Z
    then
      cs ← chunks trans_input (Z.to_nat max_input_length_for_chunking);
      let chunks' := with_eos (EOS_SYMBOL (C self)) <$> cs in
      Ok ([], (fun '(chunk_idx, chunk_input) =>
                 IndexedTranslatorInput.mk trans_input_idx chunk_idx chunk_input)
                <$> enumerate chunks')
    else
      Ok ([], [IndexedTranslatorInput.mk trans_input_idx 0
                 (with_eos (EOS_SYMBOL (C self)) trans_input)]).

(** The first loop of [translate], over [enumerate(trans_inputs)]. *)
Definition split_inputs (self : Translator) (trans_inputs : list TranslatorInput)
  : result (list IndexedTranslation * list IndexedTranslatorInput.t) :=
  foldR (fun st '(trans_input_idx, trans_input) =>
           '(tc, ic) ← split_input self trans_input_idx trans_input;
           Ok (st.1 ++ tc, st.2 ++ ic))
        ([], []) (enumerate trans_inputs).

(** The sort key of [input_chunks] and the order [sorted(..., reverse=True)]
    puts them in: longest first, equal lengths in input order. *)
Definition chunk_key (chunk : IndexedTranslatorInput.t) : nat :=
  length (tokens (IndexedTranslatorInput.translator_input chunk)).

Definition longer_first (x y : IndexedTranslatorInput.t) : bool :=
  bool_decide (chunk_key y <= chunk_key x).

(** The batch size [translate] groups by. *)
Definition translate_batch_size (self : Translator) (fill_up_batches : bool)
  (input_chunks : list IndexedTranslatorInput.t) : nat :=
  if fill_up_batches then max_batch_size self
  else py_min (length input_chunks) (max_batch_size self).

(** The batches of [translate], as [utils.grouper] yields them: before any
    padding. *)
Definition batches (self : Translator) (fill_up_batches : bool)
  (input_chunks : list IndexedTranslatorInput.t) : list (list IndexedTranslatorInput.t) :=
  let input_chunks' := py_sorted longer_first input_chunks in
  grouper input_chunks' (translate_batch_size self fill_up_batches input_chunks').

(** [batch + [batch[0]] * rest] when a short batch is filled up. *)
Definition padded_batch (fill_up_batches : bool) (batch_size : nat)
  (batch : list IndexedTranslatorInput.t) : result (list IndexedTranslatorInput.t) :=
  let rest := batch_size - length batch in
  if fill_up_batches && bool_decide (0 < rest)
  then match head batch with
       | None => Raise IndexError_batch_first
       | Some first => Ok (batch ++ replicate rest first)
       end
  else Ok batch.

(** [self._translate_np( *self._get_inference_input(translator_inputs))]:
    [_get_inference_input] takes maxima over the batch, which raise on an
    empty batch, and picks the batch's restriction lexicon. *)
Definition translate_inputs (self : Translator) (translator_inputs : list TranslatorInput)
  : result (list Translation) :=
  match translator_inputs with
  | [] => Raise ValueError_max_empty
  | _ =>
      let restrict_lexicon' :=
        (batch_restrict_lexicon (self_restrict_lexicon self) translator_inputs).1 in
      _translate_np self restrict_lexicon' translator_inputs
  end.

(** The body of the second loop of [translate]: the translated chunks of
    one batch. *)
Definition translate_batch (self : Translator) (fill_up_batches : bool)
  (batch_size : nat) (batch : list IndexedTranslatorInput.t)
  : result (list IndexedTranslation) :=
  let rest := batch_size - length batch in
  batch' ← padded_batch fill_up_batches batch_size batch;
  let translator_inputs := IndexedTranslatorInput.translator_input <$> batch' in
  batch_translations ← translate_inputs self translator_inputs;
  let batch_translations' :=
    if fill_up_batches && bool_decide (0 < rest)
    then take (length batch_translations - rest) batch_translations
    else batch_translations in
  Ok (zip_with (fun chunk t =>
                  {| input_idx := IndexedTranslatorInput.input_idx chunk;
                     chunk_idx := IndexedTranslatorInput.chunk_idx chunk;
                     translation := t |})
               batch' batch_translations').

(** [sorted(translated_chunks)]. [IndexedTranslation] is a dataclass with
    [order=True]: it compares as the tuple [(input_idx, chunk_idx,
    translation)]. The third component is looked at only when two chunks
    share both indices, and [Translation] defines no order: the comparison
    then raises unless the two translations are equal. The model raises on
    every such tie. *)
Definition it_key (x : IndexedTranslation) : nat * nat := (input_idx x, chunk_idx x).

Definition it_le (x y : IndexedTranslation) : bool :=
  bool_decide (input_idx x < input_idx y
               \/ (input_idx x = input_idx y /\ chunk_idx x <= chunk_idx y)).

Definition sorted_translated_chunks (translated_chunks : list IndexedTranslation)
  : result (list IndexedTranslation) :=
  if decide (NoDup (it_key <$> translated_chunks))
  then Ok (py_sorted it_le translated_chunks)
  else Raise TypeError_unorderable.

(** [translation.target_ids = _remove_target_prefix_tokens(...)]. The
    assignment updates the [Translation] object in place; each translated
    chunk holds an object of its own, made by the search for its place in the
    batch or by [empty_translation], so the update is seen nowhere else. *)
Definition strip_target_prefix (num_target_prefix_tokens : nat) (t : Translation)
  : Translation :=
  {| target_ids := _remove_target_prefix_tokens (target_ids t) num_target_prefix_tokens;
     scores := scores t;
     nbest_translations := nbest_translations t;
     estimated_reference_length := estimated_reference_length t |}.

(** The body of the last loop of [translate]: the result of one input from
    the translated chunks grouped under its index. *)
Definition assemble (self : Translator) (trans_input : TranslatorInput)
  (translations_for_input_idx : list IndexedTranslation) : result TranslatorOutput.t :=
  let num_target_prefix_tokens := num_target_prefix_tokens trans_input in
  let strip := bool_decide (0 < num_target_prefix_tokens)
               && negb (truthy (keep_target_prefix_key trans_input)) in
  t ←
    match translations_for_input_idx with
    | [tc] =>
        Ok (if strip then strip_target_prefix num_target_prefix_tokens (translation tc)
            else translation tc)
    | _ =>
        let translations_to_concat := translation <$> translations_for_input_idx in
        let translations_to_concat' :=
          if strip
          then imap (fun i t =>
                       if bool_decide (i = 0)
                          || truthy (use_target_prefix_all_chunks trans_input)
                       then strip_target_prefix num_target_prefix_tokens t
                       else t) translations_to_concat
          else translations_to_concat in
        self_concat_translations self translations_to_concat'
    end;
  _make_result self trans_input t.

(** [Translator.translate]. *)
Definition translate (self : Translator) (trans_inputs : list TranslatorInput)
  (fill_up_batches : bool) : result (list TranslatorOutput.t) :=
  '(bad_empty, input_chunks) ← split_inputs self trans_inputs;
  let batch_size :=
    translate_batch_size self fill_up_batches (py_sorted longer_first input_chunks) in
  translated ← mapR (translate_batch self fill_up_batches batch_size)
                    (batches self fill_up_batches input_chunks);
  translated_chunks ← sorted_translated_chunks (bad_empty ++ concat translated);
  let chunks_by_input_idx := groupby input_idx translated_chunks in
  mapR (fun '(trans_input, (_, translations_for_input_idx)) =>
          assemble self trans_input translations_for_input_idx)
       (zip trans_inputs chunks_by_input_idx).

(** ** What the properties are stated with *)

(** *** Traceback *)

(** Every backpointer is a slot of the trellis. *)
Definition well_formed_backpointers (a : ndarray2) : Prop :=
  forall i j, i < shape0 a -> j < shape1 a -> (0 <= at2 a i j < Z.of_nat (shape0 a))%Z.

(** Every entry of [pointer] is a slot of the trellis. *)
Definition valid_slots (a : ndarray2) (pointer : list Z) : Prop :=
  Forall (fun k => (0 <= k < Z.of_nat (shape0 a))%Z) pointer.

(** *** Grouping *)

(** The elements of [l] filed under key [i], in the order of [l]. *)
Definition fiber {A : Type} (key : A -> nat) (i : nat) (l : list A) : list A :=
  filter (fun x => key x = i) l.

#[global] Arguments fiber : simpl never.

(** *** The inputs of [translate] *)

(** The inputs that [translate] answers with the empty translation without
    translating them: bad inputs, inputs without tokens, and inputs whose
    source prefix leaves no room for a token. *)
Definition skipped_input (self : Translator) (trans_input : TranslatorInput) : Prop :=
  is_bad trans_input = true
  \/ tokens trans_input = []
  \/ (max_input_length self - Z.of_nat (num_source_prefix_tokens trans_input) <= 0)%Z.

#[global] Instance skipped_input_dec self trans_input :
  Decision (skipped_input self trans_input).
Proof. unfold skipped_input. apply _. Defined.

(** An input that is translated in one piece: no chunking. *)
Definition fits (self : Translator) (x : TranslatorInput) : Prop :=
  is_bad x = false /\ tokens x <> []
  /\ (Z.of_nat (length (tokens x))
      <= max_input_length self - Z.of_nat (num_source_prefix_tokens x))%Z.

(** What one input adds to [translated_chunks] and to [input_chunks]. *)
Definition input_parts (self : Translator) (i : nat) (trans_input : TranslatorInput)
  : list IndexedTranslation * list IndexedTranslatorInput.t :=
  match split_input self i trans_input with
  | Ok p => p
  | Raise _ => ([], [])
  end.

(** [translated_chunks] and [input_chunks] after the first loop of
    [translate]. *)
Definition bad_empty_of (self : Translator) (trans_inputs : list TranslatorInput)
  : list IndexedTranslation :=
  concat ((fun '(i, x) => (input_parts self i x).1) <$> enumerate trans_inputs).

Definition input_chunks_of (self : Translator) (trans_inputs : list TranslatorInput)
  : list IndexedTranslatorInput.t :=
  concat ((fun '(i, x) => (input_parts self i x).2) <$> enumerate trans_inputs).

Definition iti_key (c : IndexedTranslatorInput.t) : nat * nat :=
  (IndexedTranslatorInput.input_idx c, IndexedTranslatorInput.chunk_idx c).

(** *** The search *)

(** The search returns, with one translation per input of the batch. *)
Definition one_translation_per_input (self : Translator) : Prop :=
  forall restrict_lexicon' batch, batch <> [] ->
    exists outs, _translate_np self restrict_lexicon' batch = Ok outs
                 /\ length outs = length batch.

(** The contract of the search: it returns, with one translation per input
    of the batch, in order, each related to its input by [P]. *)
Definition scorer_contract (self : Translator)
    (P : TranslatorInput -> Translation -> Prop) : Prop :=
  forall restrict_lexicon' batch, batch <> [] ->
    exists outs, _translate_np self restrict_lexicon' batch = Ok outs
                 /\ Forall2 P batch outs.

(** The same translator with another search. *)
Definition with_search (self : Translator)
    (search : option Lexicon -> list TranslatorInput -> result (list Translation))
  : Translator :=
  {| C := C self;
     _scorer := _scorer self;
     batch_size := batch_size self;
     nbest_size := nbest_size self;
     self_restrict_lexicon := self_restrict_lexicon self;
     strip_unknown_words := strip_unknown_words self;
     vocab_targets_inv := vocab_targets_inv self;
     _max_input_length := _max_input_length self;
     _translate_np := search |}.

(** What the search answers for a batch of [translate]: the value of
    [self._translate_np( *self._get_inference_input(translator_inputs))] in
    the loop body, on the batch filled up if it is to be. *)
Definition batch_answer (self : Translator) (fill_up_batches : bool)
  (batch_size : nat) (batch : list IndexedTranslatorInput.t) : result (list Translation) :=
  batch' ← padded_batch fill_up_batches batch_size batch;
  translate_inputs self (IndexedTranslatorInput.translator_input <$> batch').

(** A translated chunk that carries the indices of an input chunk and a
    translation of its input. *)
Definition translates (P : TranslatorInput -> Translation -> Prop)
    (ci : IndexedTranslatorInput.t) (tc : IndexedTranslation) : Prop :=
  input_idx tc = IndexedTranslatorInput.input_idx ci
  /\ chunk_idx tc = IndexedTranslatorInput.chunk_idx ci
  /\ P (IndexedTranslatorInput.translator_input ci) (translation tc).

(** The answer of the search for the inputs of a batch, a list of
    translations or an exception, does not depend on copies of the first
    input appended to the batch. *)
Definition padding_insensitive (self : Translator) : Prop :=
  forall restrict_lexicon' batch first n, head batch = Some first ->
    take (length batch)
      <$> _translate_np self restrict_lexicon' (batch ++ replicate n first)
    = _translate_np self restrict_lexicon' batch.

(** Filling up a batch of the call does not change its restriction lexicon. *)
Definition lexicon_stable (self : Translator) (trans_inputs : list TranslatorInput) : Prop :=
  forall batch first n,
    batch ∈ batches self true (input_chunks_of self trans_inputs) ->
    head batch = Some first ->
    (batch_restrict_lexicon (self_restrict_lexicon self)
       (IndexedTranslatorInput.translator_input <$> batch ++ replicate n first)).1
    = (batch_restrict_lexicon (self_restrict_lexicon self)
         (IndexedTranslatorInput.translator_input <$> batch)).1.

(** *** The groups of translated chunks *)

(** What [translate] has to find under input index [i] once the translated
    chunks are sorted and grouped: nothing beyond the inputs; the one empty
    translation for an input that is not translated; otherwise one
    translated chunk per chunk of the input, in chunk order. *)
Definition group_spec (self : Translator) (P : TranslatorInput -> Translation -> Prop)
    (trans_inputs : list TranslatorInput) (i : nat) (g : list IndexedTranslation) : Prop :=
  match trans_inputs !! i with
  | None => g = []
  | Some x =>
      if decide (skipped_input self x) then g = [skipped self i]
      else exists ics, input_parts self i x = ([], ics) /\ ics <> []
                       /\ Forall2 (translates P) ics g
  end.

(** The same up to the order of the chunks. *)
Definition fiber_spec (self : Translator) (P : TranslatorInput -> Translation -> Prop)
    (trans_inputs : list TranslatorInput) (i : nat) (f : list IndexedTranslation) : Prop :=
  match trans_inputs !! i with
  | None => f = []
  | Some x =>
      if decide (skipped_input self x) then f = [skipped self i]
      else exists ics cs, input_parts self i x = ([], ics) /\ ics <> []
                          /\ cs ≡ₚ ics /\ Forall2 (translates P) cs f
  end.

(** *** Translations that [translate] goes through with *)

(** A token has a first factor, and each of its factors is in the
    vocabulary of that factor. *)
Definition token_ok (self : Translator) (token : list Z) : Prop :=
  token <> []
  /\ forall j id, token !! j = Some id ->
       exists v, vocab_targets_inv self !! j = Some v /\ is_Some (v !! id).

Definition ids_ok (self : Translator) (ids : TokenIds) : Prop :=
  Forall (token_ok self) ids.

(** A translation that [_make_result] accepts. *)
Definition result_ok (self : Translator) (t : Translation) : Prop :=
  ids_ok self (target_ids t) /\ scores t <> []
  /\ forall nb, nbest_translations t = Some nb ->
                Forall (ids_ok self) (NBestTranslations.target_ids_list nb).

(** A hypothesis that [_concat_translations] can take as a chunk: known
    tokens, at least one, and [F] scores. *)
Definition hyp_ok (self : Translator) (F : nat) (t : Translation) : Prop :=
  ids_ok self (target_ids t) /\ target_ids t <> [] /\ length (scores t) = F.

(** A translation that [_concat_nbest_translations] can take as a chunk:
    an n-best list with at least one entry, each a good hypothesis. *)
Definition nbest_ok (self : Translator) (F : nat) (t : Translation) : Prop :=
  exists nb, nbest_translations t = Some nb
    /\ zip (NBestTranslations.target_ids_list nb) (NBestTranslations.scores nb) <> []
    /\ Forall (fun p : TokenIds * list float =>
                 ids_ok self p.1 /\ p.1 <> [] /\ length p.2 = F)
              (zip (NBestTranslations.target_ids_list nb) (NBestTranslations.scores nb)).

(** What [translate] needs of the translation the search gives for a chunk
    to go through with it: known tokens, more of them than the chunk's
    target prefix has, one score per target factor, n-best entries with known
    tokens, and, when n-best lists are asked for, a list of at least one
    entry, each with tokens and one score per target factor. *)
Definition wf_translation (self : Translator) (chunk : TranslatorInput) (t : Translation)
  : Prop :=
  ids_ok self (target_ids t)
  /\ num_target_prefix_tokens chunk < length (target_ids t)
  /\ length (scores t) = length (vocab_targets_inv self)
  /\ (forall nb, nbest_translations t = Some nb ->
                 Forall (ids_ok self) (NBestTranslations.target_ids_list nb))
  /\ (1 < nbest_size self -> nbest_ok self (length (vocab_targets_inv self)) t).

(** The same without the chunk: what is left to check after the target
    prefix is cut off. *)
Definition concat_ok (self : Translator) (t : Translation) : Prop :=
  ids_ok self (target_ids t)
  /\ target_ids t <> []
  /\ length (scores t) = length (vocab_targets_inv self)
  /\ (forall nb, nbest_translations t = Some nb ->
                 Forall (ids_ok self) (NBestTranslations.target_ids_list nb))
  /\ (1 < nbest_size self -> nbest_ok self (length (vocab_targets_inv self)) t).

(** ** Sample data *)

(** [TranslatorInput(sentence_id, tokens)] with the defaults of the
    dataclass, and [BadTranslatorInput(sentence_id, tokens)]. *)
Definition new_TranslatorInput (sentence_id : SentenceId) (tokens : Tokens)
  : TranslatorInput :=
  {| is_bad := false; sentence_id := sentence_id; tokens := tokens; factors := None;
     source_prefix_tokens := None; source_prefix_factors := None;
     target_prefix_tokens := None; target_prefix_factors := None;
     target_segment_durations := None;
     use_target_prefix_all_chunks := Some true; keep_target_prefix_key := Some true;
     restrict_lexicon := None; constraints := None; avoid_list := None;
     pass_through_dict := None |}.

Definition new_BadTranslatorInput (sentence_id : SentenceId) (tokens : Tokens)
  : TranslatorInput :=
  {| is_bad := true; sentence_id := sentence_id; tokens := tokens; factors := None;
     source_prefix_tokens := None; source_prefix_factors := None;
     target_prefix_tokens := None; target_prefix_factors := None;
     target_segment_durations := None;
     use_target_prefix_all_chunks := Some true; keep_target_prefix_key := Some true;
     restrict_lexicon := None; constraints := None; avoid_list := None;
     pass_through_dict := None |}.

(** Five tokens with one secondary factor. *)
Definition factored_request : TranslatorInput :=
  {| is_bad := false; sentence_id := IntId 1;
     tokens := ["a"; "b"; "c"; "d"; "e"]%string;
     factors := Some [["A"; "B"; "C"; "D"; "E"]%string];
     source_prefix_tokens := None; source_prefix_factors := None;
     target_prefix_tokens := None; target_prefix_factors := None;
     target_segment_durations := None;
     use_target_prefix_all_chunks := Some true; keep_target_prefix_key := Some true;
     restrict_lexicon := None; constraints := None; avoid_list := None;
     pass_through_dict := None |}.

(** Three tokens, a target prefix with one prefix factor, and the prefix
    asked for on the first chunk only. *)
Definition prefix_request : TranslatorInput :=
  {| is_bad := false; sentence_id := IntId 7;
     tokens := ["a"; "b"; "c"]%string;
     factors := None;
     source_prefix_tokens := None; source_prefix_factors := None;
     target_prefix_tokens := Some ["x"]%string;
     target_prefix_factors := Some [["y"]%string];
     target_segment_durations := None;
     use_target_prefix_all_chunks := Some false; keep_target_prefix_key := Some true;
     restrict_lexicon := None; constraints := None; avoid_list := None;
     pass_through_dict := None |}.

Definition plain_scorer : CandidateScorer :=
  {| scorer_call := fun score _ _ => score; unnormalize := fun score _ _ => score |}.

(** Two chunk translations of one token each, and one without tokens. *)
Definition translation_of (ids : TokenIds) : Translation :=
  {| target_ids := ids; scores := [0%float]; nbest_translations := None;
     estimated_reference_length := None |}.

(** An input that names lexicon [l]. *)
Definition lexicon_input (sentence_id : SentenceId) (tokens : Tokens) (l : Lexicon)
  : TranslatorInput :=
  {| is_bad := false; sentence_id := sentence_id; tokens := tokens; factors := None;
     source_prefix_tokens := None; source_prefix_factors := None;
     target_prefix_tokens := None; target_prefix_factors := None;
     target_segment_durations := None;
     use_target_prefix_all_chunks := Some true; keep_target_prefix_key := Some true;
     restrict_lexicon := Some l; constraints := None; avoid_list := None;
     pass_through_dict := None |}.

(** A trellis of two slots and three recorded steps. *)
Definition sample_hyp_indices : ndarray2 :=
  {| shape0 := 2; shape1 := 3;
     at2 := fun i j => match i, j with
                       | 0, 1 => 1%Z
                       | 1, 2 => 1%Z
                       | _, _ => 0%Z
                       end |}.

(** A translator for the examples, with one target factor. Its search
    answers each input with a word that tells the batch's restriction
    lexicon (100 for none, 101 + l for lexicon l, 103 from lexicon 2 on),
    once more than the input has target prefix tokens, followed by the
    end-of-sentence id, and scores it by the input's length (-0.5 up to two
    tokens, -1.5 beyond). *)
Definition sample_constants : Constants :=
  {| EOS_SYMBOL := "</s>"; EOS_ID := 3; UNK_ID := 1;
     TOKEN_SEPARATOR := " "; SPACE_FOR_XOS := 1 |}.

Definition echo_word (restrict_lexicon' : option Lexicon) : Z :=
  match restrict_lexicon' with
  | None => 100%Z
  | Some 0 => 101%Z
  | Some 1 => 102%Z
  | Some _ => 103%Z
  end.

Definition echo_translation (restrict_lexicon' : option Lexicon)
  (trans_input : TranslatorInput) : Translation :=
  {| target_ids := replicate (1 + num_target_prefix_tokens trans_input)
                             [echo_word restrict_lexicon'] ++ [[3%Z]];
     scores := [if decide (length (tokens trans_input) <= 2) then (-0.5)%float
                else (-1.5)%float];
     nbest_translations := None;
     estimated_reference_length := None |}.

Definition sample_vocab_inv : gmap Z string :=
  list_to_map [(3%Z, "</s>"); (100%Z, "free"); (101%Z, "lex0"); (102%Z, "lex1");
               (103%Z, "lex2")]%string.

Definition sample_translator (batch_size : nat) (_max_input_length : Z) : Translator :=
  {| C := sample_constants;
     _scorer := plain_scorer;
     batch_size := batch_size;
     nbest_size := 1;
     self_restrict_lexicon := NoLexicon;
     strip_unknown_words := false;
     vocab_targets_inv := [sample_vocab_inv];
     _max_input_length := _max_input_length;
     _translate_np := fun restrict_lexicon' translator_inputs =>
                        Ok (echo_translation restrict_lexicon' <$> translator_inputs) |}.

(** A call with an over-length input, a bad input, an input without tokens
    and a regular input. *)
Definition sample_inputs : list TranslatorInput :=
  [new_TranslatorInput (IntId 1) ["a"; "b"; "c"; "d"; "e"]%string;
   new_BadTranslatorInput (StrId "x") [];
   new_TranslatorInput (IntId 3) [];
   lexicon_input (IntId 4) ["q"]%string 1].

(** Two inputs of one token that name different lexicons. *)
Definition two_lexicon_inputs : list TranslatorInput :=
  [lexicon_input (IntId 5) ["q"]%string 1; lexicon_input (IntId 6) ["r"]%string 2].

(** ** Further sample data *)

(** Three tokens with a constraint, an avoid list, a lexicon and a
    pass-through dictionary. *)
Definition constrained_request : TranslatorInput :=
  {| is_bad := false; sentence_id := StrId "c";
     tokens := ["a"; "b"; "c"]%string;
     factors := None;
     source_prefix_tokens := Some ["p"]%string; source_prefix_factors := None;
     target_prefix_tokens := None; target_prefix_factors := None;
     target_segment_durations := None;
     use_target_prefix_all_chunks := Some true; keep_target_prefix_key := Some true;
     restrict_lexicon := Some 1; constraints := Some [["x"]%string];
     avoid_list := Some [["y"]%string];
     pass_through_dict := Some [("k", "v")]%string |}.

(** ** What the further properties are stated with *)

(** The target ids [_concat_translations] takes over from a chunk that is
    not the last: all but the last token when the first factor of that token
    is a stop id, all of them otherwise. *)
Definition without_trailing_stop (stop_ids : gset Z) (target_ids : TokenIds) : TokenIds :=
  match last target_ids ≫= head with
  | Some w => if decide (w ∈ stop_ids)
              then take (length target_ids - 1) target_ids
              else target_ids
  | None => target_ids
  end.

(** The running sum of the reference lengths in the loop of
    [_concat_translations]: a chunk without one leaves the sum as it is. *)
Definition add_reference_length (acc e : option float) : option float :=
  match e with
  | Some e' => match acc with
               | None => Some e'
               | Some a => Some (PrimFloat.add a e')
               end
  | None => acc
  end.

(** The sum, left to right, of the reference lengths there are; none if
    there is none. *)
Definition sum_reference_lengths (l : list float) : option float :=
  match l with
  | [] => None
  | e :: l' => Some (foldl PrimFloat.add e l')
  end.

(** [[raw_score, *factor_scores]] of a chunk in [_concat_translations]. *)
Definition raw_scores (scorer : CandidateScorer) (t : Translation) : list float :=
  match scores t with
  | [] => []
  | score :: factor_scores =>
      unnormalize scorer score (length (target_ids t)) (estimated_reference_length t)
      :: factor_scores
  end.

(** The number of hypotheses [_expand_nbest_translation] finds in a
    translation: its target ids paired with its score lists, as far as both
    go. *)
Definition nbest_count (t : Translation) : nat :=
  match nbest_translations t with
  | Some nb => length (NBestTranslations.target_ids_list nb)
               `min` length (NBestTranslations.scores nb)
  | None => 0
  end.

(** A chunk translation with an n-best list: one hypothesis per list of
    target ids, each with the score zero. *)
Definition nbest_translation_of (hyps : list TokenIds) : Translation :=
  {| target_ids := default [] (head hyps);
     scores := [0%float];
     nbest_translations :=
       Some (NBestTranslations.mk hyps ((fun _ => [0%float]) <$> hyps));
     estimated_reference_length := None |}.

(** The same translator with another batch size. *)
Definition with_batch_size (self : Translator) (batch_size : nat) : Translator :=
  {| C := C self;
     _scorer := _scorer self;
     batch_size := batch_size;
     nbest_size := nbest_size self;
     self_restrict_lexicon := self_restrict_lexicon self;
     strip_unknown_words := strip_unknown_words self;
     vocab_targets_inv := vocab_targets_inv self;
     _max_input_length := _max_input_length self;
     _translate_np := _translate_np self |}.

(** A search that answers each input of a batch by itself, whatever the
    batch and the lexicon: with the translation [f] has for it. *)
Definition search_by_input (self : Translator) (f : TranslatorInput -> Translation) : Prop :=
  forall restrict_lexicon' batch, batch <> [] ->
    _translate_np self restrict_lexicon' batch = Ok (f <$> batch).

(** A translator for the examples whose search does not look at the
    restriction lexicon. *)
Definition plain_translator (batch_size : nat) (_max_input_length : Z) : Translator :=
  {| C := sample_constants;
     _scorer := plain_scorer;
     batch_size := batch_size;
     nbest_size := 1;
     self_restrict_lexicon := NoLexicon;
     strip_unknown_words := false;
     vocab_targets_inv := [sample_vocab_inv];
     _max_input_length := _max_input_length;
     _translate_np := fun _ translator_inputs =>
                        Ok (echo_translation None <$> translator_inputs) |}.

(** ** Making inputs from strings *)

(** [TranslatorInput(sentence_id=..., tokens=..., factors=...)]: the other
    fields take the defaults of the dataclass. *)
Definition TranslatorInput_of (sentence_id : SentenceId) (tokens : Tokens)
  (factors : option (list Tokens)) : TranslatorInput :=
  {| is_bad := false; sentence_id := sentence_id; tokens := tokens; factors := factors;
     source_prefix_tokens := None; source_prefix_factors := None;
     target_prefix_tokens := None; target_prefix_factors := None;
     target_segment_durations := None;
     use_target_prefix_all_chunks := Some true; keep_target_prefix_key := Some true;
     restrict_lexicon := None; constraints := None; avoid_list := None;
     pass_through_dict := None |}.

(** [_bad_input(sentence_id, reason)]: a [BadTranslatorInput] without
    tokens; the reason is only logged. *)
Definition _bad_input (sentence_id : SentenceId) : TranslatorInput :=
  {| is_bad := true; sentence_id := sentence_id; tokens := []; factors := None;
     source_prefix_tokens := None; source_prefix_factors := None;
     target_prefix_tokens := None; target_prefix_factors := None;
     target_segment_durations := None;
     use_target_prefix_all_chunks := Some true; keep_target_prefix_key := Some true;
     restrict_lexicon := None; constraints := None; avoid_list := None;
     pass_through_dict := None |}.

(** [s.split(sep)] for a non-empty separator: the pieces of [s] between the
    occurrences of [sep], found from the left and not overlapping. [skip]
    counts the characters of an occurrence still to be passed over, [cur] is
    the piece read so far. *)
Fixpoint split_go (sep : string) (skip : nat) (cur s : string) : list string :=
  match s with
  | EmptyString => [cur]
  | String c s' =>
      match skip with
      | S k => split_go sep k cur s'
      | O => if String.prefix sep s
             then cur :: split_go sep (String.length sep - 1) EmptyString s'
             else split_go sep 0 (cur +:+ String c EmptyString) s'
      end
  end.

Definition py_split (sep s : string) : list string := split_go sep 0 EmptyString s.

(** What making an input from a factored string can raise. *)
Inductive InputError : Set :=
| SockeyeError_delimiter   (* utils.check_condition on the delimiter *)
| IndexError_pieces.       (* pieces[0], pieces[i + 1] *)

Inductive checked (A : Type) : Type :=
| Checked (a : A)
| Fails (e : InputError).
Arguments Checked {A} a.
Arguments Fails {A} e.

(** [for i, factor in enumerate(factors): factors[i].append(pieces[i + 1])]. *)
Fixpoint append_pieces (pieces : list string) (i : nat) (factors : list Tokens)
  : checked (list Tokens) :=
  match factors with
  | [] => Checked []
  | factor :: factors' =>
      match pieces !! (i + 1) with
      | None => Fails IndexError_pieces
      | Some piece =>
          match append_pieces pieces (S i) factors' with
          | Checked rest => Checked ((factor ++ [piece]) :: rest)
          | Fails e => Fails e
          end
      end
  end.

(** The loop of [make_input_from_factored_string] over the tokens of the
    string; [None] stands for the [return _bad_input(...)] inside it. *)
Fixpoint factored_loop (model_num_source_factors : nat) (delimiter : string)
  (toks : list string) (tokens : Tokens) (factors : list Tokens)
  : checked (option (Tokens * list Tokens)) :=
  match toks with
  | [] => Checked (Some (tokens, factors))
  | token :: toks' =>
      let pieces := py_split delimiter token in
      if negb (forallb (fun piece => negb (String.eqb piece EmptyString)) pieces)
         || negb (length pieces =? model_num_source_factors)
      then Checked None
      else match pieces with
           | [] => Fails IndexError_pieces
           | piece0 :: _ =>
               match append_pieces pieces 0 factors with
               | Fails e => Fails e
               | Checked factors' =>
                   factored_loop model_num_source_factors delimiter toks'
                                 (tokens ++ [piece0]) factors'
               end
           end
  end.

Section make_input.

(** [utils.get_tokens] and Python's [str.isspace]: [sockeye/utils.py] is not
    part of the sources at hand, and [isspace] goes by the Unicode character
    database; what follows holds whatever they are. *)
Variable get_tokens : string -> Tokens.
Variable str_isspace : string -> bool.

(** [make_input_from_plain_string]. *)
Definition make_input_from_plain_string (sentence_id : SentenceId) (string' : string)
  : TranslatorInput :=
  TranslatorInput_of sentence_id (get_tokens string') None.

(** [make_input_from_factored_string]; [model_num_source_factors] is
    [translator.num_source_factors]. [utils.check_condition] raises
    [SockeyeError] when the delimiter is empty or whitespace. *)
Definition make_input_from_factored_string (sentence_id : SentenceId)
  (factored_string : string) (model_num_source_factors : nat) (delimiter : string)
  : checked TranslatorInput :=
  if negb (String.eqb delimiter EmptyString) && negb (str_isspace delimiter)
  then
    if decide (model_num_source_factors = 1)
    then Checked (make_input_from_plain_string sentence_id factored_string)
    else
      match factored_loop model_num_source_factors delimiter
                          (get_tokens factored_string) []
                          (replicate (model_num_source_factors - 1) []) with
      | Fails e => Fails e
      | Checked None => Checked (_bad_input sentence_id)
      | Checked (Some (tokens, factors)) =>
          Checked (TranslatorInput_of sentence_id tokens (Some factors))
      end
  else Fails SockeyeError_delimiter.

(** [make_input_from_multiple_strings]. *)
Definition make_input_from_multiple_strings (sentence_id : SentenceId)
  (strings : list string) : TranslatorInput :=
  match strings with
  | [] => TranslatorInput_of sentence_id [] None
  | string0 :: rest =>
      let tokens := get_tokens string0 in
      let factors := get_tokens <$> rest in
      if bool_decide (Forall (fun factor => length factor = length tokens) factors)
      then TranslatorInput_of sentence_id tokens (Some factors)
      else _bad_input sentence_id
  end.

End make_input.

(** Tokens at the blanks, for the examples. *)
Definition sample_get_tokens (s : string) : Tokens :=
  filter (fun t => t <> EmptyString) (py_split " " s).

(** A token of a factored string that parses: [model_num_source_factors]
    pieces between the delimiters, none of them empty. *)
Definition well_factored (model_num_source_factors : nat) (delimiter token : string) : Prop :=
  Forall (fun piece => piece <> EmptyString) (py_split delimiter token)
  /\ length (py_split delimiter token) = model_num_source_factors.

(** ** The JSON form of an output *)

(** The values [TranslatorOutput.json] puts in its dictionary, and the
    values of the pass-through dictionary, which it only copies. *)
Inductive JsonValue : Type :=
| JPassThrough (v : string)
| JSentenceId (s : SentenceId)
| JStr (s : string)
| JFloat (f : float)
| JStrs (l : list string)
| JScores (l : option (list (list float)))
| JDicts (l : list (gmap string string)).

(** [enumerate(l, start)]. *)
Definition enumerate_from {A} (start : nat) (l : list A) : list (nat * A) :=
  zip (seq start (length l)) l.

(** [f'factor{i}'] and [f'factor{i}_score']. *)
Definition factor_key (i : nat) : string := "factor" +:+ pretty i.
Definition factor_score_key (i : nat) : string := "factor" +:+ pretty i +:+ "_score".

(** The pass-through dictionary as a dictionary; it is given by its items,
    each key once. *)
Definition pass_through (d : option PassThrough) : gmap string JsonValue :=
  match d with
  | Some items => list_to_map ((fun '(k, v) => (k, JPassThrough v)) <$> items)
  | None => ∅
  end.

(** [TranslatorOutput.json], block by block: the keys always written, and
    the four blocks under an [if]. *)
Definition json_base (self : TranslatorOutput.t) : gmap string JsonValue :=
  let _d := pass_through (TranslatorOutput.pass_through_dict self) in
  let _d := <["sentence_id"%string := JSentenceId (TranslatorOutput.sentence_id self)]> _d in
  let _d := <["translation"%string := JStr (TranslatorOutput.translation self)]> _d in
  <["score"%string := JFloat (TranslatorOutput.score self)]> _d.

Definition json_nbest (self : TranslatorOutput.t) (_d : gmap string JsonValue)
  : gmap string JsonValue :=
  match TranslatorOutput.nbest_translations self with
  | Some nbest_translations =>
      if decide (1 < length nbest_translations)
      then <["scores"%string := JScores (TranslatorOutput.nbest_scores self)]>
             (<["translations"%string := JStrs nbest_translations]> _d)
      else _d
  | None => _d
  end.

Definition json_factor_translations (self : TranslatorOutput.t)
  (_d : gmap string JsonValue) : gmap string JsonValue :=
  match TranslatorOutput.factor_translations self with
  | Some factor_translations =>
      foldl (fun d '(i, factor) => <[factor_key i := JStr factor]> d) _d
            (enumerate_from 1 factor_translations)
  | None => _d
  end.

Definition json_factor_scores (self : TranslatorOutput.t)
  (_d : gmap string JsonValue) : gmap string JsonValue :=
  match TranslatorOutput.factor_scores self with
  | Some factor_scores =>
      foldl (fun d '(i, score) => <[factor_score_key i := JFloat score]> d) _d
            (enumerate_from 1 factor_scores)
  | None => _d
  end.

Definition json_nbest_factor_translations (self : TranslatorOutput.t)
  (_d : gmap string JsonValue) : gmap string JsonValue :=
  match TranslatorOutput.nbest_factor_translations self with
  | Some nbest_factor_translations =>
      if decide (1 < length nbest_factor_translations)
      then <["translations_factors"%string :=
               JDicts ((fun factor_translations : list string =>
                          foldl (fun (m : gmap string string) '(i, factor_translation) =>
                                   <[factor_key i := factor_translation]> m) ∅
                                (enumerate_from 1 factor_translations))
                         <$> nbest_factor_translations)]> _d
      else _d
  | None => _d
  end.

Definition json (self : TranslatorOutput.t) : gmap string JsonValue :=
  json_nbest_factor_translations self
    (json_factor_scores self
       (json_factor_translations self
          (json_nbest self (json_base self)))).

(** A string of decimal digits. *)
Definition is_digit (c : Ascii.ascii) : bool :=
  (48 <=? Ascii.nat_of_ascii c) && (Ascii.nat_of_ascii c <=? 57).

Fixpoint all_digits (s : string) : bool :=
  match s with
  | EmptyString => true
  | String c s' => is_digit c && all_digits s'
  end.

(** The keys [TranslatorOutput.json] always writes, or writes for n-best
    lists. *)
Definition json_fixed_keys : list string :=
  ["sentence_id"; "translation"; "score"; "translations"; "scores";
   "translations_factors"]%string.

(** ** From the trellis to a translation *)

(** [a.tolist()] for a two-dimensional array. *)
Definition tolist2 (a : ndarray2) : list (list Z) :=
  (fun i => (fun j => at2 a i j) <$> seq 0 (shape1 a)) <$> seq 0 (shape0 a).

(** [itertools.zip_longest(l, k, fillvalue=fill)] where [l] is not the
    shorter list, as it is in [_unshift_target_factors]: the words are one
    more than the rows of factors after the first. *)
Fixpoint zip_longest_r {A B} (l : list A) (k : list B) (fill : B) : list (A * B) :=
  match l with
  | [] => []
  | x :: l' =>
      match k with
      | [] => (x, fill) :: zip_longest_r l' [] fill
      | y :: k' => (x, y) :: zip_longest_r l' k' fill
      end
  end.

(** [_unshift_target_factors], for a two-dimensional [sequence] of shape
    (bucketed length, number of target factors), as [_get_best_translations]
    passes it. Reading column 0 of an array without columns raises. The
    tuple [(w, *fs)] of a token is the list [w :: fs]. *)
Definition _unshift_target_factors (sequence : ndarray2) (fill_last_with : Z)
  : result TokenIds :=
  if decide (shape1 sequence = 1) then Ok (tolist2 sequence)
  else
    let num_factors_to_shift := shape1 sequence - 1 in
    let _fillvalue := replicate num_factors_to_shift fill_last_with in
    if decide (shape1 sequence = 0) then Raise IndexError_array
    else
      let _words := (fun i => at2 sequence i 0) <$> seq 0 (shape0 sequence) in
      let _next_factors :=
        (fun i => (fun j => at2 sequence i j) <$> seq 1 (shape1 sequence - 1))
          <$> seq 1 (shape0 sequence - 1) in
      Ok ((fun '(w, fs) => w :: fs) <$> zip_longest_r _words _next_factors _fillvalue).

(** [l[:n]] for an [int] that may be negative. *)
Definition py_prefix {A} (l : list A) (n : Z) : list A :=
  if decide (0 <= n)%Z then take (Z.to_nat n) l
  else take (length l - Z.to_nat (- n)) l.

(** The truth value of a float: anything but zero. *)
Definition float_truthy (x : float) : bool := negb (PrimFloat.eqb x 0%float).

(** [Translator._assemble_translation]; [EOS_ID] is [C.EOS_ID], the default
    of [fill_last_with]. *)
Definition _assemble_translation (EOS_ID : Z) (sequence : ndarray2) (length' : Z)
  (seq_scores : list float) (estimated_reference_length : option float)
  (unshift_target_factors : bool) : result Translation :=
  sequence' ← (if unshift_target_factors
               then _unshift_target_factors sequence EOS_ID
               else Ok (tolist2 sequence));
  let sequence'' := py_prefix sequence' length' in
  let scores := seq_scores in
  let estimated_reference_length' :=
    match estimated_reference_length with
    | Some x => if float_truthy x then Some x else None
    | None => None
    end in
  Ok {| target_ids := sequence'';
        scores := scores;
        nbest_translations := None;
        estimated_reference_length := estimated_reference_length' |}.

(** A trellis of three steps and two target factors, for the examples. *)
Definition sample_sequence : ndarray2 :=
  {| shape0 := 3; shape1 := 2;
     at2 := fun i j => (10 * Z.of_nat i + Z.of_nat j)%Z |}.
(** * Properties *)

(** ** Python list primitives *)

Lemma slice_length {A} (l : list A) i j : length (slice l i j) <= j - i.
Proof. unfold slice. rewrite length_take. lia. Qed.

Lemma range_len_covers stop step :
  0 < step -> stop <= range_len 0 stop step * step.
Proof.
  intros Hs. unfold range_len. rewrite Nat.sub_0_r.
  pose proof (Nat.div_mod_eq (stop + (step - 1)) step) as Hd.
  pose proof (Nat.mod_upper_bound (stop + (step - 1)) step ltac:(lia)) as Hm.
  nia.
Qed.

Lemma snd_enumerate {A} (l : list A) : (enumerate l).*2 = l.
Proof. unfold enumerate. apply snd_zip. rewrite length_seq. lia. Qed.

Lemma fst_enumerate {A} (l : list A) : (enumerate l).*1 = seq 0 (length l).
Proof. unfold enumerate. apply fst_zip. rewrite length_seq. lia. Qed.

(** Consecutive slices of width [w] starting at [s], [n] of them, glue back
    to the stretch of the list they cover. *)
Lemma concat_slices {A} (l : list A) (w s n : nat) :
  concat ((fun k => slice l (s + k * w) (s + k * w + w)) <$> seq 0 n)
  = take (n * w) (drop s l).
Proof.
  revert s. induction n as [|n IH]; intros s.
  - by rewrite take_0.
  - rewrite <- cons_seq. cbn [fmap list_fmap concat].
    rewrite <- fmap_S_seq, <- list_fmap_compose.
    erewrite (list_fmap_ext _ (fun k => slice l (s + w + k * w) (s + w + k * w + w))).
    2: { intros i x _. cbn. f_equal; lia. }
    rewrite IH. unfold slice.
    replace (s + 0 * w + w - (s + 0 * w)) with w by lia.
    replace (s + 0 * w) with s by lia.
    replace (S n * w) with (w + n * w) by lia.
    by rewrite <- take_take_drop, drop_drop.
Qed.

Lemma fmap_enumerate_snd {A B} (g : A -> B) (h : nat * A -> B) (l : list A) :
  (forall k x, h (k, x) = g x) -> h <$> enumerate l = g <$> l.
Proof.
  intros Hh. rewrite <- (snd_enumerate l) at 2. rewrite <- list_fmap_compose.
  apply list_fmap_ext. intros i [k x] _. apply Hh.
Qed.

Lemma concat_range_slices {A} (l : list A) (stop step : nat) :
  0 < step -> length l <= stop ->
  concat ((fun i => slice l i (i + step)) <$> py_range 0 stop step) = l.
Proof.
  intros Hs Hl. unfold py_range. rewrite <- list_fmap_compose.
  rewrite (concat_slices l step 0), drop_0.
  apply take_ge. pose proof (range_len_covers stop step Hs). lia.
Qed.

(** ** The chunker *)

Lemma chunks_Ok self L :
  0 < L ->
  chunks self L
  = Ok ((fun '(chunk_id, i) => chunk_at self L chunk_id i)
          <$> enumerate (py_range 0 (length (tokens self)) L)).
Proof.
  intros HL. unfold chunks. case_decide; [lia|].
  replace (input_len self - num_source_prefix_tokens self)
    with (length (tokens self)) by (unfold input_len; lia).
  done.
Qed.

(** C2. Chunk round trip: for a request with at least one token and a chunk
    size [L >= 1], [chunks] returns, and concatenating the chunks' tokens in
    chunk order gives back the request's tokens; the same holds for each
    secondary factor sequence (the request model makes every factor as long
    as the tokens; no factor longer than the tokens is what the proof uses);
    and every chunk has at most [L] primary tokens. *)
Theorem chunks_round_trip (self : TranslatorInput) (L : nat) :
  1 <= length (tokens self) -> 1 <= L ->
  (forall fs, factors self = Some fs ->
              Forall (fun f => length f <= length (tokens self)) fs) ->
  exists cs, chunks self L = Ok cs
    /\ concat (tokens <$> cs) = tokens self
    /\ (forall fs k f, factors self = Some fs -> fs !! k = Some f ->
          concat ((fun c => default [] (factors c ≫= (.!! k))) <$> cs) = f)
    /\ (factors self = None -> Forall (fun c => factors c = None) cs)
    /\ Forall (fun c => length (tokens c) <= L) cs.
Proof.
  intros _ HL Hfs. eexists. split; [apply chunks_Ok; lia|].
  split; [|split; [|split]].
  - rewrite <- list_fmap_compose.
    rewrite (fmap_enumerate_snd (fun i => slice (tokens self) i (i + L))); [|done].
    apply concat_range_slices; lia.
  - intros fs k f Hf Hk. rewrite <- list_fmap_compose.
    rewrite (fmap_enumerate_snd (fun i => slice f i (i + L))).
    + apply concat_range_slices; [lia|].
      specialize (Hfs fs Hf). rewrite Forall_lookup in Hfs. by eapply Hfs.
    + intros c i. cbn. rewrite Hf. cbn. by rewrite list_lookup_fmap, Hk.
  - intros Hnone. apply Forall_fmap, Forall_forall. intros [c i] _. cbn. by rewrite Hnone.
  - apply Forall_fmap, Forall_forall. intros [c i] _. cbn.
    pose proof (slice_length (tokens self) i (i + L)). lia.
Qed.

Lemma chunks_round_trip_witness :
  1 <= length (tokens factored_request) /\ 1 <= 2 /\
  exists cs, chunks factored_request 2 = Ok cs
    /\ concat (tokens <$> cs) = tokens factored_request
    /\ (forall fs k f, factors factored_request = Some fs -> fs !! k = Some f ->
          concat ((fun c => default [] (factors c ≫= (.!! k))) <$> cs) = f)
    /\ (factors factored_request = None -> Forall (fun c => factors c = None) cs)
    /\ Forall (fun c => length (tokens c) <= 2) cs.
Proof.
  assert (H1 : 1 <= length (tokens factored_request)) by (cbn; lia).
  assert (H2 : 1 <= 2) by lia.
  split; [exact H1|]. split; [exact H2|].
  apply (chunks_round_trip factored_request 2 H1 H2).
  intros fs [= <-]. repeat constructor.
Defined.

(** The target prefix tokens of a chunk follow the flag: every chunk has
    them when the flag is set, the first chunk alone otherwise. *)
Lemma chunks_target_prefix_tokens self L cs k c :
  chunks self L = Ok cs -> cs !! k = Some c ->
  target_prefix_tokens c =
    if truthy (use_target_prefix_all_chunks self) then target_prefix_tokens self
    else if decide (k = 0) then target_prefix_tokens self else None.
Proof.
  unfold chunks. case_decide; [done|]. intros [= <-] Hk.
  rewrite list_lookup_fmap in Hk.
  destruct (enumerate _ !! k) as [[k' i]|] eqn:He; [|done].
  injection Hk as <-.
  assert (k' = k) as ->.
  { apply (f_equal (fmap fst)) in He. rewrite <- list_lookup_fmap, fst_enumerate in He.
    cbn in He. apply lookup_seq in He. lia. }
  cbn. destruct (truthy _); repeat case_decide; done.
Qed.

(** The target prefix factors of a chunk do not follow the flag: every
    chunk has the request's. *)
Lemma chunks_target_prefix_factors self L cs c :
  chunks self L = Ok cs -> c ∈ cs ->
  target_prefix_factors c = target_prefix_factors self.
Proof.
  unfold chunks. case_decide; [done|]. intros [= <-] Hc.
  apply list_elem_of_fmap in Hc as ([k i] & -> & _). done.
Qed.

(** C3, at the input where the code departs from it: three tokens cut at
    two, the flag unset. The second chunk has no target prefix tokens, and
    still has the target prefix factors. *)
Lemma chunks_prefix_factors_on_later_chunk :
  (fun cs : list TranslatorInput =>
     (target_prefix_tokens <$> cs, target_prefix_factors <$> cs))
    <$> chunks prefix_request 2
  = Ok ([Some ["x"%string]; None], [Some [["y"%string]]; Some [["y"%string]]]).
Proof. reflexivity. Qed.

(** ** Loops that may raise *)

Lemma foldR_app {S X} (f : S -> X -> result S) s l1 l2 :
  foldR f s (l1 ++ l2) = s' ← foldR f s l1; foldR f s' l2.
Proof.
  revert s. induction l1 as [|x l1 IH]; intros s; [done|].
  cbn. destruct (f s x); cbn; [apply IH|done].
Qed.

(** A loop raises when the body raises at some element whatever the state. *)
Lemma foldR_raises {S X} (f : S -> X -> result S) s l x :
  x ∈ l -> (forall s', exists e, f s' x = Raise e) -> exists e, foldR f s l = Raise e.
Proof.
  intros Hx Hf. apply list_elem_of_split in Hx as (l1 & l2 & ->).
  rewrite foldR_app. destruct (foldR f s l1) as [s'|e]; cbn; [|by eexists].
  destruct (Hf s') as [e ->]. by eexists.
Qed.

(** A loop does not raise [e] when the body raises it at no element. *)
Lemma foldR_not_raise {S X} (f : S -> X -> result S) s l e :
  (forall s' x, x ∈ l -> f s' x <> Raise e) -> foldR f s l <> Raise e.
Proof.
  revert s. induction l as [|x l IH]; intros s Hf; [done|].
  cbn. destruct (f s x) as [s'|e'] eqn:Hx; cbn.
  - apply IH. intros s'' y Hy. apply Hf. by right.
  - rewrite <- Hx. apply Hf. by left.
Qed.

Lemma lookup_enumerate {A} (l : list A) i x :
  l !! i = Some x -> enumerate l !! i = Some (i, x).
Proof.
  intros Hi. unfold enumerate. apply lookup_zip_with_Some.
  exists i, x. split; [done|]. split; [|done].
  apply lookup_seq. split; [done|]. by eapply lookup_lt_Some.
Qed.

Lemma elem_of_enumerate {A} (l : list A) i x :
  (i, x) ∈ enumerate l -> l !! i = Some x.
Proof.
  intros [j Hj]%list_elem_of_lookup. unfold enumerate in Hj.
  apply lookup_zip_with_Some in Hj as (a & b & [= -> ->] & Ha & Hb).
  apply lookup_seq in Ha as [-> _]. done.
Qed.

(** ** The chunk reassembler *)

Lemma np_add_raises x y e : np_add x y = Raise e -> e = ValueError_broadcast.
Proof.
  unfold np_add. case_decide; [done|].
  destruct x as [|a [|a' x]], y as [|b [|b' y]]; congruence.
Qed.

#[local] Arguments np_add : simpl never.

(** The rest of the loop body, past the reads of [target_ids]. *)
Ltac concat_step_rest :=
  match goal with
  | |- context [scores ?t] => destruct (scores t); [done|]; cbn
  end;
  match goal with
  | |- context [np_add ?x ?y] =>
      let Ha := fresh in
      destruct (np_add x y) eqn:Ha; cbn; [done|];
      apply np_add_raises in Ha; congruence
  end.

(** A chunk that is not the last and has no target ids stops the loop of
    [_concat_translations] at its first statement. *)
Lemma concat_step_empty stop_ids scorer n st idx t :
  idx <> n - 1 -> target_ids t = [] ->
  concat_step stop_ids scorer n st (idx, t) = Raise IndexError_target_ids_last.
Proof.
  intros Hidx Ht. destruct st as [[ids erl] sc]. unfold concat_step.
  case_decide; [done|]. by rewrite Ht.
Qed.

Lemma concat_step_nonempty stop_ids scorer n st idx t :
  (idx <> n - 1 -> target_ids t <> []) ->
  concat_step stop_ids scorer n st (idx, t) <> Raise IndexError_target_ids_last.
Proof.
  intros Ht. destruct st as [[ids erl] sc]. unfold concat_step.
  case_decide as Hidx.
  - cbn. concat_step_rest.
  - specialize (Ht Hidx). destruct (last (target_ids t)) as [token|] eqn:Hl.
    + destruct (head token); [|done]. case_decide; cbn; concat_step_rest.
    + by apply last_None in Hl.
Qed.

(** C10. [_concat_translations] returns only if every translation but the
    last has target ids: with two or more translations, one that is not the
    last and has no target ids makes it raise; and when every translation
    but the last has target ids, the read of [target_ids[-1]] never raises. *)
Theorem concat_translations_nonempty_precondition
  (translations : list Translation) (stop_ids : gset Z) (scorer : CandidateScorer) :
  (2 <= length translations ->
   (exists i t, i + 1 < length translations /\ translations !! i = Some t
                /\ target_ids t = []) ->
   exists e, _concat_translations translations stop_ids scorer = Raise e)
  /\
  ((forall i t, i + 1 < length translations -> translations !! i = Some t ->
                target_ids t <> []) ->
   _concat_translations translations stop_ids scorer <> Raise IndexError_target_ids_last).
Proof.
  split.
  - intros Hlen (i & t & Hi & Hit & Ht).
    destruct translations as [|t0 [|t1 rest]]; [cbn in Hlen; lia..|].
    unfold _concat_translations.
    destruct (foldR_raises
                (concat_step stop_ids scorer (length (t0 :: t1 :: rest)))
                ([], None, (fun _ => 0%float) <$> scores t0)
                (enumerate (t0 :: t1 :: rest)) (i, t)) as [e He].
    + apply list_elem_of_lookup. exists i. by apply lookup_enumerate.
    + intros st. eexists. apply concat_step_empty; [lia|done].
    + rewrite He. by eexists.
  - intros Hne. destruct translations as [|t0 [|t1 rest]]; [done..|].
    unfold _concat_translations.
    destruct (foldR _ _ _) as [[[ids erl] sc]|e] eqn:Hf; cbn.
    + by destruct sc.
    + intros [= ->]. revert Hf. apply foldR_not_raise.
      intros st [idx t] Hin. apply concat_step_nonempty. intros Hidx.
      apply elem_of_enumerate in Hin. apply (Hne idx); [|done].
      apply lookup_lt_Some in Hin. lia.
Qed.

Lemma concat_translations_nonempty_precondition_witness :
  (exists e, _concat_translations [translation_of []; translation_of [[5%Z]]]
                                  {[ 3%Z; PAD_ID ]} plain_scorer = Raise e)
  /\ _concat_translations [translation_of [[4%Z]]; translation_of []]
                          {[ 3%Z; PAD_ID ]} plain_scorer
     <> Raise IndexError_target_ids_last.
Proof.
  split.
  - apply (concat_translations_nonempty_precondition
             [translation_of []; translation_of [[5%Z]]]).
    + cbn. lia.
    + exists 0, (translation_of []). cbn. split; [lia|done].
  - apply (concat_translations_nonempty_precondition
             [translation_of [[4%Z]]; translation_of []]).
    intros i t Hi Ht. cbn in Hi. destruct i as [|i]; [|lia].
    injection Ht as <-. done.
Defined.

(** ** The restriction lexicon of a batch *)

Lemma batch_restrict_lexicon_fst self_lex batch :
  (batch_restrict_lexicon self_lex batch).1
  = (foldl (restrict_lexicon_step self_lex) (None, []) batch).1.
Proof.
  unfold batch_restrict_lexicon.
  destruct (foldl _ _ _) as [[l|] log]; [done|]. by destruct self_lex.
Qed.

Lemma restrict_lexicon_step_fst self_lex st x :
  (restrict_lexicon_step self_lex st x).1
  = match restrict_lexicon x with
    | Some l => Some l
    | None => match self_lex with
              | NoLexicon => st.1
              | SingleLexicon l => Some l
              | NamedLexicons _ => None
              end
    end.
Proof.
  destruct st as [cur log]. unfold restrict_lexicon_step.
  destruct (restrict_lexicon x); [done|]. by destruct self_lex.
Qed.

Lemma last_named_lexicon_snoc batch x :
  last_named_lexicon (batch ++ [x])
  = match restrict_lexicon x with
    | Some l => Some l
    | None => last_named_lexicon batch
    end.
Proof.
  unfold last_named_lexicon. rewrite omap_app. cbn.
  destruct (restrict_lexicon x); cbn.
  - by rewrite last_snoc.
  - by rewrite app_nil_r.
Qed.

(** C8, as the code has it. The batch's restriction lexicon is the last
    lexicon named by an input of the batch when the translator has no lexicon
    of its own. When it has one, the last input of the batch alone decides:
    its own lexicon if it names one, else the translator's single lexicon,
    or none when the translator holds a dict of named lexicons. Picking the
    lexicon never raises: a conflict is only logged. *)
Theorem batch_restrict_lexicon_choice
  (self_lex : TranslatorLexicon) (batch : list TranslatorInput) :
  (batch_restrict_lexicon self_lex batch).1
  = match self_lex with
    | NoLexicon => last_named_lexicon batch
    | SingleLexicon l => (fun x => default l (restrict_lexicon x)) <$> last batch
    | NamedLexicons _ => last batch ≫= restrict_lexicon
    end.
Proof.
  rewrite batch_restrict_lexicon_fst.
  induction batch as [|x batch IH] using rev_ind.
  - by destruct self_lex.
  - rewrite foldl_app. cbn [foldl]. rewrite restrict_lexicon_step_fst, IH.
    destruct self_lex.
    + by rewrite last_named_lexicon_snoc.
    + rewrite last_snoc. cbn. by destruct (restrict_lexicon x).
    + rewrite last_snoc. cbn. by destruct (restrict_lexicon x).
Qed.

(** C8 as stated fails: with a dict of named lexicons, an input that names
    none, coming after one that names lexicon 1, resets the batch's lexicon
    to none. *)
Lemma batch_restrict_lexicon_reset :
  last_named_lexicon [lexicon_input (IntId 0) ["a"%string] 1;
                      new_TranslatorInput (IntId 1) ["b"%string]] = Some 1
  /\ (batch_restrict_lexicon (NamedLexicons {[ "fr"%string := 1 ]})
        [lexicon_input (IntId 0) ["a"%string] 1;
         new_TranslatorInput (IntId 1) ["b"%string]]).1 = None.
Proof. split; reflexivity. Qed.

(** ** Backpointer traceback *)

Section traceback.
Context (a : ndarray2).

Lemma np_index_valid n i : (0 <= i < Z.of_nat n)%Z -> np_index n i = Ok (Z.to_nat i).
Proof. intros Hi. unfold np_index. by case_decide. Qed.

Lemma np_index_last n : 0 < n -> np_index n (-1) = Ok (n - 1).
Proof.
  intros Hn. unfold np_index. case_decide; [lia|]. case_decide; [|lia].
  f_equal. lia.
Qed.

Lemma mapR_Ok_fmap {A B} (f : A -> result B) (g : A -> B) (l : list A) :
  Forall (fun x => f x = Ok (g x)) l -> mapR f l = Ok (g <$> l).
Proof.
  induction 1 as [|x l Hx _ IH]; [done|]. cbn. rewrite Hx. cbn. by rewrite IH.
Qed.

(** Reading a column at valid slots returns the backpointers there. *)
Lemma take_column_valid pointer step :
  step < shape1 a -> valid_slots a pointer ->
  take_column a pointer (Z.of_nat step)
  = Ok ((fun r => at2 a (Z.to_nat r) step) <$> pointer).
Proof.
  intros Hs Hp. unfold take_column. rewrite np_index_valid by lia. cbn.
  rewrite Nat2Z.id. apply mapR_Ok_fmap.
  eapply Forall_impl; [exact Hp|]. intros r Hr. cbn in *. by rewrite np_index_valid.
Qed.

Lemma take_column_valid_slots pointer step :
  well_formed_backpointers a -> step < shape1 a -> valid_slots a pointer ->
  valid_slots a ((fun r => at2 a (Z.to_nat r) step) <$> pointer).
Proof.
  intros Hwf Hs Hp. apply Forall_fmap. eapply Forall_impl; [exact Hp|].
  intros r Hr. cbn in *. apply Hwf; lia.
Qed.

(** The loop of the traceback over the steps [n - 1, ..., 0]: it returns,
    leaves the columns from [n] on alone, writes the pointer it starts from
    in column [n - 1], and links each column below to the one after it. *)
Lemma traceback_loop n :
  well_formed_backpointers a -> n <= shape1 a ->
  forall res pointer, valid_slots a pointer ->
  exists res' pointer',
    foldR (traceback_step a) (res, pointer) (range_down n) = Ok (res', pointer')
    /\ shape0 res' = shape0 res /\ shape1 res' = shape1 res
    /\ (forall b t, n <= t -> at2 res' b t = at2 res b t)
    /\ (forall b p, 0 < n -> pointer !! b = Some p -> at2 res' b (n - 1) = p)
    /\ (forall b t, b < length pointer -> t + 1 < n ->
          at2 res' b t = at2 a (Z.to_nat (at2 res' b (t + 1))) (t + 1)).
Proof.
  intros Hwf. induction n as [|n IH]; intros Hn res pointer Hp.
  - exists res, pointer. cbn. repeat split; intros; lia || done.
  - unfold range_down. rewrite seq_S, reverse_app. cbn [reverse rev_append plus app].
    cbn [foldR traceback_step]. rewrite take_column_valid by (done || lia). cbn.
    destruct (IH ltac:(lia) (set_column res n pointer)
                ((fun r => at2 a (Z.to_nat r) n) <$> pointer))
      as (res' & pointer' & Hf & Hs0 & Hs1 & Hkeep & Hlast & Hlink).
    { apply take_column_valid_slots; [done|lia|done]. }
    exists res', pointer'. unfold range_down in Hf. rewrite Hf.
    assert (Hcol : forall b p, pointer !! b = Some p -> at2 res' b n = p).
    { intros b p Hb. rewrite Hkeep by lia. cbn. case_decide; [|done]. by rewrite Hb. }
    split; [done|]. split; [done|]. split; [done|]. split; [|split].
    + intros b t Ht. rewrite Hkeep by lia. cbn. case_decide; [lia|done].
    + intros b p _ Hb. rewrite <- (Hcol b p Hb). f_equal. lia.
    + intros b t Hb Ht. destruct (decide (t + 1 = n)) as [<-|Hne].
      * destruct (lookup_lt_is_Some_2 pointer b Hb) as [p Hbp].
        rewrite (Hcol b p Hbp).
        replace t with (t + 1 - 1) at 1 by lia. apply Hlast; [lia|].
        by rewrite list_lookup_fmap, Hbp.
      * apply Hlink; [by rewrite length_fmap|lia].
Qed.

End traceback.

(** C4. For a trellis whose backpointer matrix has [T >= 1] recorded steps
    and well-formed backpointers, and for the ranks' slots [ks] at the final
    step, the traceback returns; it records [T - 1] slots per item, which
    with the rank's slot at the final step are the [T] positions of the
    path; and the slot at position [t] is the backpointer entry, at step
    [t + 1], of the slot at position [t + 1]. *)
Theorem traceback_follows_backpointers (ks : list Z) (all_hyp_indices : ndarray2) :
  1 <= shape1 all_hyp_indices ->
  well_formed_backpointers all_hyp_indices ->
  valid_slots all_hyp_indices ks ->
  exists res,
    _get_best_word_indices_for_kth_hypotheses ks all_hyp_indices = Ok res
    /\ shape0 res = length ks
    /\ shape1 res + 1 = shape1 all_hyp_indices
    /\ forall b k, ks !! b = Some k ->
         slot_at (shape1 all_hyp_indices) res b k (shape1 all_hyp_indices - 1) = k
         /\ forall t, t + 1 < shape1 all_hyp_indices ->
              slot_at (shape1 all_hyp_indices) res b k t
              = at2 all_hyp_indices
                    (Z.to_nat (slot_at (shape1 all_hyp_indices) res b k (t + 1)))
                    (t + 1).
Proof.
  intros HT Hwf Hks. unfold _get_best_word_indices_for_kth_hypotheses.
  case_decide; [lia|].
  set (T := shape1 all_hyp_indices) in *.
  assert (Hcol : take_column all_hyp_indices ks (-1)
                 = Ok ((fun r => at2 all_hyp_indices (Z.to_nat r) (T - 1)) <$> ks)).
  { unfold take_column. rewrite np_index_last by lia. cbn.
    apply mapR_Ok_fmap. eapply Forall_impl; [exact Hks|].
    intros r Hr. cbn in *. by rewrite np_index_valid. }
  rewrite Hcol. cbn.
  destruct (traceback_loop all_hyp_indices (T - 1) Hwf ltac:(lia)
              (np_zeros (length ks) (T - 1))
              ((fun r => at2 all_hyp_indices (Z.to_nat r) (T - 1)) <$> ks))
    as (res & pointer' & Hf & Hs0 & Hs1 & _ & Hlast & Hlink).
  { apply take_column_valid_slots; [done|lia|done]. }
  rewrite Hf. cbn. exists res. split; [done|]. split; [done|].
  split; [rewrite Hs1; cbn; lia|].
  intros b k Hb. unfold slot_at. split; [by case_decide|].
  intros t Ht. case_decide; [lia|].
  case_decide as Hlast_step.
  - replace (t + 1) with (T - 1) by lia. replace t with (T - 1 - 1) by lia.
    apply Hlast; [lia|]. by rewrite list_lookup_fmap, Hb.
  - apply Hlink; [|lia]. rewrite length_fmap. by eapply lookup_lt_Some.
Qed.

Lemma traceback_follows_backpointers_witness :
  1 <= shape1 sample_hyp_indices
  /\ exists res,
    _get_best_word_indices_for_kth_hypotheses [1%Z] sample_hyp_indices = Ok res
    /\ shape0 res = 1
    /\ shape1 res + 1 = 3
    /\ forall b k, [1%Z] !! b = Some k ->
         slot_at 3 res b k 2 = k
         /\ forall t, t + 1 < 3 ->
              slot_at 3 res b k t
              = at2 sample_hyp_indices (Z.to_nat (slot_at 3 res b k (t + 1))) (t + 1).
Proof.
  assert (H1 : 1 <= shape1 sample_hyp_indices) by (cbn; lia).
  split; [exact H1|].
  apply (traceback_follows_backpointers [1%Z] sample_hyp_indices H1).
  - intros [|[|i]] [|[|[|j]]] Hi Hj; cbn in *; lia.
  - repeat constructor; cbn; lia.
Defined.

(** ** Sorting and grouping *)

Section py_sorted.
Context {A : Type} (le : A -> A -> bool).

Lemma sorted_insert_Permutation x l : sorted_insert le x l ≡ₚ x :: l.
Proof.
  induction l as [|y l IH]; [done|]. cbn. destruct (le x y); [done|].
  rewrite IH. apply Permutation_swap.
Qed.

Lemma py_sorted_Permutation l : py_sorted le l ≡ₚ l.
Proof.
  induction l as [|x l IH]; [done|]. cbn.
  by rewrite sorted_insert_Permutation, IH.
Qed.

Lemma py_sorted_length l : length (py_sorted le l) = length l.
Proof. by rewrite py_sorted_Permutation. Qed.

Hypothesis le_total : forall x y, le x y = true \/ le y x = true.
Hypothesis le_trans : forall x y z, le x y = true -> le y z = true -> le x z = true.

Lemma sorted_insert_StronglySorted x l :
  StronglySorted (fun a b => le a b = true) l ->
  StronglySorted (fun a b => le a b = true) (sorted_insert le x l).
Proof using le_total le_trans.
  induction 1 as [|y l Hl IH Hy]; cbn.
  - repeat constructor.
  - destruct (le x y) eqn:Hxy.
    + constructor; [by constructor|]. constructor; [done|].
      eapply Forall_impl; [exact Hy|]. intros z Hz. by eapply le_trans.
    + constructor; [done|].
      rewrite sorted_insert_Permutation. constructor; [|done].
      destruct (le_total x y); congruence.
Qed.

Lemma py_sorted_StronglySorted l :
  StronglySorted (fun a b => le a b = true) (py_sorted le l).
Proof using le_total le_trans.
  induction l as [|x l IH]; cbn; [constructor|]. by apply sorted_insert_StronglySorted.
Qed.

End py_sorted.

Section groupby.
Context {A : Type} (key : A -> nat).

Lemma fiber_nil_iff i l : fiber key i l = [] <-> forall x, x ∈ l -> key x <> i.
Proof.
  unfold fiber. split.
  - intros Hf x Hx Hk. exact (filter_nil_not_elem_of _ l x Hf Hk Hx).
  - intros Hn. induction l as [|y l IH]; [done|].
    rewrite filter_cons_False; [|apply Hn; by left].
    apply IH. intros x Hx. apply Hn. by right.
Qed.

(** On a list sorted by key whose keys are those of [s, s + n), [groupby]
    yields one group per key, in order: the fiber of that key. *)
Lemma groupby_sorted_from l s n :
  StronglySorted (fun x y => key x <= key y) l ->
  (forall i, s <= i < s + n <-> exists x, x ∈ l /\ key x = i) ->
  groupby key l = (fun i => (i, fiber key i l)) <$> seq s n.
Proof.
  intros Hs. revert s n. induction Hs as [|x l Hl IH Hx]; intros s n Hkeys.
  - destruct n as [|n]; [done|].
    destruct (proj1 (Hkeys s) ltac:(lia)) as (x & Hx & _). by apply elem_of_nil in Hx.
  - assert (Hmin : key x = s).
    { destruct (proj2 (Hkeys (key x))) as [Hlo Hhi]; [exists x; split; [by left|done]|].
      destruct n as [|n]; [lia|].
      destruct (proj1 (Hkeys s) ltac:(lia)) as (y & Hy & Hys).
      apply elem_of_cons in Hy as [->|Hy]; [done|].
      rewrite Forall_forall in Hx. specialize (Hx y Hy). lia. }
    assert (Hn : 0 < n).
    { destruct (proj2 (Hkeys (key x))); [exists x; split; [by left|done]|lia]. }
    destruct n as [|n]; [lia|]. cbn [seq fmap list_fmap].
    unfold fiber at 1. rewrite filter_cons_True by done. fold (fiber key s l).
    assert (Hrest : (fun i => (i, fiber key i (x :: l))) <$> seq (S s) n
                    = (fun i => (i, fiber key i l)) <$> seq (S s) n).
    { apply list_fmap_ext. intros j i Hi. apply lookup_seq in Hi as [-> _].
      unfold fiber. rewrite filter_cons_False by lia. done. }
    rewrite Hrest. cbn [groupby].
    destruct (decide (fiber key s l = [])) as [Hnone|Hsome].
    + (* [x] is the only element under its key *)
      rewrite fiber_nil_iff in Hnone.
      rewrite (IH (S s) n).
      2:{ intros i. split.
          - intros Hi. destruct (proj1 (Hkeys i) ltac:(lia)) as (y & Hy & Hyi).
            apply elem_of_cons in Hy as [->|Hy]; [lia|]. by exists y.
          - intros (y & Hy & Hyi).
            destruct (proj2 (Hkeys i)); [exists y; split; [by right|done]|].
            specialize (Hnone y Hy). lia. }
      rewrite (proj2 (fiber_nil_iff s l)) by done.
      destruct n as [|n]; cbn [seq fmap list_fmap]; [by rewrite Hmin|].
      case_decide; [lia|]. by rewrite Hmin.
    + (* the key of [x] goes on in [l] *)
      rewrite (IH s (S n)).
      2:{ intros i. split.
          - intros Hi. destruct (decide (i = s)) as [->|Hne].
            + destruct (fiber key s l) as [|y f] eqn:Hf; [done|].
              assert (Hy : y ∈ filter (fun z => key z = s) l).
              { unfold fiber in Hf. rewrite Hf. by left. }
              apply list_elem_of_filter in Hy as [Hys Hy]. by exists y.
            + destruct (proj1 (Hkeys i) Hi) as (y & Hy & Hyi).
              apply elem_of_cons in Hy as [->|Hy]; [lia|]. by exists y.
          - intros (y & Hy & Hyi). apply Hkeys. exists y. split; [by right|done]. }
      cbn [seq fmap list_fmap]. case_decide; [done|lia].
Qed.

Lemma groupby_sorted l n :
  StronglySorted (fun x y => key x <= key y) l ->
  (forall x, x ∈ l -> key x < n) ->
  (forall i, i < n -> exists x, x ∈ l /\ key x = i) ->
  groupby key l = (fun i => (i, fiber key i l)) <$> seq 0 n.
Proof.
  intros Hs Hlt Hall. apply groupby_sorted_from; [done|].
  intros i. split.
  - intros Hi. apply Hall. lia.
  - intros (x & Hx & <-). specialize (Hlt x Hx). lia.
Qed.

End groupby.



(** ** Splitting the inputs of [translate] *)

Lemma enumerate_snoc {A} (l : list A) x :
  enumerate (l ++ [x]) = enumerate l ++ [(length l, x)].
Proof.
  unfold enumerate. rewrite length_app. cbn. rewrite seq_app. cbn.
  rewrite zip_with_app by (by rewrite length_seq). done.
Qed.

Lemma length_enumerate {A} (l : list A) : length (enumerate l) = length l.
Proof. unfold enumerate. rewrite length_zip_with, length_seq. lia. Qed.

Lemma fiber_app {A} (key : A -> nat) i (l1 l2 : list A) :
  fiber key i (l1 ++ l2) = fiber key i l1 ++ fiber key i l2.
Proof. apply filter_app. Qed.

Lemma fiber_all {A} (key : A -> nat) i (l : list A) :
  (forall x, x ∈ l -> key x = i) -> fiber key i l = l.
Proof.
  intros Hl. unfold fiber. induction l as [|x l IH]; [done|].
  rewrite filter_cons_True by (apply Hl; by left).
  f_equal. apply IH. intros y Hy. apply Hl. by right.
Qed.

(** Filing a list made of one stretch per index, each stretch holding only
    elements of that index, gives back the stretch. *)
Lemma fiber_concat_enumerate {A X} (key : A -> nat) (g : nat -> X -> list A)
  (l : list X) (i : nat) :
  (forall j x a, a ∈ g j x -> key a = j) ->
  fiber key i (concat ((fun '(j, x) => g j x) <$> enumerate l))
  = match l !! i with Some x => g i x | None => [] end.
Proof.
  intros Hg. induction l as [|x l IH] using rev_ind; [done|].
  rewrite enumerate_snoc, fmap_app, concat_app, fiber_app, IH. cbn.
  rewrite app_nil_r.
  destruct (decide (i = length l)) as [->|Hne].
  - rewrite lookup_ge_None_2 by lia. rewrite list_lookup_middle by done. cbn.
    apply fiber_all. intros a Ha. by eapply Hg.
  - rewrite (proj2 (fiber_nil_iff key i (g (length l) x))).
    2:{ intros a Ha Hk. apply Hg in Ha. lia. }
    rewrite app_nil_r. destruct (decide (i < length l)).
    + by rewrite lookup_app_l.
    + rewrite !lookup_ge_None_2; [done|rewrite length_app; cbn; lia|lia].
Qed.

Section translate.
Context (self : Translator).

Lemma split_input_Ok i trans_input :
  split_input self i trans_input = Ok (input_parts self i trans_input).
Proof.
  unfold input_parts, split_input.
  destruct (is_bad trans_input); [done|].
  repeat (case_decide; [done|]). case_decide; [|done].
  rewrite chunks_Ok by lia. done.
Qed.

Lemma input_parts_skipped i trans_input :
  skipped_input self trans_input -> input_parts self i trans_input = ([skipped self i], []).
Proof.
  intros Hs. unfold input_parts, split_input.
  destruct (is_bad trans_input) eqn:Hbad; [done|].
  case_decide as Htok; [done|]. case_decide as Hmax; [done|].
  destruct Hs as [?|[Hs|?]]; [congruence| |lia]. by rewrite Hs in Htok.
Qed.

Lemma input_parts_chunked i trans_input :
  ~ skipped_input self trans_input ->
  exists ics, input_parts self i trans_input = ([], ics) /\ ics <> []
    /\ iti_key <$> ics = (fun c => (i, c)) <$> seq 0 (length ics)
    /\ forall c ci, ics !! c = Some ci ->
         target_prefix_tokens (IndexedTranslatorInput.translator_input ci)
         = if decide (c = 0 \/ truthy (use_target_prefix_all_chunks trans_input) = true)
           then target_prefix_tokens trans_input else None.
Proof.
  intros Hs. unfold input_parts, split_input, skipped_input in *.
  destruct (is_bad trans_input) eqn:Hbad; [tauto|].
  case_decide as Htok; [destruct (tokens trans_input); [tauto|done]|].
  case_decide as Hmax; [tauto|].
  set (L := (max_input_length self - Z.of_nat (num_source_prefix_tokens trans_input))%Z) in *.
  case_decide as Hover.
  - destruct (chunks trans_input (Z.to_nat L)) as [cs|e] eqn:Hcs.
    2:{ rewrite chunks_Ok in Hcs by lia. done. }
    cbn. eexists. split; [done|].
    assert (Hlen : length cs = range_len 0 (length (tokens trans_input)) (Z.to_nat L)).
    { rewrite chunks_Ok in Hcs by lia. injection Hcs as <-.
      rewrite length_fmap, length_enumerate. unfold py_range.
      by rewrite length_fmap, length_seq. }
    split; [|split].
    + intros Hnil. apply fmap_nil_inv in Hnil.
      apply (f_equal length) in Hnil. rewrite length_enumerate, length_fmap, Hlen in Hnil.
      pose proof (range_len_covers (length (tokens trans_input)) (Z.to_nat L)
                    ltac:(lia)) as Hc.
      rewrite Hnil in Hc. cbn in Hc. lia.
    + rewrite <- list_fmap_compose, length_fmap, length_enumerate.
      rewrite <- (fst_enumerate (with_eos (EOS_SYMBOL (C self)) <$> cs)).
      rewrite <- list_fmap_compose. apply list_fmap_ext. by intros k [c ch] _.
    + intros c ci Hc. rewrite list_lookup_fmap in Hc.
      destruct (enumerate _ !! c) as [[c' ch]|] eqn:He; [|done]. injection Hc as <-.
      assert (c' = c) as ->.
      { apply (f_equal (fmap fst)) in He.
        rewrite <- list_lookup_fmap, fst_enumerate in He.
        cbn in He. apply lookup_seq in He. lia. }
      apply list_elem_of_lookup_2, elem_of_enumerate in He.
      rewrite list_lookup_fmap in He.
      destruct (cs !! c) as [ch'|] eqn:Hch; [|done]. injection He as <-. cbn.
      rewrite (chunks_target_prefix_tokens _ _ _ _ _ Hcs Hch).
      destruct (truthy _); repeat case_decide; try done;
        exfalso; intuition (lia || congruence).
  - cbn. eexists. split; [done|]. split; [done|]. split; [done|].
    intros [|c] ci Hc; [|done]. injection Hc as <-. cbn.
    case_decide; [done|]. naive_solver.
Qed.

Lemma input_parts_idx i trans_input :
  (forall tc, tc ∈ (input_parts self i trans_input).1 -> input_idx tc = i)
  /\ (forall ci, ci ∈ (input_parts self i trans_input).2 ->
                  IndexedTranslatorInput.input_idx ci = i).
Proof.
  destruct (decide (skipped_input self trans_input)) as [Hs|Hs].
  - rewrite input_parts_skipped by done. cbn. split.
    + intros tc ->%list_elem_of_singleton. done.
    + intros ci Hci. by apply elem_of_nil in Hci.
  - destruct (input_parts_chunked i trans_input Hs) as (ics & -> & _ & Hkeys & _).
    cbn. split.
    + intros tc Htc. by apply elem_of_nil in Htc.
    + intros ci [c Hc]%list_elem_of_lookup.
      apply (f_equal (fun l => l !! c)) in Hkeys.
      rewrite !list_lookup_fmap, Hc in Hkeys. cbn in Hkeys.
      destruct (seq 0 (length ics) !! c); [|done]. by injection Hkeys as -> _.
Qed.

(** The first loop of [translate] never raises: it lists what each input
    adds, in input order. *)
Lemma split_inputs_Ok trans_inputs :
  split_inputs self trans_inputs
  = Ok (concat ((fun '(i, x) => (input_parts self i x).1) <$> enumerate trans_inputs),
        concat ((fun '(i, x) => (input_parts self i x).2) <$> enumerate trans_inputs)).
Proof.
  unfold split_inputs.
  enough (Hgen : forall (l : list (nat * TranslatorInput)) st,
             foldR (fun st '(trans_input_idx, trans_input) =>
                      '(tc, ic) ← split_input self trans_input_idx trans_input;
                      Ok (st.1 ++ tc, st.2 ++ ic)) st l
             = Ok (st.1 ++ concat ((fun '(i, x) => (input_parts self i x).1) <$> l),
                   st.2 ++ concat ((fun '(i, x) => (input_parts self i x).2) <$> l))).
  { by rewrite Hgen. }
  induction l as [|[i x] l IH]; intros [tc ic]; cbn.
  - by rewrite !app_nil_r.
  - rewrite split_input_Ok. cbn. destruct (input_parts self i x) as [tc' ic'].
    cbn. rewrite IH. cbn. by rewrite !app_assoc.
Qed.

End translate.

(** ** Batching *)

Lemma range_len_lt stop step k :
  k < range_len 0 stop step -> 0 < step /\ k * step < stop.
Proof.
  unfold range_len. rewrite Nat.sub_0_r. intros Hk.
  destruct step as [|step]; [cbn in Hk; lia|]. split; [lia|].
  assert (Hq : (k + 1) * S step <= stop + (S step - 1)).
  { etransitivity; [|apply (Nat.Div0.mul_div_le _ (S step))].
    rewrite (Nat.mul_comm (S step)). apply Nat.mul_le_mono_r. lia. }
  lia.
Qed.

Lemma grouper_concat {A} (l : list A) n : 0 < n -> concat (grouper l n) = l.
Proof. intros Hn. unfold grouper. by apply concat_range_slices. Qed.

Lemma grouper_nil {A} n : grouper (@nil A) n = [].
Proof.
  unfold grouper, py_range, range_len. cbn.
  destruct n as [|n]; [done|]. rewrite Nat.div_small by lia. done.
Qed.

Lemma grouper_Forall {A} (l : list A) n :
  Forall (fun b => b <> [] /\ length b <= n) (grouper l n).
Proof.
  unfold grouper, py_range. rewrite <- list_fmap_compose.
  apply Forall_fmap, Forall_forall. intros k Hk. cbn.
  apply elem_of_seq in Hk as [_ Hk]. cbn in Hk.
  apply range_len_lt in Hk as [Hn Hk]. split.
  - intros Hnil. apply (f_equal length) in Hnil. unfold slice in Hnil.
    rewrite length_take, length_drop in Hnil. cbn in Hnil.
    set (m := k * n) in *. clearbody m. lia.
  - pose proof (slice_length l (k * n) (k * n + n)) as Hs.
    unfold slice in Hs. lia.
Qed.

Section batching.
Context (self : Translator).

Lemma translate_batch_size_pos fill_up_batches (input_chunks : list IndexedTranslatorInput.t) :
  1 <= batch_size self -> input_chunks <> [] ->
  0 < translate_batch_size self fill_up_batches input_chunks.
Proof.
  intros Hbs Hne. unfold translate_batch_size, max_batch_size, py_min.
  destruct fill_up_batches; [lia|]. destruct input_chunks; [done|].
  cbn. case_decide; lia.
Qed.

(** With a batch size of at least one, the batches are the sorted chunks cut
    into consecutive groups: nothing lost, nothing twice. *)
Lemma batches_concat fill_up_batches input_chunks :
  1 <= batch_size self ->
  concat (batches self fill_up_batches input_chunks) = py_sorted longer_first input_chunks.
Proof.
  intros Hbs. unfold batches.
  destruct (py_sorted longer_first input_chunks) as [|c l] eqn:Hl.
  - by rewrite grouper_nil.
  - apply grouper_concat. by apply translate_batch_size_pos.
Qed.

Lemma batches_Forall fill_up_batches input_chunks :
  Forall (fun b => b <> []
                   /\ length b <= translate_batch_size self fill_up_batches
                                    (py_sorted longer_first input_chunks))
         (batches self fill_up_batches input_chunks).
Proof. apply grouper_Forall. Qed.

(** The contract of the search: one translation per input of the batch, in
    order, each related to its input by [P]. *)
Context (P : TranslatorInput -> Translation -> Prop).

Lemma zip_with_translates batch outs :
  Forall2 (fun ci o => P (IndexedTranslatorInput.translator_input ci) o) batch outs ->
  Forall2 (translates P) batch
    (zip_with (fun chunk t =>
                 {| input_idx := IndexedTranslatorInput.input_idx chunk;
                    chunk_idx := IndexedTranslatorInput.chunk_idx chunk;
                    translation := t |}) batch outs).
Proof. induction 1; cbn; constructor; [by repeat split|done]. Qed.

Lemma zip_with_app_short {A B C'} (f : A -> B -> C') l1 l2 k :
  length k = length l1 -> zip_with f (l1 ++ l2) k = zip_with f l1 k.
Proof.
  revert k. induction l1 as [|x l1 IH]; intros [|y k] Hk; try done.
  - by destruct l2.
  - cbn. f_equal. apply IH. by injection Hk.
Qed.

Lemma translate_inputs_Ok translator_inputs :
  translator_inputs <> [] ->
  translate_inputs self translator_inputs
  = _translate_np self
      (batch_restrict_lexicon (self_restrict_lexicon self) translator_inputs).1
      translator_inputs.
Proof. by destruct translator_inputs. Qed.

(** One batch, filled up or not: under the contract of the search the loop
    body returns exactly one translated chunk per chunk of the batch as
    [grouper] gave it, none for the copies that fill it up. *)
Lemma translate_batch_Ok fill_up_batches bs batch :
  scorer_contract self P -> batch <> [] -> length batch <= bs ->
  exists tcs, translate_batch self fill_up_batches bs batch = Ok tcs
              /\ Forall2 (translates P) batch tcs.
Proof.
  intros HP Hne Hlen. unfold translate_batch, padded_batch.
  destruct batch as [|b0 batch']; [done|]. set (batch := b0 :: batch') in *.
  destruct (fill_up_batches && bool_decide (0 < bs - length batch)) eqn:Hfill.
  - cbn [head batch]. cbn [mbind result_bind].
    set (inputs := IndexedTranslatorInput.translator_input
                     <$> batch ++ replicate (bs - length batch) b0).
    assert (Hin : inputs <> []) by done.
    rewrite translate_inputs_Ok by done.
    destruct (HP (batch_restrict_lexicon (self_restrict_lexicon self) inputs).1
                 inputs Hin) as (outs & -> & Hout).
    cbn [mbind result_bind].
    unfold inputs in Hout. rewrite fmap_app in Hout.
    apply Forall2_app_inv_l in Hout as (o1 & o2 & Ho1 & Ho2 & Hoeq).
    rewrite Hoeq. eexists. split; [done|].
    rewrite Forall2_fmap_l in Ho1.
    pose proof (Forall2_length _ _ _ Ho1) as Hl1.
    pose proof (Forall2_length _ _ _ Ho2) as Hl2.
    rewrite length_fmap, length_replicate in Hl2.
    replace (length (o1 ++ o2) - (bs - length batch)) with (length o1)
      by (rewrite length_app; lia).
    rewrite take_app_length, zip_with_app_short by lia.
    by apply zip_with_translates.
  - cbn [mbind result_bind].
    set (inputs := IndexedTranslatorInput.translator_input <$> batch).
    assert (Hin : inputs <> []) by done.
    rewrite translate_inputs_Ok by done.
    destruct (HP (batch_restrict_lexicon (self_restrict_lexicon self) inputs).1
                 inputs Hin) as (outs & -> & Hout).
    cbn [mbind result_bind].
    eexists. split; [done|].
    apply zip_with_translates. unfold inputs in Hout.
    by rewrite Forall2_fmap_l in Hout.
Qed.

Lemma Forall2_concat {A B} (R : A -> B -> Prop) ls ks :
  Forall2 (Forall2 R) ls ks -> Forall2 R (concat ls) (concat ks).
Proof. induction 1; cbn; [constructor|by apply Forall2_app]. Qed.

Lemma mapR_Forall2 {A B} (f : A -> result B) (R : A -> B -> Prop) (l : list A) :
  Forall (fun x => exists y, f x = Ok y /\ R x y) l ->
  exists ys, mapR f l = Ok ys /\ Forall2 R l ys.
Proof.
  induction 1 as [|x l (y & Hy & HR) _ (ys & Hys & HRs)]; cbn.
  - by exists [].
  - rewrite Hy. cbn. rewrite Hys. cbn. exists (y :: ys). split; [done|by constructor].
Qed.

(** The second loop of [translate]: every chunk comes back translated,
    the chunks in sorted order. *)
Lemma translate_batches_Ok fill_up_batches input_chunks :
  1 <= batch_size self -> scorer_contract self P ->
  exists translated,
    mapR (translate_batch self fill_up_batches
            (translate_batch_size self fill_up_batches
               (py_sorted longer_first input_chunks)))
         (batches self fill_up_batches input_chunks) = Ok translated
    /\ Forall2 (translates P) (py_sorted longer_first input_chunks) (concat translated).
Proof.
  intros Hbs HP.
  destruct (mapR_Forall2
              (translate_batch self fill_up_batches
                 (translate_batch_size self fill_up_batches
                    (py_sorted longer_first input_chunks)))
              (Forall2 (translates P))
              (batches self fill_up_batches input_chunks))
    as (translated & Hok & Hall).
  { eapply Forall_impl; [apply batches_Forall|].
    intros b [Hne Hlen]. by apply translate_batch_Ok. }
  exists translated. split; [done|].
  rewrite <- (batches_concat fill_up_batches) by done.
  by apply Forall2_concat.
Qed.

End batching.

(** ** Putting the translated chunks back in order *)

Lemma fiber_Permutation {A} (key : A -> nat) i (l k : list A) :
  l ≡ₚ k -> fiber key i l ≡ₚ fiber key i k.
Proof. intros Hp. unfold fiber. by rewrite Hp. Qed.

Lemma elem_of_fiber {A} (key : A -> nat) i (l : list A) x :
  x ∈ fiber key i l <-> key x = i /\ x ∈ l.
Proof. apply (list_elem_of_filter (fun y => key y = i)). Qed.

Lemma NoDup_fmap_eq {A B} (f : A -> B) (l : list A) x y :
  NoDup (f <$> l) -> x ∈ l -> y ∈ l -> f x = f y -> x = y.
Proof.
  intros Hnd [i Hi]%list_elem_of_lookup [j Hj]%list_elem_of_lookup Hf.
  assert (i = j) as ->.
  { eapply (NoDup_lookup _ _ _ _ Hnd); rewrite list_lookup_fmap.
    - by rewrite Hi.
    - rewrite Hj. cbn. by rewrite Hf. }
  congruence.
Qed.

(** A list has no two elements with the same pair of keys when none of its
    fibers has. *)
Lemma NoDup_by_fiber {A} (key : A -> nat) (sub : A -> nat) (l : list A) :
  (forall i, NoDup (sub <$> fiber key i l)) ->
  NoDup ((fun x => (key x, sub x)) <$> l).
Proof.
  induction l as [|x l IH]; intros Hf; [constructor|].
  cbn. constructor.
  - intros Hin. apply list_elem_of_fmap in Hin as (y & Hxy & Hy).
    injection Hxy as Hk Hs.
    specialize (Hf (key x)). unfold fiber in Hf.
    rewrite filter_cons_True in Hf by done. cbn in Hf.
    apply NoDup_cons in Hf as [Hnin _]. apply Hnin.
    rewrite Hs. apply list_elem_of_fmap_2.
    apply (list_elem_of_filter (fun z => key z = key x)). by split.
  - apply IH. intros i. specialize (Hf i). unfold fiber in *.
    rewrite filter_cons in Hf. case_decide; [|done].
    cbn in Hf. by apply NoDup_cons in Hf as [_ ?].
Qed.

(** Two lists related elementwise, each put in the order of its keys: when
    related elements have the same key and the keys are distinct, the two
    sorted lists are related elementwise too. *)
Lemma Forall2_sorted_Permutation {A B} (ka : A -> nat) (kb : B -> nat)
  (R : A -> B -> Prop) cs' :
  (forall a b, R a b -> ka a = kb b) ->
  forall cs ts ts',
  Forall2 R cs ts -> cs' ≡ₚ cs -> ts' ≡ₚ ts ->
  StronglySorted (fun x y => ka x <= ka y) cs' ->
  StronglySorted (fun x y => kb x <= kb y) ts' ->
  NoDup (kb <$> ts') ->
  Forall2 R cs' ts'.
Proof.
  intros HR. induction cs' as [|c cs'' IH]; intros cs ts ts' HF Hcs Hts Hsc Hst Hnd.
  - symmetry in Hcs. apply Permutation_nil_r in Hcs as ->.
    apply Forall2_nil_inv_l in HF as ->.
    apply Permutation_nil_r in Hts as ->. constructor.
  - assert (Hc : c ∈ cs) by (rewrite <- Hcs; by left).
    apply list_elem_of_lookup in Hc as [p Hp].
    destruct (Forall2_lookup_l _ _ _ _ _ HF Hp) as (t & Htp & Hct).
    assert (Ht : t ∈ ts') by (rewrite Hts; by eapply list_elem_of_lookup_2).
    destruct ts' as [|t0 ts'']; [by apply elem_of_nil in Ht|].
    assert (t0 = t) as ->.
    { eapply (NoDup_fmap_eq kb _ _ _ Hnd); [by left|done|].
      assert (Ht0 : t0 ∈ ts) by (rewrite <- Hts; by left).
      apply list_elem_of_lookup in Ht0 as [q Hq].
      destruct (Forall2_lookup_r _ _ _ _ _ HF Hq) as (c0 & Hcq & Hc0).
      assert (Hc0in : c0 ∈ c :: cs'') by (rewrite Hcs; by eapply list_elem_of_lookup_2).
      apply StronglySorted_inv in Hsc as [_ Hcmin].
      apply StronglySorted_inv in Hst as [_ Htmin].
      rewrite Forall_forall in Hcmin. rewrite Forall_forall in Htmin.
      pose proof (HR _ _ Hct). pose proof (HR _ _ Hc0).
      assert (ka c <= ka c0).
      { apply elem_of_cons in Hc0in as [->|Hin]; [done|]. by apply Hcmin. }
      assert (kb t0 <= kb t).
      { apply elem_of_cons in Ht as [->|Hin]; [done|]. by apply Htmin. }
      lia. }
    constructor; [done|].
    apply (IH (delete p cs) (delete p ts)).
    + by apply Forall2_delete.
    + apply (Permutation_cons_inv (a := c)). rewrite Hcs. by apply delete_Permutation.
    + apply (Permutation_cons_inv (a := t)). rewrite Hts. by apply delete_Permutation.
    + by apply StronglySorted_inv in Hsc as [? _].
    + by apply StronglySorted_inv in Hst as [? _].
    + cbn in Hnd. by apply NoDup_cons in Hnd as [_ ?].
Qed.

Lemma StronglySorted_impl {A} (R R' : relation A) l :
  (forall x y, R x y -> R' x y) -> StronglySorted R l -> StronglySorted R' l.
Proof.
  intros HR. induction 1 as [|x l _ IH Hx]; constructor; [done|].
  eapply Forall_impl; [exact Hx|]. intros y. apply HR.
Qed.

Lemma StronglySorted_filter_impl {A} (R R' : relation A) (Q : A -> Prop)
  `{!forall x, Decision (Q x)} l :
  (forall x y, Q x -> Q y -> R x y -> R' x y) ->
  StronglySorted R l -> StronglySorted R' (filter Q l).
Proof.
  intros HR. induction 1 as [|x l _ IH Hx].
  - constructor.
  - rewrite filter_cons. case_decide as Hq; [|done]. constructor; [done|].
    apply Forall_forall. intros y [Hy Hin]%list_elem_of_filter.
    rewrite Forall_forall in Hx. by apply HR, Hx.
Qed.

Lemma StronglySorted_fmap_inv {A B} (f : A -> B) (R : relation B) (l : list A) :
  StronglySorted R (f <$> l) -> StronglySorted (fun x y => R (f x) (f y)) l.
Proof.
  induction l as [|x l IH]; cbn; intros Hs; [constructor|].
  apply StronglySorted_inv in Hs as [Hs Hx]. constructor; [by apply IH|].
  rewrite Forall_fmap in Hx. exact Hx.
Qed.

Lemma StronglySorted_seq s n : StronglySorted le (seq s n).
Proof.
  revert s. induction n as [|n IH]; intros s; cbn; constructor; [apply IH|].
  apply Forall_forall. intros y Hy%elem_of_seq. lia.
Qed.

Lemma zip_fmap_seq {A B} (l : list A) (f : nat -> B) :
  zip l (f <$> seq 0 (length l)) = (fun '(i, x) => (x, f i)) <$> enumerate l.
Proof.
  unfold enumerate. generalize 0 as s.
  induction l as [|x l IH]; intros s; [done|]. cbn. f_equal. apply IH.
Qed.

Lemma mapR_fmap {A B C'} (f : B -> result C') (h : A -> B) (l : list A) :
  mapR f (h <$> l) = mapR (fun x => f (h x)) l.
Proof. induction l as [|x l IH]; [done|]. cbn. by rewrite IH. Qed.

Lemma mapR_ext {A B} (f g : A -> result B) (l : list A) :
  (forall x, f x = g x) -> mapR f l = mapR g l.
Proof. intros Hfg. induction l as [|x l IH]; [done|]. cbn. by rewrite Hfg, IH. Qed.

Lemma it_le_total x y : it_le x y = true \/ it_le y x = true.
Proof.
  unfold it_le. destruct (decide (input_idx x < input_idx y
      \/ (input_idx x = input_idx y /\ chunk_idx x <= chunk_idx y))) as [H|H].
  - left. by apply bool_decide_eq_true.
  - right. apply bool_decide_eq_true. lia.
Qed.

Lemma it_le_trans x y z : it_le x y = true -> it_le y z = true -> it_le x z = true.
Proof. unfold it_le. rewrite !bool_decide_eq_true. lia. Qed.

Section pipeline.
Context (self : Translator) (P : TranslatorInput -> Translation -> Prop).
Context (trans_inputs : list TranslatorInput).

Lemma translated_fiber translated i :
  Forall2 (translates P) (py_sorted longer_first (input_chunks_of self trans_inputs)) (concat translated) ->
  fiber_spec self P trans_inputs i (fiber input_idx i (bad_empty_of self trans_inputs ++ concat translated)).
Proof.
  intros HF. rewrite fiber_app. unfold bad_empty_of.
  rewrite (fiber_concat_enumerate input_idx (fun j x => (input_parts self j x).1))
    by (intros j x a; apply input_parts_idx).
  assert (Hcs : fiber IndexedTranslatorInput.input_idx i
                  (py_sorted longer_first (input_chunks_of self trans_inputs))
                ≡ₚ match trans_inputs !! i with
                   | Some x => (input_parts self i x).2
                   | None => []
                   end).
  { rewrite (fiber_Permutation _ _ _ _ (py_sorted_Permutation _ _)).
    unfold input_chunks_of.
    rewrite (fiber_concat_enumerate IndexedTranslatorInput.input_idx
               (fun j x => (input_parts self j x).2))
      by (intros j x a; apply input_parts_idx).
    done. }
  assert (HFi : Forall2 (translates P)
                  (fiber IndexedTranslatorInput.input_idx i
                     (py_sorted longer_first (input_chunks_of self trans_inputs)))
                  (fiber input_idx i (concat translated))).
  { unfold fiber. apply Forall2_filter; [|done].
    intros ci tc (Hi & _ & _). by rewrite Hi. }
  unfold fiber_spec. destruct (trans_inputs !! i) as [x|].
  - case_decide as Hs.
    + rewrite input_parts_skipped in Hcs |- * by done. cbn in *.
      apply Permutation_nil_r in Hcs. rewrite Hcs in HFi.
      by apply Forall2_nil_inv_l in HFi as ->.
    + destruct (input_parts_chunked self i x Hs) as (ics & Hparts & Hne & _).
      rewrite Hparts in Hcs |- *. cbn in *.
      eexists ics, _. split; [done|]. split; [done|]. split; [exact Hcs|exact HFi].
  - apply Permutation_nil_r in Hcs. rewrite Hcs in HFi.
    by apply Forall2_nil_inv_l in HFi as ->.
Qed.

Lemma translates_chunk_idx cs f :
  Forall2 (translates P) cs f ->
  chunk_idx <$> f = IndexedTranslatorInput.chunk_idx <$> cs.
Proof. induction 1 as [|c t cs f (_ & Hc & _) _ IH]; cbn; [done|]. by rewrite Hc, IH. Qed.

Lemma input_parts_chunk_idx i x ics :
  ~ skipped_input self x -> input_parts self i x = ([], ics) ->
  IndexedTranslatorInput.chunk_idx <$> ics = seq 0 (length ics).
Proof.
  intros Hs Hparts.
  destruct (input_parts_chunked self i x Hs) as (ics' & Hparts' & _ & Hkeys & _).
  rewrite Hparts in Hparts'. injection Hparts' as <-.
  apply (f_equal (fmap snd)) in Hkeys. rewrite <- !list_fmap_compose in Hkeys.
  etransitivity; [exact Hkeys|]. apply list_fmap_id.
Qed.

Lemma fiber_spec_NoDup i f : fiber_spec self P trans_inputs i f -> NoDup (chunk_idx <$> f).
Proof.
  unfold fiber_spec. destruct (trans_inputs !! i) as [x|]; [|by intros ->; constructor].
  case_decide as Hs; [intros ->; apply NoDup_singleton|].
  intros (ics & cs & Hparts & _ & Hcs & HF).
  rewrite (translates_chunk_idx _ _ HF), Hcs.
  rewrite (input_parts_chunk_idx _ _ _ Hs Hparts). apply NoDup_seq.
Qed.

(** The translated chunks, sorted: under each input index, what
    [group_spec] says. *)
Lemma sorted_group translated i :
  Forall2 (translates P) (py_sorted longer_first (input_chunks_of self trans_inputs)) (concat translated) ->
  group_spec self P trans_inputs i (fiber input_idx i (py_sorted it_le (bad_empty_of self trans_inputs ++ concat translated))).
Proof.
  intros HF. pose proof (translated_fiber translated i HF) as Hf.
  pose proof (fiber_spec_NoDup i _ Hf) as Hnd.
  set (TC := bad_empty_of self trans_inputs ++ concat translated) in *.
  assert (Hperm : fiber input_idx i (py_sorted it_le TC) ≡ₚ fiber input_idx i TC)
    by apply fiber_Permutation, py_sorted_Permutation.
  unfold group_spec, fiber_spec in *. destruct (trans_inputs !! i) as [x|].
  - case_decide as Hs.
    + rewrite Hf in Hperm. by apply Permutation_singleton_r in Hperm.
    + destruct Hf as (ics & cs & Hparts & Hne & Hcs & HFcs).
      exists ics. split; [done|]. split; [done|].
      apply (Forall2_sorted_Permutation IndexedTranslatorInput.chunk_idx chunk_idx
               (translates P) ics (fun a b H => eq_sym (proj1 (proj2 H)))
               cs (fiber input_idx i TC)); [done|done|done| | |].
      * apply (StronglySorted_fmap_inv IndexedTranslatorInput.chunk_idx le).
        rewrite (input_parts_chunk_idx _ _ _ Hs Hparts). apply StronglySorted_seq.
      * unfold fiber.
        apply (StronglySorted_filter_impl (fun a b => it_le a b = true)).
        -- intros a b Ha Hb Hab. unfold it_le in Hab.
           apply bool_decide_eq_true in Hab. lia.
        -- apply py_sorted_StronglySorted; [apply it_le_total|apply it_le_trans].
      * by rewrite Hperm.
  - rewrite Hf in Hperm. by apply Permutation_nil_r in Hperm.
Qed.

(** [translate] as one pass over its inputs: under the contract of the
    search and with a batch size of at least one, the chunks sorted and
    grouped are, for each input, what [group_spec] says, and the result is
    the results of the inputs, each assembled from its own group. *)
Lemma translate_pipeline fill_up_batches :
  1 <= batch_size self -> scorer_contract self P ->
  exists groups : nat -> list IndexedTranslation,
    translate self trans_inputs fill_up_batches
    = mapR (fun '(i, x) => assemble self x (groups i)) (enumerate trans_inputs)
    /\ forall i, group_spec self P trans_inputs i (groups i).
Proof.
  intros Hbs HP. unfold translate. rewrite split_inputs_Ok. cbn [mbind result_bind].
  fold (bad_empty_of self trans_inputs) (input_chunks_of self trans_inputs).
  destruct (translate_batches_Ok self P fill_up_batches (input_chunks_of self trans_inputs) Hbs HP)
    as (translated & Hok & HF).
  rewrite Hok. cbn [mbind result_bind].
  set (TC := bad_empty_of self trans_inputs ++ concat translated).
  assert (Hnd : NoDup (it_key <$> TC)).
  { apply (NoDup_by_fiber input_idx chunk_idx). intros i.
    apply (fiber_spec_NoDup i), translated_fiber, HF. }
  unfold sorted_translated_chunks. case_decide; [|done]. cbn [mbind result_bind].
  set (sorted := py_sorted it_le TC).
  assert (Hgroups : forall i, group_spec self P trans_inputs i (fiber input_idx i sorted))
    by (intros i; by apply sorted_group).
  exists (fun i => fiber input_idx i sorted). split; [|done].
  rewrite (groupby_sorted input_idx sorted (length trans_inputs)).
  - rewrite zip_fmap_seq, mapR_fmap. apply mapR_ext. by intros [i x].
  - apply (StronglySorted_impl (fun a b => it_le a b = true)).
    + intros a b Hab. unfold it_le in Hab. apply bool_decide_eq_true in Hab. lia.
    + apply py_sorted_StronglySorted; [apply it_le_total|apply it_le_trans].
  - intros tc Htc. specialize (Hgroups (input_idx tc)). unfold group_spec in Hgroups.
    destruct (trans_inputs !! input_idx tc) as [x|] eqn:Hx.
    + by eapply lookup_lt_Some.
    + assert (Hin : tc ∈ fiber input_idx (input_idx tc) sorted)
        by (by apply elem_of_fiber).
      rewrite Hgroups in Hin. by apply elem_of_nil in Hin.
  - intros i Hi. specialize (Hgroups i). unfold group_spec in Hgroups.
    destruct (lookup_lt_is_Some_2 trans_inputs i Hi) as [x Hx]. rewrite Hx in Hgroups.
    assert (Hne : fiber input_idx i sorted <> []).
    { case_decide.
      - by rewrite Hgroups.
      - destruct Hgroups as (ics & _ & Hne & HFg). intros Hnil. rewrite Hnil in HFg.
        by apply Forall2_nil_inv_r in HFg. }
    destruct (fiber input_idx i sorted) as [|tc g] eqn:Hg; [done|].
    exists tc. apply and_comm, (elem_of_fiber input_idx i sorted).
    rewrite Hg. by left.
Qed.

(** The same with the groups named: the translated chunks of the batches,
    put after those of the inputs that are not translated, sorted, and
    filed under their input index. *)
Lemma translate_pipeline_groups fill_up_batches :
  1 <= batch_size self -> scorer_contract self P ->
  exists translated,
    mapR (translate_batch self fill_up_batches
            (translate_batch_size self fill_up_batches
               (py_sorted longer_first (input_chunks_of self trans_inputs))))
         (batches self fill_up_batches (input_chunks_of self trans_inputs)) = Ok translated
    /\ translate self trans_inputs fill_up_batches
       = mapR (fun '(i, x) =>
                 assemble self x
                   (fiber input_idx i
                      (py_sorted it_le (bad_empty_of self trans_inputs ++ concat translated))))
              (enumerate trans_inputs)
    /\ forall i, group_spec self P trans_inputs i
                   (fiber input_idx i
                      (py_sorted it_le (bad_empty_of self trans_inputs ++ concat translated))).
Proof.
  intros Hbs HP.
  destruct (translate_batches_Ok self P fill_up_batches (input_chunks_of self trans_inputs) Hbs HP)
    as (translated & Hok & HF).
  exists translated. split; [exact Hok|].
  assert (Hgroups : forall i, group_spec self P trans_inputs i
            (fiber input_idx i
               (py_sorted it_le (bad_empty_of self trans_inputs ++ concat translated))))
    by (intros i; by apply sorted_group).
  split; [|exact Hgroups].
  unfold translate. rewrite split_inputs_Ok. cbn [mbind result_bind].
  fold (bad_empty_of self trans_inputs) (input_chunks_of self trans_inputs).
  rewrite Hok. cbn [mbind result_bind].
  set (TC := bad_empty_of self trans_inputs ++ concat translated) in *.
  assert (Hnd : NoDup (it_key <$> TC)).
  { apply (NoDup_by_fiber input_idx chunk_idx). intros i.
    apply (fiber_spec_NoDup i), translated_fiber, HF. }
  unfold sorted_translated_chunks. case_decide; [|done]. cbn [mbind result_bind].
  set (sorted := py_sorted it_le TC) in *.
  rewrite (groupby_sorted input_idx sorted (length trans_inputs)).
  - rewrite zip_fmap_seq, mapR_fmap. apply mapR_ext. by intros [i x].
  - apply (StronglySorted_impl (fun a b => it_le a b = true)).
    + intros a b Hab. unfold it_le in Hab. apply bool_decide_eq_true in Hab. lia.
    + apply py_sorted_StronglySorted; [apply it_le_total|apply it_le_trans].
  - intros tc Htc. specialize (Hgroups (input_idx tc)). unfold group_spec in Hgroups.
    destruct (trans_inputs !! input_idx tc) as [x|] eqn:Hx.
    + by eapply lookup_lt_Some.
    + assert (Hin : tc ∈ fiber input_idx (input_idx tc) sorted)
        by (by apply elem_of_fiber).
      rewrite Hgroups in Hin. by apply elem_of_nil in Hin.
  - intros i Hi. specialize (Hgroups i). unfold group_spec in Hgroups.
    destruct (lookup_lt_is_Some_2 trans_inputs i Hi) as [x Hx]. rewrite Hx in Hgroups.
    assert (Hne : fiber input_idx i sorted <> []).
    { case_decide.
      - by rewrite Hgroups.
      - destruct Hgroups as (ics & _ & Hne & HFg). intros Hnil. rewrite Hnil in HFg.
        by apply Forall2_nil_inv_r in HFg. }
    destruct (fiber input_idx i sorted) as [|tc g] eqn:Hg; [done|].
    exists tc. apply and_comm, (elem_of_fiber input_idx i sorted).
    rewrite Hg. by left.
Qed.

End pipeline.

(** ** The batches of [translate] *)

Lemma grouper_full_batches {A} (l : list A) n k b :
  grouper l n !! k = Some b -> k + 1 < length (grouper l n) -> length b = n.
Proof.
  unfold grouper, py_range. rewrite <- list_fmap_compose, length_fmap, length_seq.
  intros Hk Hlt. rewrite list_lookup_fmap in Hk.
  destruct (seq 0 _ !! k) as [k'|] eqn:Hk'; [|done].
  apply lookup_seq in Hk' as [-> _]. injection Hk as <-. cbn.
  apply range_len_lt in Hlt as [Hn Hlt]. unfold slice.
  rewrite length_take, length_drop.
  set (m := k * n) in *. assert ((k + 1) * n = m + n) as Heq by (unfold m; lia).
  rewrite Heq in Hlt. clearbody m. lia.
Qed.

Lemma longer_first_total x y : longer_first x y = true \/ longer_first y x = true.
Proof.
  unfold longer_first. destruct (decide (chunk_key y <= chunk_key x)).
  - left. by apply bool_decide_eq_true.
  - right. apply bool_decide_eq_true. lia.
Qed.

Lemma longer_first_trans x y z :
  longer_first x y = true -> longer_first y z = true -> longer_first x z = true.
Proof. unfold longer_first. rewrite !bool_decide_eq_true. lia. Qed.

Lemma input_parts_fits self i x :
  fits self x ->
  input_parts self i x
  = ([], [IndexedTranslatorInput.mk i 0 (with_eos (EOS_SYMBOL (C self)) x)]).
Proof.
  intros (Hbad & Htok & Hlen). unfold input_parts, split_input. rewrite Hbad.
  case_decide as H0; [by destruct (tokens x)|].
  assert (0 < length (tokens x)) by lia.
  case_decide; [lia|]. case_decide; [lia|done].
Qed.

(** *** The search as [translate] sees it *)

Lemma mapR_ext_in {A B} (f g : A -> result B) (l : list A) :
  (forall x, x ∈ l -> f x = g x) -> mapR f l = mapR g l.
Proof.
  intros Hfg. induction l as [|x l IH]; [done|]. cbn.
  rewrite Hfg by (by left). rewrite IH; [done|]. intros y Hy. apply Hfg. by right.
Qed.

Lemma translate_batch_with_search self search fill_up_batches bs batch :
  batch_answer (with_search self search) fill_up_batches bs batch
  = batch_answer self fill_up_batches bs batch ->
  translate_batch (with_search self search) fill_up_batches bs batch
  = translate_batch self fill_up_batches bs batch.
Proof.
  unfold batch_answer, translate_batch.
  destruct (padded_batch fill_up_batches bs batch) as [batch'|e]; [|done].
  cbn [mbind result_bind]. by intros ->.
Qed.

Lemma translate_batch_Raise self fill_up_batches bs batch e :
  batch_answer self fill_up_batches bs batch = Raise e ->
  translate_batch self fill_up_batches bs batch = Raise e.
Proof.
  unfold batch_answer, translate_batch.
  destruct (padded_batch fill_up_batches bs batch) as [batch'|e'];
    cbn [mbind result_bind]; [|by intros [= ->]].
  by intros ->.
Qed.

Lemma translate_batch_returns self fill_up_batches bs batch :
  is_Ok (batch_answer self fill_up_batches bs batch) ->
  is_Ok (translate_batch self fill_up_batches bs batch).
Proof.
  unfold batch_answer, translate_batch.
  destruct (padded_batch fill_up_batches bs batch) as [batch'|e'];
    cbn [mbind result_bind]; [|by intros [? ?]].
  intros [outs ->]. by eexists.
Qed.

(** [translate] depends on the search by its answers for the batches
    only. *)
Lemma translate_with_search self search trans_inputs fill_up_batches :
  (forall batch,
     batch ∈ batches self fill_up_batches (input_chunks_of self trans_inputs) ->
     batch_answer (with_search self search) fill_up_batches
       (translate_batch_size self fill_up_batches
          (py_sorted longer_first (input_chunks_of self trans_inputs))) batch
     = batch_answer self fill_up_batches
         (translate_batch_size self fill_up_batches
            (py_sorted longer_first (input_chunks_of self trans_inputs))) batch) ->
  translate (with_search self search) trans_inputs fill_up_batches
  = translate self trans_inputs fill_up_batches.
Proof.
  intros Hsame. unfold translate.
  change (split_inputs (with_search self search) trans_inputs)
    with (split_inputs self trans_inputs).
  rewrite split_inputs_Ok. cbn [mbind result_bind].
  fold (input_chunks_of self trans_inputs).
  set (chunks := input_chunks_of self trans_inputs) in *.
  change (batches (with_search self search) fill_up_batches chunks)
    with (batches self fill_up_batches chunks).
  change (translate_batch_size (with_search self search) fill_up_batches
            (py_sorted longer_first chunks))
    with (translate_batch_size self fill_up_batches (py_sorted longer_first chunks)).
  rewrite (mapR_ext_in _
             (translate_batch self fill_up_batches
                (translate_batch_size self fill_up_batches
                   (py_sorted longer_first chunks)))).
  - reflexivity.
  - intros batch Hin. by apply translate_batch_with_search, Hsame.
Qed.

(** The batches are translated in order: the first batch the search fails
    on ends the call. *)
Lemma mapR_first_Raise {A B} (f : A -> result B) (l : list A) k x e :
  l !! k = Some x -> f x = Raise e ->
  (forall k' y, k' < k -> l !! k' = Some y -> is_Ok (f y)) ->
  mapR f l = Raise e.
Proof.
  revert k. induction l as [|z l IH]; intros k Hk Hx Hbefore; [done|].
  destruct k as [|k].
  - injection Hk as ->. cbn. by rewrite Hx.
  - cbn. destruct (Hbefore 0 z) as [y Hy]; [lia|done|]. rewrite Hy.
    cbn [mbind result_bind]. rewrite (IH k); [done|done|done|].
    intros k' y' Hk' Hy'. apply (Hbefore (S k') y'); [lia|done].
Qed.

(** C7. With a batch size of at least one, [translate] sorts the chunks by
    descending number of primary tokens and cuts the sorted list into
    consecutive batches: the batches glued together are the sorted chunks, no
    batch is empty or longer than the batch size, and every batch but the
    last has exactly the batch size. Without filling up, the batch size is
    the smaller of the number of chunks and the maximum batch size, and no
    batch is padded; with filling up it is the maximum batch size, and every
    batch goes to the search with exactly that many inputs: its own chunks,
    then copies of its first. These batches are what [translate] asks the
    search about: another search that answers them alike gives the same
    outcome of the call, and the first batch the search fails on, those
    before it answered, ends the call with that exception. So two inputs of
    10 and 3 tokens that fit the maximum input length, with a maximum batch
    size of 2 and no filling up, make one batch of two, the input of 10
    tokens first, whichever comes first in the call. *)
Theorem translate_batching (self : Translator) (trans_inputs : list TranslatorInput)
  (fill_up_batches : bool) :
  1 <= batch_size self ->
  let input_chunks := input_chunks_of self trans_inputs in
  let sorted_chunks := py_sorted longer_first input_chunks in
  let bs := translate_batch_size self fill_up_batches sorted_chunks in
  let bts := batches self fill_up_batches input_chunks in
  split_inputs self trans_inputs = Ok (bad_empty_of self trans_inputs, input_chunks)
  /\ sorted_chunks ≡ₚ input_chunks
  /\ StronglySorted (fun x y => chunk_key y <= chunk_key x) sorted_chunks
  /\ bts = grouper sorted_chunks bs
  /\ concat bts = sorted_chunks
  /\ Forall (fun b => b <> [] /\ length b <= bs) bts
  /\ (forall k b, bts !! k = Some b -> k + 1 < length bts -> length b = bs)
  /\ (fill_up_batches = false ->
      bs = length input_chunks `min` max_batch_size self
      /\ Forall (fun b => padded_batch false bs b = Ok b) bts)
  /\ (fill_up_batches = true ->
      bs = max_batch_size self
      /\ Forall (fun b => exists first,
                   head b = Some first
                   /\ padded_batch true bs b
                      = Ok (b ++ replicate (max_batch_size self - length b) first)
                   /\ length (b ++ replicate (max_batch_size self - length b) first)
                      = max_batch_size self) bts)
  /\ (forall search,
        (forall b, b ∈ bts ->
           batch_answer (with_search self search) fill_up_batches bs b
           = batch_answer self fill_up_batches bs b) ->
        translate (with_search self search) trans_inputs fill_up_batches
        = translate self trans_inputs fill_up_batches)
  /\ (forall k b e,
        bts !! k = Some b ->
        batch_answer self fill_up_batches bs b = Raise e ->
        (forall k' b', k' < k -> bts !! k' = Some b' ->
           is_Ok (batch_answer self fill_up_batches bs b')) ->
        translate self trans_inputs fill_up_batches = Raise e)
  /\ (forall a b,
        length (tokens a) = 10 -> length (tokens b) = 3 -> fits self a -> fits self b ->
        max_batch_size self = 2 ->
        let a' := with_eos (EOS_SYMBOL (C self)) a in
        let b' := with_eos (EOS_SYMBOL (C self)) b in
        batches self false (input_chunks_of self [a; b])
        = [[IndexedTranslatorInput.mk 0 0 a'; IndexedTranslatorInput.mk 1 0 b']]
        /\ batches self false (input_chunks_of self [b; a])
           = [[IndexedTranslatorInput.mk 1 0 a'; IndexedTranslatorInput.mk 0 0 b']]
        /\ batch_answer self false 2
             [IndexedTranslatorInput.mk 0 0 a'; IndexedTranslatorInput.mk 1 0 b']
           = _translate_np self
               (batch_restrict_lexicon (self_restrict_lexicon self) [a'; b']).1 [a'; b']).
Proof.
  intros Hbs. cbn zeta. split; [apply split_inputs_Ok|].
  split; [apply py_sorted_Permutation|]. split.
  { apply (StronglySorted_impl (fun x y => longer_first x y = true)).
    - intros x y Hxy. unfold longer_first in Hxy. by apply bool_decide_eq_true in Hxy.
    - apply py_sorted_StronglySorted; [apply longer_first_total|apply longer_first_trans]. }
  split; [done|]. split; [by apply batches_concat|].
  split; [apply batches_Forall|]. split.
  { intros k b. apply grouper_full_batches. }
  split.
  { intros ->. split.
    - unfold translate_batch_size, py_min. rewrite py_sorted_length.
      case_decide; lia.
    - apply Forall_forall. by intros b _. }
  split.
  { intros ->. split; [done|].
    eapply Forall_impl; [apply batches_Forall|]. cbn beta.
    intros b [Hne Hlen]. change (translate_batch_size self true _)
      with (max_batch_size self) in *.
    destruct b as [|first b'] eqn:Hb; [done|]. rewrite <- Hb in *.
    exists first. split; [by rewrite Hb|]. split.
    - unfold padded_batch. rewrite Hb at 3. cbn [andb head].
      destruct (bool_decide (0 < max_batch_size self - length b)) eqn:Hrest; [done|].
      apply bool_decide_eq_false in Hrest.
      replace (max_batch_size self - length b) with 0 by lia.
      cbn. by rewrite app_nil_r.
    - rewrite length_app, length_replicate. lia. }
  split; [intros search; apply translate_with_search|].
  split.
  { intros k b e Hk He Hbefore. unfold translate. rewrite split_inputs_Ok.
    cbn [mbind result_bind]. fold (input_chunks_of self trans_inputs).
    rewrite (mapR_first_Raise _ _ k b e); [done|done|by apply translate_batch_Raise|].
    intros k' b' Hk' Hb'. apply translate_batch_returns. by eapply Hbefore. }
  intros a b Ha Hb Hfa Hfb Hmax.
  assert (Hab : batches self false (input_chunks_of self [a; b])
                = [[IndexedTranslatorInput.mk 0 0 (with_eos (EOS_SYMBOL (C self)) a);
                    IndexedTranslatorInput.mk 1 0 (with_eos (EOS_SYMBOL (C self)) b)]]
                /\ batches self false (input_chunks_of self [b; a])
                   = [[IndexedTranslatorInput.mk 1 0 (with_eos (EOS_SYMBOL (C self)) a);
                       IndexedTranslatorInput.mk 0 0 (with_eos (EOS_SYMBOL (C self)) b)]]).
  { unfold input_chunks_of, batches, translate_batch_size, enumerate.
    cbn [length seq zip zip_with fmap list_fmap concat app].
    rewrite !input_parts_fits by done. cbn [snd app py_sorted sorted_insert].
    unfold longer_first, chunk_key.
    cbn [IndexedTranslatorInput.translator_input with_eos tokens].
    rewrite !length_app, Ha, Hb, Hmax. cbn. done. }
  destruct Hab as [Hab Hba]. cbn zeta. split; [exact Hab|]. split; [exact Hba|].
  reflexivity.
Qed.

Lemma translate_batching_witness :
  1 <= batch_size (sample_translator 2 11)
  /\ concat (batches (sample_translator 2 11) false
               (input_chunks_of (sample_translator 2 11)
                  [new_TranslatorInput (IntId 0) ["x"; "y"; "z"]%string;
                   new_TranslatorInput (IntId 1)
                     ["a"; "b"; "c"; "d"; "e"; "f"; "g"; "h"; "i"; "j"]%string]))
     = py_sorted longer_first
         (input_chunks_of (sample_translator 2 11)
            [new_TranslatorInput (IntId 0) ["x"; "y"; "z"]%string;
             new_TranslatorInput (IntId 1)
               ["a"; "b"; "c"; "d"; "e"; "f"; "g"; "h"; "i"; "j"]%string]).
Proof.
  assert (H1 : 1 <= batch_size (sample_translator 2 11)) by (cbn; lia).
  split; [exact H1|].
  exact (proj1 (proj2 (proj2 (proj2 (proj2
           (translate_batching (sample_translator 2 11) _ false H1)))))).
Defined.

(** ** Results *)

Lemma mapR_Ok_Forall2 {A B} (f : A -> result B) (l : list A) ys :
  mapR f l = Ok ys -> Forall2 (fun x y => f x = Ok y) l ys.
Proof.
  revert ys. induction l as [|x l IH]; intros ys; cbn.
  - intros [= <-]. constructor.
  - destruct (f x) as [y|e] eqn:Hx; [|done]. cbn.
    destruct (mapR f l) as [ys'|e]; [|done]. cbn. intros [= <-].
    constructor; [done|]. by apply IH.
Qed.

Lemma mapR_Raise {A B} (f : A -> result B) (l : list A) e :
  mapR f l = Raise e -> exists x, x ∈ l /\ f x = Raise e.
Proof.
  induction l as [|x l IH]; cbn; [done|].
  destruct (f x) as [y|e'] eqn:Hx; cbn.
  - destruct (mapR f l) as [ys'|e'']; cbn; [done|]. intros [= ->].
    destruct IH as (x' & Hin & Hx'); [done|]. exists x'. split; [by right|done].
  - intros [= ->]. exists x. split; [by left|done].
Qed.

Lemma mapR_is_Ok {A B} (f : A -> result B) (l : list A) :
  Forall (fun x => is_Ok (f x)) l -> is_Ok (mapR f l).
Proof.
  induction 1 as [|x l [y Hy] _ [ys Hys]]; cbn; [by eexists|].
  rewrite Hy. cbn. rewrite Hys. by eexists.
Qed.

Lemma make_result_sentence_id self x t r :
  _make_result self x t = Ok r -> TranslatorOutput.sentence_id r = sentence_id x.
Proof.
  unfold _make_result.
  destruct (_get_translation_tokens_and_factors self (target_ids t))
    as [[[[pt ps] ft] fs]|]; [|done]. cbn.
  destruct (nbest_translations t) as [nb|]; cbn.
  - destruct (mapR _ _); [|done]. cbn. destruct (scores t); [done|]. by intros [= <-].
  - destruct (scores t); [done|]. by intros [= <-].
Qed.

Lemma assemble_sentence_id self x g r :
  assemble self x g = Ok r -> TranslatorOutput.sentence_id r = sentence_id x.
Proof.
  unfold assemble. destruct g as [|tc [|tc' g]]; cbn.
  - destruct (self_concat_translations _ _); [|done]. apply make_result_sentence_id.
  - apply make_result_sentence_id.
  - destruct (self_concat_translations _ _); [|done]. apply make_result_sentence_id.
Qed.

(** The result made of the empty translation: no text, no tokens, the
    score minus infinity. *)
Lemma make_result_empty self x add_nbest :
  vocab_targets_inv self <> [] ->
  exists r, _make_result self x (empty_translation add_nbest) = Ok r
    /\ TranslatorOutput.sentence_id r = sentence_id x
    /\ TranslatorOutput.translation r = EmptyString
    /\ TranslatorOutput.tokens r = []
    /\ TranslatorOutput.score r = neg_infinity
    /\ TranslatorOutput.factor_scores r = Some []
    /\ TranslatorOutput.pass_through_dict r = pass_through_dict x
    /\ TranslatorOutput.nbest_translations r = (if add_nbest then Some [] else None).
Proof.
  intros Hv. destruct (vocab_targets_inv self) as [|v vs] eqn:Hvocab; [done|].
  unfold _make_result, _get_translation_tokens_and_factors. rewrite Hvocab.
  destruct add_nbest; cbn; eexists; (split; [done|]); cbn; by repeat split.
Qed.

Lemma assemble_skipped self x i :
  assemble self x [skipped self i]
  = _make_result self x (empty_translation (bool_decide (1 < nbest_size self))).
Proof.
  unfold assemble, skipped. cbn. destruct (_ && _); [|done].
  unfold strip_target_prefix, _remove_target_prefix_tokens. cbn. by rewrite drop_nil.
Qed.

Lemma arity_contract self :
  one_translation_per_input self -> scorer_contract self (fun _ _ => True).
Proof.
  intros Har lex batch Hne. destruct (Har lex batch Hne) as (outs & Hout & Hlen).
  exists outs. split; [done|]. by apply Forall2_same_length_lookup_2.
Qed.

Lemma contract_arity self P : scorer_contract self P -> one_translation_per_input self.
Proof.
  intros HP lex batch Hne. destruct (HP lex batch Hne) as (outs & Hout & Hall).
  exists outs. split; [done|]. symmetry. by eapply Forall2_length.
Qed.

(** ** When [translate] returns *)

Lemma foldr_py_min_le {A} (rs : list (list A)) a :
  foldr (fun r' m => py_min m (length r')) a rs <= a.
Proof.
  induction rs as [|r rs IH]; cbn; [done|].
  set (m := foldr _ a rs) in *. unfold py_min. case_decide; lia.
Qed.

Lemma zip_star_lookup {A} (rows : list (list A)) j col :
  zip_star rows !! j = Some col ->
  col = omap (fun r => r !! j) rows
  /\ exists r, head rows = Some r /\ j < length r.
Proof.
  destruct rows as [|r rs]; [done|]. unfold zip_star.
  rewrite list_lookup_fmap. intros Hj.
  destruct (seq 0 _ !! j) as [j'|] eqn:Hseq; [|done].
  apply lookup_seq in Hseq as [-> Hlt]. injection Hj as <-.
  split; [done|]. exists r. split; [done|].
  pose proof (foldr_py_min_le rs (length r)). lia.
Qed.

Lemma foldR_invariant {S X} (f : S -> X -> result S) (Inv : S -> Prop) l s :
  (forall s' x, x ∈ l -> Inv s' -> exists s'', f s' x = Ok s'' /\ Inv s'') ->
  Inv s -> exists s', foldR f s l = Ok s' /\ Inv s'.
Proof.
  revert s. induction l as [|x l IH]; intros s Hf Hs; cbn; [by exists s|].
  destruct (Hf s x) as (s' & -> & Hs'); [by left|done|]. cbn.
  apply IH; [|done]. intros s'' y Hy. apply Hf. by right.
Qed.

Section returns.
Context (self : Translator).
Hypothesis Hvocab : vocab_targets_inv self <> [].

Lemma get_tokens_Ok ids :
  ids_ok self ids -> is_Ok (_get_translation_tokens_and_factors self ids).
Proof using Hvocab.
  intros Hids. unfold _get_translation_tokens_and_factors.
  rewrite (mapR_Ok_fmap _
             (fun tokens' => (bool_decide (default 0%Z (head tokens') ∉ strip_ids self),
                              tokens'))).
  2:{ eapply Forall_impl; [exact Hids|]. intros [|w tok] [Hne _]; [done|]. done. }
  cbn [mbind result_bind].
  set (keep := (fun tokens' : list Z => _) <$> ids).
  set (pruned := (filter (fun p : bool * list Z => p.1 = true) keep).*2).
  assert (Hpruned : Forall (token_ok self) pruned).
  { apply Forall_forall. intros tok Htok.
    apply list_elem_of_fmap in Htok as ([b tok'] & -> & Hin).
    apply list_elem_of_filter in Hin as [_ Hin].
    apply list_elem_of_fmap in Hin as (tok'' & [= _ ->] & Hin).
    unfold ids_ok in Hids. rewrite Forall_forall in Hids. by apply Hids. }
  destruct (mapR_is_Ok
              (fun '(factor_index, factor_sequence) =>
                 match vocab_targets_inv self !! factor_index with
                 | None => Raise IndexError_vocab_list
                 | Some vocab_target_inv =>
                     mapR (fun target_id : Z =>
                             match vocab_target_inv !! target_id with
                             | None => Raise KeyError_vocab
                             | Some token => Ok token
                             end) factor_sequence
                 end)
              (enumerate (zip_star pruned))) as [att Hatt].
  { apply Forall_forall. intros [j col] Hin. apply elem_of_enumerate in Hin.
    apply zip_star_lookup in Hin as (-> & r & Hr & Hj).
    rewrite Forall_forall in Hpruned.
    assert (Hrin : r ∈ pruned) by (destruct pruned; [done|]; injection Hr as ->; by left).
    destruct (lookup_lt_is_Some_2 r j Hj) as [id0 Hid0].
    destruct (proj2 (Hpruned r Hrin) j id0 Hid0) as (v & Hv & _). rewrite Hv.
    apply mapR_is_Ok, Forall_forall. intros id Hid.
    apply list_elem_of_omap in Hid as (tok & Htok & Htj).
    destruct (proj2 (Hpruned tok Htok) j id Htj) as (v' & Hv' & [s Hs]).
    rewrite Hv in Hv'. injection Hv' as <-. rewrite Hs. by eexists. }
  rewrite Hatt. cbn [mbind result_bind].
  destruct att as [|t att]; cbn.
  - destruct (vocab_targets_inv self); [done|]. cbn. by eexists.
  - by eexists.
Qed.

Lemma make_result_Ok x t : result_ok self t -> is_Ok (_make_result self x t).
Proof using Hvocab.
  intros (Hids & Hsc & Hnb). unfold _make_result.
  destruct (get_tokens_Ok _ Hids) as [[[[pt ps] ft] fs] ->]. cbn.
  destruct (nbest_translations t) as [nb|]; cbn.
  - destruct (mapR_is_Ok (_get_translation_tokens_and_factors self)
                (NBestTranslations.target_ids_list nb)) as [parts ->].
    { eapply Forall_impl; [by apply Hnb|]. apply get_tokens_Ok. }
    cbn. destruct (scores t); [done|]. by eexists.
  - destruct (scores t); [done|]. by eexists.
Qed.

End returns.

Lemma np_add_same_length x y :
  length x = length y -> np_add x y = Ok (zip_with PrimFloat.add x y).
Proof. intros Hl. unfold np_add. by case_decide. Qed.

Lemma foldr_py_min_pos {A} (rs : list (list A)) a :
  1 <= a -> Forall (fun r => 1 <= length r) rs ->
  1 <= foldr (fun r' m => py_min m (length r')) a rs.
Proof.
  intros Ha. induction 1 as [|r rs Hr _ IH]; cbn; [done|].
  set (m := foldr _ a rs) in *. unfold py_min. case_decide; lia.
Qed.

Section concat_returns.
Context (self : Translator) (F : nat).
Hypothesis HF : 1 <= F.

Lemma concat_step_Ok stop_ids scorer n ids erl sc idx t :
  hyp_ok self F t -> ids_ok self ids -> length sc = F ->
  exists ids' erl' sc',
    concat_step stop_ids scorer n (ids, erl, sc) (idx, t) = Ok (ids', erl', sc')
    /\ ids_ok self ids' /\ length sc' = F.
Proof using HF.
  intros (Hids & Hne & Hsc) Hacc Hlen. unfold concat_step.
  assert (Hids' : exists ids',
             (if decide (idx = n - 1) then Ok (ids ++ target_ids t)
              else match last (target_ids t) with
                   | None => Raise IndexError_target_ids_last
                   | Some token =>
                       match head token with
                       | None => Raise IndexError_token_first
                       | Some w =>
                           if decide (w ∈ stop_ids)
                           then Ok (ids ++ take (length (target_ids t) - 1) (target_ids t))
                           else Ok (ids ++ target_ids t)
                       end
                   end) = Ok ids' /\ ids_ok self ids').
  { case_decide.
    - eexists. split; [done|]. by apply Forall_app.
    - destruct (last (target_ids t)) as [token|] eqn:Hlast; [|by apply last_None in Hlast].
      assert (Htok : token_ok self token).
      { unfold ids_ok in Hids. rewrite Forall_forall in Hids. apply Hids.
        apply last_Some in Hlast as [l' ->]. apply elem_of_app. right. by left. }
      destruct token as [|w token]; [by destruct Htok|]. cbn.
      case_decide; (eexists; split; [done|]); apply Forall_app; split; try done.
      by apply Forall_take. }
  destruct Hids' as (ids' & -> & Hids'). cbn [mbind result_bind].
  destruct (scores t) as [|score factor_scores] eqn:Hscores; [cbn in Hsc; lia|].
  rewrite np_add_same_length by (cbn in *; lia). cbn [mbind result_bind].
  eexists _, _, _. split; [done|]. split; [done|].
  rewrite length_zip_with. cbn in *. lia.
Qed.

Lemma concat_translations_Ok ts :
  ts <> [] -> Forall (hyp_ok self F) ts ->
  exists t', _concat_translations ts (stop_ids self) (_scorer self) = Ok t'
    /\ ids_ok self (target_ids t') /\ scores t' <> []
    /\ (2 <= length ts -> nbest_translations t' = None).
Proof using HF.
  intros Hne Hts. destruct ts as [|t0 [|t1 rest]]; [done| |].
  - apply Forall_singleton in Hts as (Hids & _ & Hsc). exists t0.
    split; [done|]. split; [done|]. split; [|cbn; lia].
    intros Hnil. rewrite Hnil in Hsc. cbn in Hsc. lia.
  - unfold _concat_translations.
    destruct (foldR_invariant
                (concat_step (stop_ids self) (_scorer self) (length (t0 :: t1 :: rest)))
                (fun st => ids_ok self st.1.1 /\ length st.2 = F)
                (enumerate (t0 :: t1 :: rest))
                ([], None, (fun _ => 0%float) <$> scores t0))
      as ([[ids' erl'] sc'] & Hfold & Hids' & Hsc').
    + intros [[ids erl] sc] [idx t] Hin [Hacc Hlen]. cbn in Hacc, Hlen.
      apply elem_of_enumerate, list_elem_of_lookup_2 in Hin.
      rewrite Forall_forall in Hts.
      destruct (concat_step_Ok (stop_ids self) (_scorer self)
                  (length (t0 :: t1 :: rest)) ids erl sc idx t)
        as (ids'' & erl'' & sc'' & Hstep & ? & ?); [by apply Hts|done|done|].
      by exists (ids'', erl'', sc'').
    + cbn. split; [constructor|]. rewrite length_fmap.
      apply Forall_inv in Hts. by destruct Hts as (_ & _ & ?).
    + rewrite Hfold. cbn in Hids', Hsc' |- *.
      destruct sc' as [|s0 sc']; [cbn in Hsc'; lia|].
      eexists. split; [done|]. cbn. by repeat split.
Qed.

Lemma expand_nbest_Ok t :
  nbest_ok self F t ->
  exists row, _expand_nbest_translation t = Ok row /\ row <> [] /\ Forall (hyp_ok self F) row.
Proof.
  intros (nb & Hnb & Hne & Hall). unfold _expand_nbest_translation. rewrite Hnb.
  eexists. split; [done|]. split.
  - intros Hnil. by apply fmap_nil_inv in Hnil.
  - apply Forall_fmap. eapply Forall_impl; [exact Hall|]. by intros [ids sc].
Qed.

Lemma concat_nbest_translations_Ok ts :
  ts <> [] -> Forall (nbest_ok self F) ts ->
  exists t', _concat_nbest_translations ts (stop_ids self) (_scorer self) = Ok t'
             /\ result_ok self t'.
Proof using HF.
  intros Hne Hts. unfold _concat_nbest_translations.
  destruct (mapR_Forall2 _expand_nbest_translation
              (fun _ row => row <> [] /\ Forall (hyp_ok self F) row) ts)
    as (rows & -> & Hrows).
  { eapply Forall_impl; [exact Hts|]. intros t Ht.
    destruct (expand_nbest_Ok t Ht) as (row & ? & ? & ?). by exists row. }
  cbn [mbind result_bind].
  assert (Hrows' : Forall (fun row => row <> [] /\ Forall (hyp_ok self F) row) rows).
  { apply Forall_forall. intros row [j Hj]%list_elem_of_lookup.
    by destruct (Forall2_lookup_r _ _ _ _ _ Hrows Hj) as (? & _ & ?). }
  destruct rows as [|r rs] eqn:Hrs.
  { apply Forall2_nil_inv_r in Hrows. done. }
  rewrite <- Hrs in *.
  destruct (mapR_Forall2
              (fun col => _concat_translations col (stop_ids self) (_scorer self))
              (fun _ ct => ids_ok self (target_ids ct) /\ scores ct <> [])
              (zip_star rows)) as (cts & -> & Hcts).
  { apply Forall_forall. intros col [j Hj]%list_elem_of_lookup.
    apply zip_star_lookup in Hj as (-> & r' & Hr' & Hlt).
    destruct (concat_translations_Ok (omap (fun r0 => r0 !! j) rows))
      as (t' & ? & ? & ? & _).
    - rewrite Hrs in Hr' |- *. injection Hr' as <-.
      destruct (lookup_lt_is_Some_2 r j Hlt) as [t Ht]. cbn. by rewrite Ht.
    - apply Forall_forall. intros t (row & Hrow & Ht)%list_elem_of_omap.
      rewrite Forall_forall in Hrows'. destruct (Hrows' row Hrow) as [_ Hok].
      rewrite Forall_forall in Hok. apply Hok. by eapply list_elem_of_lookup_2.
    - by exists t'. }
  cbn [mbind result_bind].
  assert (Hcols : zip_star rows <> []).
  { rewrite Hrs. unfold zip_star.
    pose proof (foldr_py_min_pos rs (length r)) as Hpos.
    rewrite Hrs in Hrows'. apply Forall_cons in Hrows' as [[Hr _] Hrs'].
    destruct (foldr _ (length r) rs) as [|n] eqn:Hn; [|done].
    exfalso. destruct r; [done|].
    assert (1 <= 0); [|lia]. apply Hpos; [cbn; lia|].
    eapply Forall_impl; [exact Hrs'|]. intros row [Hrow _]. destruct row; [done|cbn; lia]. }
  destruct cts as [|ct cts].
  { apply Forall2_nil_inv_r in Hcts. done. }
  cbn. eexists. split; [done|].
  assert (Hall : Forall (fun ct' => ids_ok self (target_ids ct') /\ scores ct' <> [])
                        (ct :: cts)).
  { apply Forall_forall. intros ct' [j Hj]%list_elem_of_lookup.
    by destruct (Forall2_lookup_r _ _ _ _ _ Hcts Hj) as (? & _ & ?). }
  split; [|split]; cbn.
  - by apply Forall_inv in Hall as [? _].
  - by apply Forall_inv in Hall as [_ ?].
  - intros nb [= <-]. cbn. constructor.
    + by apply Forall_inv in Hall as [? _].
    + apply Forall_fmap. apply Forall_inv_tail in Hall.
      eapply Forall_impl; [exact Hall|]. by intros ct' [? _].
Qed.

End concat_returns.

Section assemble_returns.
Context (self : Translator).
Hypothesis Hvocab : vocab_targets_inv self <> [].

Lemma vocab_length_pos : 1 <= length (vocab_targets_inv self).
Proof using Hvocab. destruct (vocab_targets_inv self); [done|cbn; lia]. Qed.

Lemma concat_ok_result_ok t : concat_ok self t -> result_ok self t.
Proof using Hvocab.
  intros (Hids & _ & Hsc & Hnb & _). split; [done|]. split; [|done].
  intros Hnil. rewrite Hnil in Hsc. pose proof vocab_length_pos. cbn in Hsc. lia.
Qed.

Lemma wf_concat_ok chunk t : wf_translation self chunk t -> concat_ok self t.
Proof.
  intros (Hids & Hlen & Hsc & Hnb & Hnbest). split; [done|]. split; [|done].
  intros Hnil. rewrite Hnil in Hlen. cbn in Hlen. lia.
Qed.

Lemma wf_strip_concat_ok chunk t :
  wf_translation self chunk t ->
  concat_ok self (strip_target_prefix (num_target_prefix_tokens chunk) t).
Proof.
  intros (Hids & Hlen & Hsc & Hnb & Hnbest).
  unfold strip_target_prefix, _remove_target_prefix_tokens, py_min.
  case_decide; [|lia]. split; [|split; [|done]]; cbn.
  - by apply Forall_drop.
  - intros Hnil. apply (f_equal length) in Hnil. rewrite length_drop in Hnil.
    cbn in Hnil. lia.
Qed.

Lemma self_concat_translations_Ok ts :
  2 <= length ts -> Forall (concat_ok self) ts ->
  exists t', self_concat_translations self ts = Ok t' /\ result_ok self t'.
Proof using Hvocab.
  intros Hlen Hts. assert (Hne : ts <> []) by (intros ->; cbn in Hlen; lia).
  unfold self_concat_translations. case_decide as Hn.
  - apply (concat_nbest_translations_Ok self _ vocab_length_pos); [done|].
    eapply Forall_impl; [exact Hts|]. intros t (_ & _ & _ & _ & Hnb). by apply Hnb.
  - destruct (concat_translations_Ok self _ vocab_length_pos ts Hne)
      as (t' & Ht' & Hids & Hsc & Hnone).
    { eapply Forall_impl; [exact Hts|]. by intros t (? & ? & ? & _). }
    exists t'. split; [done|]. split; [done|]. split; [done|].
    intros nb Hnb. rewrite Hnone in Hnb by done. done.
Qed.

(** The result of an input is assembled without an exception from a group
    as [group_spec] describes it, on translations as [wf_translation]
    describes them. *)
Lemma assemble_Ok trans_inputs i x g :
  trans_inputs !! i = Some x ->
  group_spec self (wf_translation self) trans_inputs i g ->
  is_Ok (assemble self x g).
Proof using Hvocab.
  intros Hi Hg. unfold group_spec in Hg. rewrite Hi in Hg. case_decide as Hs.
  - subst g. rewrite assemble_skipped.
    destruct (make_result_empty self x (bool_decide (1 < nbest_size self)) Hvocab)
      as (r & Hr & _). by exists r.
  - destruct Hg as (ics & Hparts & Hne & HF2).
    destruct (input_parts_chunked self i x Hs) as (ics' & Hparts' & _ & _ & Hprefix).
    rewrite Hparts in Hparts'. injection Hparts' as <-.
    set (n := num_target_prefix_tokens x).
    assert (Hok : forall j tc, g !! j = Some tc ->
              concat_ok self (translation tc)
              /\ (j = 0 \/ truthy (use_target_prefix_all_chunks x) = true ->
                  concat_ok self (strip_target_prefix n (translation tc)))).
    { intros j tc Hj.
      destruct (Forall2_lookup_r _ _ _ _ _ HF2 Hj) as (ci & Hci & _ & _ & Hwf).
      split; [by eapply wf_concat_ok|]. intros Hcond.
      specialize (Hprefix j ci Hci). rewrite decide_True in Hprefix by done.
      replace n with (num_target_prefix_tokens
                        (IndexedTranslatorInput.translator_input ci)).
      - by apply wf_strip_concat_ok.
      - unfold n, num_target_prefix_tokens, get_target_prefix_tokens.
        by rewrite Hprefix. }
    unfold assemble. fold n.
    set (strip := bool_decide (0 < n) && negb (truthy (keep_target_prefix_key x))).
    destruct g as [|tc [|tc' g']].
    + apply Forall2_nil_inv_r in HF2. done.
    + cbn [mbind result_bind]. apply make_result_Ok; [done|].
      apply concat_ok_result_ok.
      destruct (Hok 0 tc eq_refl) as [Hplain Hstripped].
      destruct strip; [apply Hstripped; by left|done].
    + set (g := tc :: tc' :: g') in *.
      set (ts := if strip
                 then imap (fun i t =>
                              if bool_decide (i = 0)
                                 || truthy (use_target_prefix_all_chunks x)
                              then strip_target_prefix n t else t) (translation <$> g)
                 else translation <$> g).
      destruct (self_concat_translations_Ok ts) as (t' & Ht' & Hres).
      * unfold ts. destruct strip; rewrite ?length_imap, length_fmap; cbn; lia.
      * apply Forall_lookup. intros j t Hj. unfold ts in Hj. destruct strip.
        -- rewrite list_lookup_imap, list_lookup_fmap in Hj.
           destruct (g !! j) as [tcj|] eqn:Hgj; [|done]. cbn in Hj.
           injection Hj as <-. destruct (Hok j tcj Hgj) as [Hplain Hstripped].
           destruct (bool_decide (j = 0)) eqn:Hj0; cbn.
           ++ apply Hstripped. left. by apply bool_decide_eq_true in Hj0.
           ++ destruct (truthy (use_target_prefix_all_chunks x)) eqn:Hall; [|done].
              apply Hstripped. by right.
        -- rewrite list_lookup_fmap in Hj.
           destruct (g !! j) as [tcj|] eqn:Hgj; [|done]. injection Hj as <-.
           by destruct (Hok j tcj Hgj).
      * change (is_Ok (t ← self_concat_translations self ts; _make_result self x t)).
        rewrite Ht'. cbn [mbind result_bind]. by apply make_result_Ok.
Qed.

End assemble_returns.

(** C1. With a batch size of at least one and a search that returns one
    translation per input of a batch: whenever [translate] returns, it returns
    as many results as there are inputs, and the result at each index has the
    sentence id of the input at that index, whatever the mix of bad, empty,
    over-length and regular inputs, the number of chunks of each, the batch
    size and the filling up of batches. And [translate] does return when the
    translator has a target vocabulary and the search gives translations
    that can be reassembled and formatted ([wf_translation]). *)
Theorem translate_order_preservation (self : Translator)
  (trans_inputs : list TranslatorInput) (fill_up_batches : bool) :
  1 <= batch_size self ->
  one_translation_per_input self ->
  (forall rs, translate self trans_inputs fill_up_batches = Ok rs ->
     length rs = length trans_inputs
     /\ TranslatorOutput.sentence_id <$> rs = sentence_id <$> trans_inputs)
  /\ (vocab_targets_inv self <> [] ->
      scorer_contract self (wf_translation self) ->
      exists rs, translate self trans_inputs fill_up_batches = Ok rs).
Proof.
  intros Hbs Har. split.
  - intros rs Hrs.
    destruct (translate_pipeline self (fun _ _ => True) trans_inputs fill_up_batches
                Hbs (arity_contract self Har)) as (groups & Htranslate & _).
    rewrite Htranslate in Hrs. apply mapR_Ok_Forall2 in Hrs.
    pose proof (Forall2_length _ _ _ Hrs) as Hlen. rewrite length_enumerate in Hlen.
    split; [done|].
    apply list_eq_same_length with (length rs); [by rewrite length_fmap..|].
    intros j sid sid' Hj Hsid Hsid'.
    rewrite list_lookup_fmap in Hsid. rewrite list_lookup_fmap in Hsid'.
    destruct (rs !! j) as [r|] eqn:Hr; [|done].
    destruct (trans_inputs !! j) as [x|] eqn:Hx; [|done].
    injection Hsid as <-. injection Hsid' as <-.
    destruct (Forall2_lookup_r _ _ _ _ _ Hrs Hr) as ([j' x'] & Hjx & Hass).
    pose proof (lookup_enumerate _ _ _ Hx) as Hjx'. rewrite Hjx in Hjx'.
    injection Hjx' as -> ->. by eapply assemble_sentence_id.
  - intros Hv Hwf.
    destruct (translate_pipeline self (wf_translation self) trans_inputs fill_up_batches
                Hbs Hwf) as (groups & Htranslate & Hgroups).
    rewrite Htranslate. apply mapR_is_Ok, Forall_forall.
    intros [i x] Hin. apply elem_of_enumerate in Hin.
    by eapply assemble_Ok.
Qed.

Lemma echo_target_ids lex x :
  target_ids (echo_translation lex x)
  = replicate (1 + num_target_prefix_tokens x) [echo_word lex] ++ [[3%Z]].
Proof. done. Qed.

(** The translator of the examples keeps the contract of the search. *)
Lemma sample_translator_wf bs m :
  scorer_contract (sample_translator bs m) (wf_translation (sample_translator bs m)).
Proof.
  intros lex batch _. exists (echo_translation lex <$> batch). split; [done|].
  apply Forall2_fmap_r, Forall_Forall2_diag, Forall_forall.
  intros x _. unfold wf_translation. cbn beta. unfold compose.
  rewrite echo_target_ids.
  split; [|split; [|split; [|split]]].
  - apply Forall_app. split.
    + apply Forall_forall. intros tok Htok. apply elem_of_replicate in Htok as [-> _].
      split; [done|]. intros [|j] id Hj; [|done]. injection Hj as <-.
      exists sample_vocab_inv. split; [done|].
      destruct lex as [[|[|l]]|]; vm_compute; by eexists.
    + apply Forall_singleton. split; [done|].
      intros [|j] id Hj; [|done]. injection Hj as <-.
      exists sample_vocab_inv. split; [done|]. vm_compute. by eexists.
  - rewrite length_app, length_replicate. cbn. lia.
  - done.
  - done.
  - cbn. lia.
Qed.

Lemma sample_translator_arity bs m : one_translation_per_input (sample_translator bs m).
Proof. intros lex batch _. eexists. split; [done|]. by rewrite length_fmap. Qed.

Lemma translate_order_preservation_witness :
  1 <= batch_size (sample_translator 2 3)
  /\ exists rs, translate (sample_translator 2 3) sample_inputs true = Ok rs
       /\ length rs = length sample_inputs
       /\ TranslatorOutput.sentence_id <$> rs = sentence_id <$> sample_inputs.
Proof.
  assert (H1 : 1 <= batch_size (sample_translator 2 3)) by (cbn; lia).
  split; [exact H1|].
  destruct (translate_order_preservation (sample_translator 2 3) sample_inputs true
              H1 (sample_translator_arity 2 3)) as [Hids Hret].
  destruct (Hret ltac:(done) (sample_translator_wf 2 3)) as [rs Hrs].
  exists rs. split; [exact Hrs|]. by apply Hids.
Defined.

(** ** Inputs that are not translated *)

Lemma elem_of_concat {A} (ls : list (list A)) x :
  x ∈ concat ls <-> exists l, x ∈ l /\ l ∈ ls.
Proof.
  induction ls as [|l ls IH]; cbn.
  - split; [by intros ?%elem_of_nil|]. by intros (l & _ & ?%elem_of_nil).
  - rewrite elem_of_app, IH. split.
    + intros [Hx|(l' & Hx & Hl')]; [exists l; split; [done|by left]|].
      exists l'. split; [done|by right].
    + intros (l' & Hx & [->|Hl']%elem_of_cons); [by left|right; by exists l'].
Qed.

Lemma input_chunks_of_skipped self trans_inputs :
  Forall (skipped_input self) trans_inputs -> input_chunks_of self trans_inputs = [].
Proof.
  intros Hall. unfold input_chunks_of.
  assert (Hnil : Forall (fun l => l = [])
                   ((fun '(i, x) => (input_parts self i x).2) <$> enumerate trans_inputs)).
  { apply Forall_fmap, Forall_forall. intros [i x] Hin. cbn.
    apply elem_of_enumerate in Hin. rewrite input_parts_skipped; [done|].
    rewrite Forall_lookup in Hall. by eapply Hall. }
  induction Hnil as [|l ls -> _ IH]; [done|]. done.
Qed.

Lemma mapR_Raise_first {A B} (f : A -> result B) (l : list A) e :
  mapR f l = Raise e ->
  exists k x, l !! k = Some x /\ f x = Raise e
              /\ forall k' y, k' < k -> l !! k' = Some y -> is_Ok (f y).
Proof.
  induction l as [|z l IH]; cbn; [done|].
  destruct (f z) as [y|e'] eqn:Hz; cbn.
  - destruct (mapR f l) as [ys|e'']; cbn; [done|]. intros [= ->].
    destruct IH as (k & x & Hk & Hx & Hbefore); [done|].
    exists (S k), x. split; [done|]. split; [done|].
    intros [|k'] y' Hk' Hy'.
    + injection Hy' as <-. by eexists.
    + apply (Hbefore k' y'); [lia|done].
  - intros [= ->]. exists 0, z. split; [done|]. split; [done|]. intros k' y' Hk'. lia.
Qed.

(** A call in which no input is translated never asks the search: it
    returns, for each input, the result made of the empty translation. *)
Lemma translate_all_skipped self trans_inputs fill_up_batches :
  1 <= batch_size self -> vocab_targets_inv self <> [] ->
  Forall (skipped_input self) trans_inputs ->
  exists rs,
    translate self trans_inputs fill_up_batches = Ok rs
    /\ Forall2 (fun y r =>
                  _make_result self y (empty_translation (bool_decide (1 < nbest_size self)))
                  = Ok r) trans_inputs rs.
Proof.
  intros Hbs Hv Hall.
  set (search := fun (_ : option Lexicon) (batch : list TranslatorInput) =>
                   Ok ((fun _ => empty_translation false) <$> batch)).
  rewrite <- (translate_with_search self search trans_inputs fill_up_batches).
  2:{ intros batch Hin. rewrite (input_chunks_of_skipped self trans_inputs Hall) in Hin.
      unfold batches in Hin. cbn [py_sorted] in Hin. rewrite grouper_nil in Hin.
      by apply elem_of_nil in Hin. }
  set (self' := with_search self search).
  assert (Har : scorer_contract self' (fun _ _ => True)).
  { intros lex batch _. exists ((fun _ => empty_translation false) <$> batch). split; [done|].
    apply Forall2_fmap_r, Forall_Forall2_diag, Forall_forall. done. }
  destruct (translate_pipeline self' (fun _ _ => True) trans_inputs fill_up_batches
              Hbs Har) as (groups & Htranslate & Hgroups).
  rewrite Htranslate.
  assert (Hsame : mapR (fun '(i, y) => assemble self' y (groups i)) (enumerate trans_inputs)
                  = mapR (fun y => _make_result self y
                                     (empty_translation (bool_decide (1 < nbest_size self))))
                         (snd <$> enumerate trans_inputs)).
  { rewrite mapR_fmap. apply mapR_ext_in. intros [j y] Hin.
    apply elem_of_enumerate in Hin. specialize (Hgroups j).
    unfold group_spec in Hgroups. rewrite Hin in Hgroups.
    assert (Hs : skipped_input self' y).
    { rewrite Forall_lookup in Hall. exact (Hall j y Hin). }
    rewrite decide_True in Hgroups by done. rewrite Hgroups.
    exact (assemble_skipped self' y j). }
  rewrite Hsame. change (snd <$> enumerate trans_inputs) with ((enumerate trans_inputs).*2).
  rewrite snd_enumerate.
  destruct (mapR_is_Ok (fun y => _make_result self y
                                   (empty_translation (bool_decide (1 < nbest_size self))))
              trans_inputs) as [rs Hrs].
  { apply Forall_forall. intros y _.
    destruct (make_result_empty self y (bool_decide (1 < nbest_size self)) Hv)
      as (r & Hr & _). by exists r. }
  exists rs. split; [exact Hrs|]. by apply mapR_Ok_Forall2.
Qed.

(** C6. An input that is a [BadTranslatorInput] or has no tokens adds the
    one empty translation to the translated chunks and no chunk to the
    batches, so nothing of it reaches the search. Its result is made of the
    empty translation: no text, no tokens, the score minus infinity. A call
    of such inputs only returns, one such result per input, whatever the
    search is. With a search that returns one translation per input of a
    batch, the batches are translated, the result of every input is
    assembled from the translated chunks filed under its index, and for the
    bad or empty input that is the empty translation alone: its result is at
    its index whenever [translate] returns, and when [translate] raises, the
    exception comes from assembling the translations of the first input that
    fails, an input that was translated, never from this one. And
    [translate] does return when the search gives translations that can be
    reassembled and formatted ([wf_translation]). *)
Theorem translate_bad_or_empty_input (self : Translator)
  (trans_inputs : list TranslatorInput) (fill_up_batches : bool)
  (i : nat) (x : TranslatorInput) :
  1 <= batch_size self ->
  vocab_targets_inv self <> [] ->
  trans_inputs !! i = Some x ->
  is_bad x = true \/ tokens x = [] ->
  let input_chunks := input_chunks_of self trans_inputs in
  let bts := batches self fill_up_batches input_chunks in
  let bs := translate_batch_size self fill_up_batches
              (py_sorted longer_first input_chunks) in
  exists r,
    split_input self i x = Ok ([skipped self i], [])
    /\ translation (skipped self i)
       = {| target_ids := []; scores := [neg_infinity];
            nbest_translations :=
              if bool_decide (1 < nbest_size self)
              then Some (NBestTranslations.mk [] []) else None;
            estimated_reference_length := None |}
    /\ split_inputs self trans_inputs = Ok (bad_empty_of self trans_inputs, input_chunks)
    /\ fiber input_idx i (bad_empty_of self trans_inputs) = [skipped self i]
    /\ fiber IndexedTranslatorInput.input_idx i input_chunks = []
    /\ Forall (Forall (fun c => IndexedTranslatorInput.input_idx c <> i)) bts
    /\ assemble self x [skipped self i] = Ok r
    /\ TranslatorOutput.sentence_id r = sentence_id x
    /\ TranslatorOutput.translation r = EmptyString
    /\ TranslatorOutput.tokens r = []
    /\ TranslatorOutput.score r = neg_infinity
    /\ (Forall (fun y => is_bad y = true \/ tokens y = []) trans_inputs ->
        exists rs,
          translate self trans_inputs fill_up_batches = Ok rs
          /\ rs !! i = Some r
          /\ Forall2 (fun y r' =>
                        _make_result self y
                          (empty_translation (bool_decide (1 < nbest_size self)))
                        = Ok r') trans_inputs rs)
    /\ (one_translation_per_input self ->
        exists translated,
          mapR (translate_batch self fill_up_batches bs) bts = Ok translated
          /\ let group := fun j =>
               fiber input_idx j
                 (py_sorted it_le (bad_empty_of self trans_inputs ++ concat translated)) in
             group i = [skipped self i]
             /\ translate self trans_inputs fill_up_batches
                = mapR (fun '(j, y) => assemble self y (group j)) (enumerate trans_inputs)
             /\ (forall rs, translate self trans_inputs fill_up_batches = Ok rs ->
                   rs !! i = Some r)
             /\ (forall e, translate self trans_inputs fill_up_batches = Raise e ->
                   exists j y,
                     j <> i /\ trans_inputs !! j = Some y
                     /\ ~ skipped_input self y
                     /\ assemble self y (group j) = Raise e
                     /\ forall k z, k < j -> trans_inputs !! k = Some z ->
                          is_Ok (assemble self z (group k)))
             /\ (scorer_contract self (wf_translation self) ->
                 exists rs, translate self trans_inputs fill_up_batches = Ok rs
                            /\ rs !! i = Some r)).
Proof.
  intros Hbs Hv Hi Hx. cbn zeta.
  assert (Hs : skipped_input self x) by (unfold skipped_input; tauto).
  destruct (make_result_empty self x (bool_decide (1 < nbest_size self)) Hv)
    as (r & Hr & Hid & Htr & Htok & Hsc & _).
  pose proof Hr as Hempty.
  rewrite <- (assemble_skipped self x i) in Hr.
  assert (Hnone : fiber IndexedTranslatorInput.input_idx i
                    (input_chunks_of self trans_inputs) = []).
  { unfold input_chunks_of.
    rewrite (fiber_concat_enumerate IndexedTranslatorInput.input_idx
               (fun j y => (input_parts self j y).2))
      by (intros j y a; apply input_parts_idx).
    by rewrite Hi, input_parts_skipped. }
  exists r. split; [by rewrite split_input_Ok, input_parts_skipped|].
  split; [done|]. split; [apply split_inputs_Ok|]. split; [|split; [exact Hnone|]].
  { unfold bad_empty_of.
    rewrite (fiber_concat_enumerate input_idx (fun j y => (input_parts self j y).1))
      by (intros j y a; apply input_parts_idx).
    by rewrite Hi, input_parts_skipped. }
  split.
  { apply Forall_forall. intros b Hb. apply Forall_forall. intros c Hc Hci.
    assert (Hin : c ∈ py_sorted longer_first (input_chunks_of self trans_inputs)).
    { rewrite <- (batches_concat self fill_up_batches) by done.
      apply elem_of_concat. exists b. by split. }
    rewrite py_sorted_Permutation in Hin.
    assert (Hf : c ∈ fiber IndexedTranslatorInput.input_idx i
                       (input_chunks_of self trans_inputs))
      by (by apply elem_of_fiber).
    rewrite Hnone in Hf. by apply elem_of_nil in Hf. }
  do 5 (split; [done|]). split.
  { intros Hall.
    destruct (translate_all_skipped self trans_inputs fill_up_batches Hbs Hv)
      as (rs & Hrs & HF).
    { eapply Forall_impl; [exact Hall|]. intros y [Hy|Hy]; [by left|right; by left]. }
    exists rs. split; [exact Hrs|]. split; [|exact HF].
    destruct (Forall2_lookup_l _ _ _ i x HF Hi) as (r' & Hr' & Hmk).
    rewrite Hempty in Hmk. by injection Hmk as <-. }
  intros Har.
  destruct (translate_pipeline_groups self (fun _ _ => True) trans_inputs fill_up_batches
              Hbs (arity_contract self Har)) as (translated & Hok & Htranslate & Hgroups).
  exists translated. split; [exact Hok|]. cbn zeta.
  set (group := fun j => fiber input_idx j
                  (py_sorted it_le (bad_empty_of self trans_inputs ++ concat translated)))
    in *.
  assert (Hskip : forall j y, trans_inputs !! j = Some y -> skipped_input self y ->
                    group j = [skipped self j]).
  { intros j y Hj Hy. specialize (Hgroups j). unfold group_spec in Hgroups.
    rewrite Hj in Hgroups. by rewrite decide_True in Hgroups by done. }
  assert (Hg : group i = [skipped self i]) by (by eapply Hskip).
  assert (Hat : forall rs, translate self trans_inputs fill_up_batches = Ok rs ->
                  rs !! i = Some r).
  { intros rs Hrs. rewrite Htranslate in Hrs. apply mapR_Ok_Forall2 in Hrs.
    destruct (Forall2_lookup_l _ _ _ i (i, x) Hrs (lookup_enumerate _ _ _ Hi))
      as (r' & Hr' & Hass).
    cbn in Hass. fold (group i) in Hass. rewrite Hg, Hr in Hass. by injection Hass as <-. }
  split; [exact Hg|]. split; [exact Htranslate|]. split; [exact Hat|]. split.
  - intros e He. rewrite Htranslate in He.
    apply mapR_Raise_first in He as (k & [j y] & Hk & Hass & Hbefore).
    assert (Hjy : trans_inputs !! j = Some y)
      by (by apply elem_of_enumerate, list_elem_of_lookup_2 with k).
    assert (k = j) as ->.
    { apply (f_equal (fmap fst)) in Hk. rewrite <- list_lookup_fmap, fst_enumerate in Hk.
      cbn in Hk. apply lookup_seq in Hk. lia. }
    assert (Hns : ~ skipped_input self y).
    { intros Hy. fold (group j) in Hass.
      rewrite (Hskip j y Hjy Hy), assemble_skipped in Hass.
      destruct (make_result_empty self y (bool_decide (1 < nbest_size self)) Hv)
        as (r' & Hr' & _). by rewrite Hr' in Hass. }
    exists j, y. split; [by intros ->; rewrite Hi in Hjy; injection Hjy as <-|].
    split; [done|]. split; [done|]. split; [exact Hass|].
    intros k' z Hk' Hz.
    exact (Hbefore k' (k', z) Hk' (lookup_enumerate _ _ _ Hz)).
  - intros Hwf.
    destruct (translate_pipeline self (wf_translation self) trans_inputs fill_up_batches
                Hbs Hwf) as (groups & Htranslate' & Hgroups').
    destruct (mapR_is_Ok (fun '(j, y) => assemble self y (groups j))
                (enumerate trans_inputs)) as [rs Hrs].
    { apply Forall_forall. intros [j y] Hin. apply elem_of_enumerate in Hin.
      by eapply assemble_Ok. }
    rewrite <- Htranslate' in Hrs. exists rs. split; [exact Hrs|]. by apply Hat.
Qed.

Lemma translate_bad_or_empty_input_witness :
  exists r,
    assemble (sample_translator 2 3) (new_BadTranslatorInput (StrId "x") [])
             [skipped (sample_translator 2 3) 1] = Ok r
    /\ TranslatorOutput.translation r = EmptyString
    /\ TranslatorOutput.tokens r = []
    /\ TranslatorOutput.score r = neg_infinity
    /\ exists rs,
         translate (sample_translator 2 3)
           [new_TranslatorInput (IntId 0) ["a"; "b"; "c"]%string;
            new_BadTranslatorInput (StrId "x") []] true = Ok rs
         /\ rs !! 1 = Some r.
Proof.
  destruct (translate_bad_or_empty_input (sample_translator 2 3)
              [new_TranslatorInput (IntId 0) ["a"; "b"; "c"]%string;
               new_BadTranslatorInput (StrId "x") []] true 1
              (new_BadTranslatorInput (StrId "x") []))
    as (r & _ & _ & _ & _ & _ & _ & Hr & _ & Htr & Htok & Hsc & _ & Hcall).
  - cbn. lia.
  - done.
  - done.
  - by left.
  - destruct (Hcall (sample_translator_arity 2 3))
      as (translated & _ & _ & _ & _ & _ & Hret).
    destruct (Hret (sample_translator_wf 2 3)) as (rs & Hrs & Hat).
    exists r. split; [exact Hr|]. split; [exact Htr|]. split; [exact Htok|].
    split; [exact Hsc|]. exists rs. by split.
Defined.

(** ** Filling up batches *)

Lemma grouper_whole {A} (l : list A) n :
  l <> [] -> length l <= n -> grouper l n = [l].
Proof.
  intros Hne Hlen. unfold grouper, py_range, range_len.
  assert (0 < length l) by (destruct l; [done|cbn; lia]).
  replace ((length l - 0 + (n - 1)) / n) with 1.
  - cbn. unfold slice. rewrite drop_0. f_equal. apply take_ge. lia.
  - apply Nat.div_unique with (length l - 1); lia.
Qed.

(** The batches are the same with and without filling up. *)
Lemma batches_fill_up self input_chunks :
  1 <= batch_size self ->
  batches self true input_chunks = batches self false input_chunks.
Proof.
  intros Hbs. unfold batches, translate_batch_size, max_batch_size, py_min.
  set (l := py_sorted longer_first input_chunks).
  case_decide; [done|]. destruct l as [|c l'] eqn:Hl; [by rewrite !grouper_nil|].
  rewrite <- Hl in *. rewrite !grouper_whole; [done|by rewrite Hl|lia|by rewrite Hl|lia].
Qed.

Section padding.
Context (self : Translator).

(** The translated chunks of a batch that is filled up: one per chunk of
    the batch, with the translations the search gave at the first places of
    the padded batch; what it gave for the copies is dropped. *)
Lemma translate_batch_fill_up bs batch first :
  one_translation_per_input self ->
  head batch = Some first -> length batch <= bs ->
  exists outs,
    padded_batch true bs batch = Ok (batch ++ replicate (bs - length batch) first)
    /\ _translate_np self
         (batch_restrict_lexicon (self_restrict_lexicon self)
            (IndexedTranslatorInput.translator_input
               <$> batch ++ replicate (bs - length batch) first)).1
         (IndexedTranslatorInput.translator_input
            <$> batch ++ replicate (bs - length batch) first) = Ok outs
    /\ length outs = bs
    /\ translate_batch self true bs batch
       = Ok (zip_with (fun chunk t =>
                         {| input_idx := IndexedTranslatorInput.input_idx chunk;
                            chunk_idx := IndexedTranslatorInput.chunk_idx chunk;
                            translation := t |})
               batch (take (length batch) outs)).
Proof.
  intros Har Hhead Hlen.
  assert (Hpad : padded_batch true bs batch
                 = Ok (batch ++ replicate (bs - length batch) first)).
  { unfold padded_batch. rewrite Hhead. cbn [andb].
    destruct (bool_decide (0 < bs - length batch)) eqn:Hrest; [done|].
    apply bool_decide_eq_false in Hrest.
    replace (bs - length batch) with 0 by lia. cbn. by rewrite app_nil_r. }
  unfold translate_batch. rewrite Hpad. cbn [mbind result_bind andb].
  set (padded := batch ++ replicate (bs - length batch) first).
  assert (Hne : IndexedTranslatorInput.translator_input <$> padded <> []).
  { unfold padded. destruct batch; [done|]. done. }
  rewrite translate_inputs_Ok by done.
  destruct (Har (batch_restrict_lexicon (self_restrict_lexicon self)
                   (IndexedTranslatorInput.translator_input <$> padded)).1
                (IndexedTranslatorInput.translator_input <$> padded) Hne)
    as (outs & Hout & Houts).
  unfold padded in Houts.
  rewrite length_fmap, length_app, length_replicate in Houts.
  exists outs. split; [done|]. split; [exact Hout|]. split; [lia|].
  rewrite Hout. cbn [mbind result_bind].
  f_equal. destruct (bool_decide (0 < bs - length batch)) eqn:Hrest.
  - replace (length outs - (bs - length batch)) with (length batch) by lia.
    unfold padded. rewrite zip_with_app_short; [done|].
    rewrite length_take. lia.
  - apply bool_decide_eq_false in Hrest. unfold padded.
    rewrite zip_with_app_short by lia.
    f_equal. symmetry. apply take_ge. lia.
Qed.

Lemma translate_batch_no_fill bs batch :
  batch <> [] ->
  translate_batch self false bs batch
  = zip_with (fun chunk t =>
                {| input_idx := IndexedTranslatorInput.input_idx chunk;
                   chunk_idx := IndexedTranslatorInput.chunk_idx chunk;
                   translation := t |})
      batch
    <$> _translate_np self
          (batch_restrict_lexicon (self_restrict_lexicon self)
             (IndexedTranslatorInput.translator_input <$> batch)).1
          (IndexedTranslatorInput.translator_input <$> batch).
Proof.
  intros Hne. unfold translate_batch, padded_batch. cbn [andb mbind result_bind].
  rewrite translate_inputs_Ok by (by destruct batch).
  by destruct (_translate_np _ _ _).
Qed.

End padding.

(** A batch whose inputs all name the same lexicon, or all none, keeps its
    restriction lexicon when it is filled up. *)
Lemma uniform_restrict_lexicon self_lex r batch :
  batch <> [] -> Forall (fun x => restrict_lexicon x = r) batch ->
  (batch_restrict_lexicon self_lex batch).1
  = match r with
    | Some l => Some l
    | None => match self_lex with
              | SingleLexicon l => Some l
              | _ => None
              end
    end.
Proof.
  intros Hne Hall. rewrite batch_restrict_lexicon_fst. revert Hne Hall.
  induction batch as [|x batch IH] using rev_ind; [done|]. intros _ Hall.
  apply Forall_app in Hall as [Hall Hx]. rewrite Forall_singleton in Hx.
  rewrite foldl_app. cbn [foldl]. rewrite restrict_lexicon_step_fst, Hx.
  destruct r as [l|]; [done|]. destruct self_lex; [|done..].
  destruct batch as [|y batch] using rev_ind; [done|]. apply IH; [|done].
  by destruct batch.
Qed.

Lemma restrict_lexicon_fill_up self_lex batch first n :
  head batch = Some first ->
  Forall (fun x => restrict_lexicon x = restrict_lexicon first) batch ->
  (batch_restrict_lexicon self_lex (batch ++ replicate n first)).1
  = (batch_restrict_lexicon self_lex batch).1.
Proof.
  intros Hhead Hall.
  rewrite !(uniform_restrict_lexicon self_lex (restrict_lexicon first)); try done.
  - by destruct batch.
  - by destruct batch.
  - apply Forall_app. split; [done|]. apply Forall_forall.
    by intros x [-> _]%elem_of_replicate.
Qed.

(** The restriction lexicon of a batch that ends with copies of its first
    input: the copies come last in the loop of [_get_inference_input], so the
    first input decides, and only for a translator without a lexicon of its
    own does the lexicon of the batch as it was show through. *)
Lemma restrict_lexicon_copies self_lex st first n :
  0 < n ->
  (foldl (restrict_lexicon_step self_lex) st (replicate n first)).1
  = match restrict_lexicon first with
    | Some l => Some l
    | None => match self_lex with
              | NoLexicon => st.1
              | SingleLexicon l => Some l
              | NamedLexicons _ => None
              end
    end.
Proof.
  intros Hn. destruct n as [|n]; [lia|]. clear Hn. revert st.
  induction n as [|n IH]; intros st.
  - cbn [replicate foldl]. apply restrict_lexicon_step_fst.
  - change (replicate (S (S n)) first) with (first :: replicate (S n) first).
    cbn [foldl]. rewrite IH, restrict_lexicon_step_fst.
    destruct (restrict_lexicon first); [done|]. by destruct self_lex.
Qed.

Lemma restrict_lexicon_padded self_lex batch first n :
  0 < n ->
  (batch_restrict_lexicon self_lex (batch ++ replicate n first)).1
  = match restrict_lexicon first with
    | Some l => Some l
    | None => match self_lex with
              | NoLexicon => (batch_restrict_lexicon self_lex batch).1
              | SingleLexicon l => Some l
              | NamedLexicons _ => None
              end
    end.
Proof.
  intros Hn. rewrite !batch_restrict_lexicon_fst, foldl_app.
  by rewrite restrict_lexicon_copies.
Qed.




(** * Further properties *)

(** ** The chunker, chunk by chunk *)

Lemma lookup_enumerate_inv {A} (l : list A) k k' x :
  enumerate l !! k = Some (k', x) -> k' = k /\ l !! k = Some x.
Proof.
  unfold enumerate. intros Hk.
  apply lookup_zip_with_Some in Hk as (a & b & [= -> ->] & Ha & Hb).
  apply lookup_seq in Ha as [-> _]. done.
Qed.

Lemma chunks_lookup self L cs k c :
  chunks self L = Ok cs -> cs !! k = Some c ->
  0 < L /\ k < range_len 0 (length (tokens self)) L /\ c = chunk_at self L k (k * L).
Proof.
  unfold chunks. case_decide as HL; [done|]. intros [= <-] Hk.
  replace (input_len self - num_source_prefix_tokens self)
    with (length (tokens self)) in Hk by (unfold input_len; lia).
  rewrite list_lookup_fmap in Hk.
  destruct (enumerate _ !! k) as [[k' i]|] eqn:He; [|done]. injection Hk as <-.
  apply lookup_enumerate_inv in He as [-> He].
  unfold py_range in He. rewrite list_lookup_fmap in He.
  destruct (seq 0 _ !! k) as [j|] eqn:Hj; [|done]. injection He as <-.
  apply lookup_seq in Hj as [-> Hlt]. cbn in Hlt.
  split; [lia|]. split; [done|]. done.
Qed.

Lemma chunks_length self L cs :
  chunks self L = Ok cs -> length cs = range_len 0 (length (tokens self)) L.
Proof.
  unfold chunks. case_decide as HL; [done|]. intros [= <-].
  replace (input_len self - num_source_prefix_tokens self)
    with (length (tokens self)) by (unfold input_len; lia).
  unfold py_range. by rewrite length_fmap, length_enumerate, length_fmap, length_seq.
Qed.

Lemma range_len_full stop step k :
  0 < step -> k + 1 < range_len 0 stop step -> k * step + step < stop.
Proof.
  intros Hs Hk. apply range_len_lt in Hk as [_ Hk]. lia.
Qed.

Lemma chunk_at_tokens self L k :
  k < range_len 0 (length (tokens self)) L ->
  tokens (chunk_at self L k (k * L)) = take L (drop (k * L) (tokens self))
  /\ 1 <= length (tokens (chunk_at self L k (k * L))) <= L.
Proof.
  intros Hlt. cbn [tokens chunk_at]. unfold slice.
  replace (k * L + L - k * L) with L by lia. split; [done|].
  rewrite length_take, length_drop.
  pose proof (range_len_lt _ _ _ Hlt) as [HL Hin]. lia.
Qed.

(** X1. For a chunk size [L >= 1], [chunks] cuts the [J] tokens of a request
    into [ceil(J / L)] chunks: chunk [k] holds the tokens from place [k * L]
    on, [L] of them except for the last chunk, which holds what is left, and
    no chunk is without tokens. *)
Theorem chunks_sizes (self : TranslatorInput) (L : nat) :
  1 <= L ->
  exists cs, chunks self L = Ok cs
    /\ length cs = (length (tokens self) + (L - 1)) / L
    /\ forall k c, cs !! k = Some c ->
         tokens c = take L (drop (k * L) (tokens self))
         /\ 1 <= length (tokens c)
         /\ (k + 1 < length cs -> length (tokens c) = L)
         /\ (k + 1 = length cs -> length (tokens c) = length (tokens self) - k * L).
Proof.
  intros HL. destruct (chunks self L) as [cs|e] eqn:Hcs.
  2:{ rewrite chunks_Ok in Hcs by lia. done. }
  exists cs. split; [done|]. pose proof (chunks_length _ _ _ Hcs) as Hlen.
  split; [rewrite Hlen; unfold range_len; by rewrite Nat.sub_0_r|].
  intros k c Hk. destruct (chunks_lookup _ _ _ _ _ Hcs Hk) as (_ & Hlt & ->).
  destruct (chunk_at_tokens self L k Hlt) as [Htk Hbounds]. rewrite Htk in *.
  rewrite length_take, length_drop in *.
  pose proof (range_len_lt _ _ _ Hlt) as [_ Hin].
  split; [done|]. split; [lia|]. split.
  - intros Hnext. rewrite Hlen in Hnext. apply range_len_full in Hnext; lia.
  - intros Hlast. rewrite Hlen in Hlast.
    pose proof (range_len_covers (length (tokens self)) L ltac:(lia)) as Hc.
    rewrite <- Hlast in Hc. lia.
Qed.

Lemma chunks_sizes_witness :
  exists cs, chunks factored_request 2 = Ok cs
    /\ length cs = 3
    /\ forall k c, cs !! k = Some c ->
         tokens c = take 2 (drop (k * 2) (tokens factored_request))
         /\ 1 <= length (tokens c)
         /\ (k + 1 < length cs -> length (tokens c) = 2)
         /\ (k + 1 = length cs -> length (tokens c) = 5 - k * 2).
Proof. apply (chunks_sizes factored_request 2). lia. Defined.

(** X2. What a chunk takes over from its request: the sentence id, the
    source prefix, the segment durations, both target prefix flags, the
    restriction lexicon and the avoid list go to every chunk; the
    constraints and the pass-through dictionary go to the first chunk only;
    and a chunk is a plain input, never a bad one. *)
Theorem chunks_attributes (self : TranslatorInput) (L : nat) cs k c :
  chunks self L = Ok cs -> cs !! k = Some c ->
  is_bad c = false
  /\ sentence_id c = sentence_id self
  /\ source_prefix_tokens c = source_prefix_tokens self
  /\ source_prefix_factors c = source_prefix_factors self
  /\ target_segment_durations c = target_segment_durations self
  /\ use_target_prefix_all_chunks c = use_target_prefix_all_chunks self
  /\ keep_target_prefix_key c = keep_target_prefix_key self
  /\ restrict_lexicon c = restrict_lexicon self
  /\ avoid_list c = avoid_list self
  /\ constraints c = (if decide (k = 0) then constraints self else None)
  /\ pass_through_dict c = (if decide (k = 0) then pass_through_dict self else None).
Proof.
  intros Hcs Hk. destruct (chunks_lookup _ _ _ _ _ Hcs Hk) as (_ & _ & ->).
  by repeat split.
Qed.

Lemma chunks_attributes_witness :
  chunks constrained_request 2
  = Ok [chunk_at constrained_request 2 0 0; chunk_at constrained_request 2 1 2]
  /\ constraints (chunk_at constrained_request 2 0 0) = Some [["x"]%string]
  /\ constraints (chunk_at constrained_request 2 1 2) = None
  /\ pass_through_dict (chunk_at constrained_request 2 1 2) = None
  /\ avoid_list (chunk_at constrained_request 2 1 2) = Some [["y"]%string].
Proof.
  assert (Hcs : chunks constrained_request 2
                = Ok [chunk_at constrained_request 2 0 0;
                      chunk_at constrained_request 2 1 2]) by reflexivity.
  split; [exact Hcs|].
  pose proof (chunks_attributes constrained_request 2 _ 0 _ Hcs eq_refl) as H0.
  pose proof (chunks_attributes constrained_request 2 _ 1 _ Hcs eq_refl) as H1.
  split; [apply H0|]. split; [apply H1|]. split; [apply H1|]. apply H1.
Defined.

(** ** What [translate] hands to the search *)

Lemma with_eos_input_len eos x :
  input_len (with_eos eos x) = input_len x + 1.
Proof.
  unfold input_len, num_source_prefix_tokens, get_source_prefix_tokens.
  cbn [with_eos tokens source_prefix_tokens]. rewrite length_app. cbn [length]. lia.
Qed.

(** The chunks one input adds: plain inputs that end with the end-of-sentence
    symbol after at least one token and fit the maximum input length. *)
Lemma input_parts_fit self i trans_input ci :
  ci ∈ (input_parts self i trans_input).2 ->
  let x := IndexedTranslatorInput.translator_input ci in
  IndexedTranslatorInput.input_idx ci = i
  /\ is_bad x = false
  /\ sentence_id x = sentence_id trans_input
  /\ (exists body, body <> [] /\ tokens x = body ++ [EOS_SYMBOL (C self)])
  /\ (Z.of_nat (input_len x) <= max_input_length self + 1)%Z.
Proof.
  unfold input_parts, split_input.
  destruct (is_bad trans_input) eqn:Hbad; [by intros ?%elem_of_nil|].
  case_decide as Htok; [by intros ?%elem_of_nil|].
  case_decide as Hmax; [by intros ?%elem_of_nil|].
  set (L := (max_input_length self - Z.of_nat (num_source_prefix_tokens trans_input))%Z) in *.
  case_decide as Hover.
  - destruct (chunks trans_input (Z.to_nat L)) as [cs|e] eqn:Hcs.
    2:{ rewrite chunks_Ok in Hcs by lia. done. }
    cbn [mbind result_bind snd]. intros Hci.
    apply list_elem_of_fmap in Hci as ([k c'] & -> & Hin).
    apply list_elem_of_lookup in Hin as [j Hj].
    apply lookup_enumerate_inv in Hj as [_ Hj]. rewrite list_lookup_fmap in Hj.
    destruct (cs !! j) as [c|] eqn:Hc; [|done]. injection Hj as <-.
    cbn [IndexedTranslatorInput.translator_input IndexedTranslatorInput.input_idx].
    destruct (chunks_lookup _ _ _ _ _ Hcs Hc) as (_ & Hlt & ->).
    destruct (chunk_at_tokens trans_input (Z.to_nat L) j Hlt) as [_ [Hpos Hle]].
    set (c := chunk_at trans_input (Z.to_nat L) j (j * Z.to_nat L)) in *.
    split; [done|]. split; [done|]. split; [done|]. split.
    + exists (tokens c). split; [|done].
      intros Hnil. rewrite Hnil in Hpos. cbn in Hpos. lia.
    + rewrite with_eos_input_len.
      change (input_len c) with (length (tokens c) + num_source_prefix_tokens trans_input).
      lia.
  - cbn [snd]. intros ->%list_elem_of_singleton.
    cbn [IndexedTranslatorInput.translator_input IndexedTranslatorInput.input_idx].
    split; [done|]. split; [done|]. split; [done|]. split.
    + exists (tokens trans_input). split; [by destruct (tokens trans_input)|done].
    + rewrite with_eos_input_len. unfold input_len. lia.
Qed.

Lemma elem_of_slice {A} (l : list A) i j x : x ∈ slice l i j -> x ∈ l.
Proof.
  unfold slice. intros Hx.
  apply list_elem_of_lookup in Hx as [k Hk].
  apply lookup_take_Some in Hk as [Hk _]. rewrite lookup_drop in Hk.
  by eapply list_elem_of_lookup_2.
Qed.

(** X3. Whatever the inputs, every chunk that the first loop of [translate]
    readies for the search belongs to an input of the call, is a plain input
    with that input's sentence id, ends with the end-of-sentence symbol after
    at least one token, and with its source prefix and that symbol is no
    longer than [max_input_length + 1]; and the batches hold such chunks
    only. *)
Theorem translate_sends_fitting_chunks (self : Translator)
  (trans_inputs : list TranslatorInput) (fill_up_batches : bool) :
  exists translated_chunks input_chunks,
    split_inputs self trans_inputs = Ok (translated_chunks, input_chunks)
    /\ Forall (fun ci =>
         exists trans_input,
           trans_inputs !! IndexedTranslatorInput.input_idx ci = Some trans_input
           /\ is_bad (IndexedTranslatorInput.translator_input ci) = false
           /\ sentence_id (IndexedTranslatorInput.translator_input ci)
              = sentence_id trans_input
           /\ (exists body, body <> []
                 /\ tokens (IndexedTranslatorInput.translator_input ci)
                    = body ++ [EOS_SYMBOL (C self)])
           /\ (Z.of_nat (input_len (IndexedTranslatorInput.translator_input ci))
               <= max_input_length self + 1)%Z) input_chunks
    /\ Forall (Forall (fun ci => ci ∈ input_chunks))
              (batches self fill_up_batches input_chunks).
Proof.
  exists (bad_empty_of self trans_inputs), (input_chunks_of self trans_inputs).
  split; [apply split_inputs_Ok|]. split.
  - apply Forall_forall. intros ci Hci. unfold input_chunks_of in Hci.
    apply elem_of_concat in Hci as (part & Hci & Hpart).
    apply list_elem_of_fmap in Hpart as ([i x] & -> & Hix).
    apply elem_of_enumerate in Hix.
    destruct (input_parts_fit self i x ci Hci) as (Hidx & Hbad & Hid & Heos & Hlen).
    exists x. rewrite Hidx. done.
  - unfold batches, grouper. apply Forall_fmap, Forall_forall. intros k _.
    apply Forall_forall. intros ci Hci. apply elem_of_slice in Hci.
    by rewrite py_sorted_Permutation in Hci.
Qed.

(** ** Every result comes from its own input *)

(** X4. With a batch size of at least one and a search that keeps a contract
    [P] between each input of a batch and its translation, whatever the batch
    and the lexicon: when [translate] returns, the result at index [i] is
    the empty result for an input that is not translated, and otherwise it
    is assembled from translations, by [P], of the chunks of input [i]
    itself, one per chunk and in chunk order. *)
Theorem translate_results_from_own_chunks (self : Translator)
  (P : TranslatorInput -> Translation -> Prop)
  (trans_inputs : list TranslatorInput) (fill_up_batches : bool)
  (rs : list TranslatorOutput.t) :
  1 <= batch_size self ->
  scorer_contract self P ->
  translate self trans_inputs fill_up_batches = Ok rs ->
  forall i x, trans_inputs !! i = Some x ->
    exists r, rs !! i = Some r
      /\ if decide (skipped_input self x)
         then split_input self i x = Ok ([skipped self i], [])
              /\ _make_result self x (empty_translation (bool_decide (1 < nbest_size self)))
                 = Ok r
         else exists ics tcs,
                split_input self i x = Ok ([], ics)
                /\ Forall2 (fun ci tc =>
                      input_idx tc = i
                      /\ chunk_idx tc = IndexedTranslatorInput.chunk_idx ci
                      /\ P (IndexedTranslatorInput.translator_input ci) (translation tc))
                    ics tcs
                /\ assemble self x tcs = Ok r.
Proof.
  intros Hbs HP Hrs i x Hi.
  destruct (translate_pipeline self P trans_inputs fill_up_batches Hbs HP)
    as (groups & Htranslate & Hgroups).
  rewrite Htranslate in Hrs. apply mapR_Ok_Forall2 in Hrs.
  destruct (Forall2_lookup_l _ _ _ i (i, x) Hrs (lookup_enumerate _ _ _ Hi))
    as (r & Hr & Hass).
  cbn in Hass. exists r. split; [done|].
  specialize (Hgroups i). unfold group_spec in Hgroups. rewrite Hi in Hgroups.
  case_decide as Hs.
  - rewrite Hgroups, assemble_skipped in Hass.
    split; [|done]. by rewrite split_input_Ok, input_parts_skipped.
  - destruct Hgroups as (ics & Hparts & Hne & Hall).
    exists ics, (groups i). split; [by rewrite split_input_Ok, Hparts|].
    split; [|done].
    apply Forall2_same_length_lookup. split; [by eapply Forall2_length|].
    intros k ci tc Hci Htc.
    destruct (Forall2_lookup_lr _ _ _ _ _ _ Hall Hci Htc) as (Hidx & Hcidx & HPci).
    split; [|done]. rewrite Hidx.
    assert (Hin : ci ∈ (input_parts self i x).2).
    { rewrite Hparts. by eapply list_elem_of_lookup_2. }
    by apply (input_parts_idx self i x).
Qed.

Lemma translate_results_from_own_chunks_witness :
  1 <= batch_size (sample_translator 2 3)
  /\ exists rs,
       translate (sample_translator 2 3) sample_inputs true = Ok rs
       /\ forall i x, sample_inputs !! i = Some x ->
            exists r, rs !! i = Some r
              /\ if decide (skipped_input (sample_translator 2 3) x)
                 then split_input (sample_translator 2 3) i x
                      = Ok ([skipped (sample_translator 2 3) i], [])
                      /\ _make_result (sample_translator 2 3) x
                           (empty_translation
                              (bool_decide (1 < nbest_size (sample_translator 2 3))))
                         = Ok r
                 else exists ics tcs,
                        split_input (sample_translator 2 3) i x = Ok ([], ics)
                        /\ Forall2 (fun ci tc =>
                              input_idx tc = i
                              /\ chunk_idx tc = IndexedTranslatorInput.chunk_idx ci
                              /\ True)
                            ics tcs
                        /\ assemble (sample_translator 2 3) x tcs = Ok r.
Proof.
  assert (H1 : 1 <= batch_size (sample_translator 2 3)) by (cbn; lia).
  split; [exact H1|].
  destruct (translate (sample_translator 2 3) sample_inputs true) as [rs|e] eqn:Hrs.
  - exists rs. split; [reflexivity|].
    exact (translate_results_from_own_chunks (sample_translator 2 3) (fun _ _ => True)
             sample_inputs true rs H1
             (arity_contract _ (sample_translator_arity 2 3)) Hrs).
  - vm_compute in Hrs. discriminate Hrs.
Defined.

(** ** N-best lists: collapsing and expanding *)

Lemma zip_fmap_same {A B C'} (f : A -> B) (g : A -> C') (l : list A) :
  zip (f <$> l) (g <$> l) = (fun x => (f x, g x)) <$> l.
Proof. induction l as [|x l IH]; [done|]. cbn. by rewrite IH. Qed.

(** X5. Collapsing a non-empty list of hypotheses into one translation with
    an n-best list and expanding it again gives back the hypotheses in order,
    each with its target ids and scores; the n-best lists the hypotheses had
    themselves are gone, and all carry the reference length of the first.
    The collapsed translation itself shows the first hypothesis. *)
Theorem expand_reduce_nbest_translations (best : Translation) (others : list Translation) :
  exists t,
    _reduce_nbest_translations (best :: others) = Ok t
    /\ target_ids t = target_ids best
    /\ scores t = scores best
    /\ estimated_reference_length t = estimated_reference_length best
    /\ _expand_nbest_translation t
       = Ok ((fun h => {| target_ids := target_ids h;
                          scores := scores h;
                          nbest_translations := None;
                          estimated_reference_length :=
                            estimated_reference_length best |})
               <$> best :: others).
Proof.
  eexists. split; [reflexivity|]. do 3 (split; [reflexivity|]).
  unfold _expand_nbest_translation.
  cbn [nbest_translations NBestTranslations.target_ids_list NBestTranslations.scores
       estimated_reference_length].
  rewrite (zip_fmap_same target_ids scores (best :: others)).
  by rewrite <- list_fmap_compose.
Qed.

(** X6. The other way round: a translation whose n-best list has as many
    score lists as hypotheses, at least one, and shows its first hypothesis
    as its own target ids and scores, is given back as it is by expanding
    and collapsing. *)
Theorem reduce_expand_nbest_translation (t : Translation) (nb : NBestTranslations.t) :
  nbest_translations t = Some nb ->
  length (NBestTranslations.target_ids_list nb) = length (NBestTranslations.scores nb) ->
  head (NBestTranslations.target_ids_list nb) = Some (target_ids t) ->
  head (NBestTranslations.scores nb) = Some (scores t) ->
  exists row, _expand_nbest_translation t = Ok row
    /\ length row = length (NBestTranslations.target_ids_list nb)
    /\ _reduce_nbest_translations row = Ok t.
Proof.
  intros Hnb Hlen Hids Hsc. unfold _expand_nbest_translation. rewrite Hnb.
  eexists. split; [reflexivity|]. split.
  { rewrite length_fmap, length_zip_with. lia. }
  destruct t as [ids sc nbt erl], nb as [idl scl]. cbn in *. subst nbt.
  destruct idl as [|ids0 idl], scl as [|sc0 scl]; try done.
  cbn in Hids, Hsc. injection Hids as ->. injection Hsc as ->.
  cbn [zip zip_with fmap list_fmap _reduce_nbest_translations target_ids scores
       estimated_reference_length].
  rewrite <- !list_fmap_compose.
  rewrite (list_fmap_ext _ fst (zip idl scl)) by (by intros i [a b] _).
  rewrite (list_fmap_ext _ snd (zip idl scl)) by (by intros i [a b] _).
  rewrite fst_zip, snd_zip by (cbn in Hlen; lia). done.
Qed.

Lemma reduce_expand_nbest_translation_witness :
  exists row,
    _expand_nbest_translation
      {| target_ids := [[4%Z]]; scores := [(-0.5)%float];
         nbest_translations :=
           Some (NBestTranslations.mk [[[4%Z]]; [[5%Z]]] [[(-0.5)%float]; [(-1.5)%float]]);
         estimated_reference_length := None |} = Ok row
    /\ length row = 2
    /\ _reduce_nbest_translations row
       = Ok {| target_ids := [[4%Z]]; scores := [(-0.5)%float];
               nbest_translations :=
                 Some (NBestTranslations.mk [[[4%Z]]; [[5%Z]]]
                         [[(-0.5)%float]; [(-1.5)%float]]);
               estimated_reference_length := None |}.
Proof.
  apply (reduce_expand_nbest_translation
           {| target_ids := [[4%Z]]; scores := [(-0.5)%float];
              nbest_translations :=
                Some (NBestTranslations.mk [[[4%Z]]; [[5%Z]]]
                        [[(-0.5)%float]; [(-1.5)%float]]);
              estimated_reference_length := None |}
           (NBestTranslations.mk [[[4%Z]]; [[5%Z]]] [[(-0.5)%float]; [(-1.5)%float]]));
    reflexivity.
Defined.

(** ** The chunk reassembler in closed form *)

Lemma concat_step_inv stop_ids scorer n ids0 erl0 sc0 idx t ids erl sc :
  concat_step stop_ids scorer n (ids0, erl0, sc0) (idx, t) = Ok (ids, erl, sc) ->
  ids = ids0 ++ (if decide (idx = n - 1) then target_ids t
                 else without_trailing_stop stop_ids (target_ids t))
  /\ erl = add_reference_length erl0 (estimated_reference_length t)
  /\ np_add sc0 (raw_scores scorer t) = Ok sc.
Proof.
  unfold concat_step, without_trailing_stop, raw_scores, add_reference_length.
  case_decide as Hidx.
  - cbn [mbind result_bind]. destruct (scores t) as [|s fs]; [done|].
    destruct (np_add _ _) as [sc'|]; [|done]. cbn. intros [= <- <- <-].
    by destruct (estimated_reference_length t).
  - destruct (last (target_ids t)) as [token|]; [|done]. cbn [mbind option_bind].
    destruct (head token) as [w|]; [|done].
    case_decide; cbn [mbind result_bind];
      (destruct (scores t) as [|s fs]; [done|]);
      (destruct (np_add _ _) as [sc'|]; [|done]); cbn; intros [= <- <- <-];
      by destruct (estimated_reference_length t).
Qed.

Lemma concat_loop stop_ids scorer n l k0 ids0 erl0 sc0 ids erl sc :
  foldR (concat_step stop_ids scorer n) (ids0, erl0, sc0) (zip (seq k0 (length l)) l)
  = Ok (ids, erl, sc) ->
  ids = ids0 ++ concat (imap (fun i c =>
                                if decide (k0 + i = n - 1) then target_ids c
                                else without_trailing_stop stop_ids (target_ids c)) l)
  /\ erl = foldl add_reference_length erl0 (estimated_reference_length <$> l)
  /\ foldR (fun s c => np_add s (raw_scores scorer c)) sc0 l = Ok sc.
Proof.
  revert k0 ids0 erl0 sc0. induction l as [|c l IH]; intros k0 ids0 erl0 sc0.
  - cbn. intros [= <- <- <-]. by rewrite app_nil_r.
  - cbn [length seq zip zip_with foldR].
    destruct (concat_step _ _ _ _ _) as [[[ids1 erl1] sc1]|] eqn:Hstep; [|done].
    cbn [mbind result_bind]. intros Hrest.
    apply concat_step_inv in Hstep as (-> & -> & Hsc1).
    apply IH in Hrest as (-> & -> & Hsc).
    rewrite Hsc1. cbn [mbind result_bind]. split; [|done].
    rewrite imap_cons. cbn [concat]. rewrite <- app_assoc, Nat.add_0_r.
    do 3 f_equal. apply imap_ext. intros i x _. cbn.
    by rewrite Nat.add_succ_r.
Qed.

Lemma concat_translations_inv ts stop_ids scorer t :
  2 <= length ts ->
  _concat_translations ts stop_ids scorer = Ok t ->
  exists sc s0 rest,
    foldR (fun s c => np_add s (raw_scores scorer c))
          ((fun _ => 0%float) <$> default [] (scores <$> head ts)) ts = Ok sc
    /\ sc = s0 :: rest
    /\ target_ids t
       = concat (imap (fun i c =>
                         if decide (i = length ts - 1) then target_ids c
                         else without_trailing_stop stop_ids (target_ids c)) ts)
    /\ estimated_reference_length t
       = foldl add_reference_length None (estimated_reference_length <$> ts)
    /\ scores t = scorer_call scorer s0 (length (target_ids t))
                    (estimated_reference_length t) :: rest
    /\ nbest_translations t = None.
Proof.
  intros Hlen. destruct ts as [|t0 [|t1 ts]]; [cbn in Hlen; lia..|].
  unfold _concat_translations.
  destruct (foldR _ _ _) as [[[ids erl] sc]|] eqn:Hf; [|done].
  cbn [mbind result_bind]. destruct sc as [|s0 rest]; [done|]. intros [= <-].
  apply (concat_loop _ _ _ _ 0) in Hf as (-> & -> & Hsc).
  exists (s0 :: rest), s0, rest. cbn [head fmap option_fmap option_map default].
  split; [exact Hsc|]. split; [done|]. by repeat split.
Qed.

(** X7. When [_concat_translations] returns for two or more chunks, the
    target ids of the result are those of the chunks in order, each chunk
    but the last without its last token when that is a stop token, the last
    chunk in full; and the result has no n-best list. *)
Theorem concat_translations_target_ids (ts : list Translation) (stop_ids : gset Z)
  (scorer : CandidateScorer) (t : Translation) :
  2 <= length ts ->
  _concat_translations ts stop_ids scorer = Ok t ->
  target_ids t
  = concat (imap (fun i c =>
                    if decide (i = length ts - 1) then target_ids c
                    else without_trailing_stop stop_ids (target_ids c)) ts)
  /\ nbest_translations t = None.
Proof.
  intros Hlen Ht.
  destruct (concat_translations_inv _ _ _ _ Hlen Ht)
    as (sc & s0 & rest & _ & _ & Hids & _ & _ & Hnb).
  done.
Qed.

Lemma concat_translations_target_ids_witness :
  2 <= length [translation_of [[4%Z]; [3%Z]]; translation_of [[5%Z]; [3%Z]]]
  /\ exists t,
       _concat_translations [translation_of [[4%Z]; [3%Z]]; translation_of [[5%Z]; [3%Z]]]
                            {[ 3%Z; PAD_ID ]} plain_scorer = Ok t
       /\ target_ids t = [[4%Z]; [5%Z]; [3%Z]].
Proof.
  assert (H2 : 2 <= length [translation_of [[4%Z]; [3%Z]];
                            translation_of [[5%Z]; [3%Z]]]) by (cbn; lia).
  split; [exact H2|].
  destruct (_concat_translations
              [translation_of [[4%Z]; [3%Z]]; translation_of [[5%Z]; [3%Z]]]
              {[ 3%Z; PAD_ID ]} plain_scorer) as [t|e] eqn:Ht.
  - exists t. split; [reflexivity|].
    rewrite (proj1 (concat_translations_target_ids _ _ _ _ H2 Ht)).
    vm_compute. reflexivity.
  - vm_compute in Ht. discriminate Ht.
Defined.

Lemma foldl_add_reference_length acc (l : list (option float)) :
  foldl add_reference_length acc l
  = match acc with
    | None => sum_reference_lengths (omap id l)
    | Some a => Some (foldl PrimFloat.add a (omap id l))
    end.
Proof.
  revert acc. induction l as [|[e|] l IH]; intros acc; cbn [foldl].
  - by destruct acc.
  - rewrite IH. by destruct acc.
  - rewrite IH. by destruct acc.
Qed.

Lemma omap_id_fmap {A B} (f : A -> option B) (l : list A) :
  omap id (f <$> l) = omap f l.
Proof.
  induction l as [|x l IH]; [done|]. cbn. rewrite IH. by destruct (f x).
Qed.

(** X8. When [_concat_translations] returns for two or more chunks, the
    estimated reference length of the result is the sum, from the first
    chunk to the last, of the reference lengths of the chunks that have one;
    it is none exactly when no chunk has one. *)
Theorem concat_translations_reference_length (ts : list Translation)
  (stop_ids : gset Z) (scorer : CandidateScorer) (t : Translation) :
  2 <= length ts ->
  _concat_translations ts stop_ids scorer = Ok t ->
  estimated_reference_length t
  = sum_reference_lengths (omap estimated_reference_length ts)
  /\ (estimated_reference_length t = None
      <-> Forall (fun c => estimated_reference_length c = None) ts).
Proof.
  intros Hlen Ht.
  destruct (concat_translations_inv _ _ _ _ Hlen Ht)
    as (sc & s0 & rest & _ & _ & _ & Herl & _).
  rewrite foldl_add_reference_length, omap_id_fmap in Herl.
  split; [done|]. rewrite Herl. clear. induction ts as [|c ts IH].
  - split; [constructor|done].
  - cbn [omap list_omap]. destruct (estimated_reference_length c) eqn:Hc.
    + split; [done|]. intros Hall. apply Forall_inv in Hall. congruence.
    + rewrite IH. split; [by constructor|]. by intros ?%Forall_inv_tail.
Qed.

Lemma concat_translations_reference_length_witness :
  2 <= length [translation_of [[4%Z]; [3%Z]]; translation_of [[5%Z]; [3%Z]]]
  /\ exists t,
       _concat_translations [translation_of [[4%Z]; [3%Z]]; translation_of [[5%Z]; [3%Z]]]
                            {[ 3%Z; PAD_ID ]} plain_scorer = Ok t
       /\ estimated_reference_length t = None.
Proof.
  assert (H2 : 2 <= length [translation_of [[4%Z]; [3%Z]];
                            translation_of [[5%Z]; [3%Z]]]) by (cbn; lia).
  split; [exact H2|].
  destruct (_concat_translations
              [translation_of [[4%Z]; [3%Z]]; translation_of [[5%Z]; [3%Z]]]
              {[ 3%Z; PAD_ID ]} plain_scorer) as [t|e] eqn:Ht.
  - exists t. split; [reflexivity|].
    rewrite (proj1 (concat_translations_reference_length _ _ _ _ H2 Ht)).
    reflexivity.
  - vm_compute in Ht. discriminate Ht.
Defined.

Lemma foldR_np_add {X} (f : X -> list float) (l : list X) (s0 : list float) :
  Forall (fun x => length (f x) = length s0) l ->
  foldR (fun s x => np_add s (f x)) s0 l = Ok (foldl (fun s x => zip_with PrimFloat.add s (f x)) s0 l).
Proof.
  revert s0. induction l as [|x l IH]; intros s0 Hall; [done|].
  apply Forall_cons in Hall as [Hx Hall]. cbn [foldR foldl].
  rewrite np_add_same_length by done. cbn [mbind result_bind]. apply IH.
  eapply Forall_impl; [exact Hall|]. intros y Hy. cbn in *.
  rewrite length_zip_with. lia.
Qed.

Lemma foldl_zip_with_add_lookup {X} (f : X -> list float) (l : list X)
  (s0 : list float) (j : nat) (a : float) :
  Forall (fun x => length (f x) = length s0) l ->
  s0 !! j = Some a ->
  foldl (fun s x => zip_with PrimFloat.add s (f x)) s0 l !! j
  = Some (foldl PrimFloat.add a ((fun x => default 0%float (f x !! j)) <$> l)).
Proof.
  revert s0 a. induction l as [|x l IH]; intros s0 a Hall Ha; [done|].
  apply Forall_cons in Hall as [Hx Hall]. cbn [foldl fmap list_fmap].
  destruct (lookup_lt_is_Some_2 (f x) j) as [b Hb].
  { rewrite Hx. by eapply lookup_lt_Some. }
  rewrite Hb. cbn [default]. apply IH.
  - eapply Forall_impl; [exact Hall|]. intros y Hy. cbn in *.
    rewrite length_zip_with. lia.
  - apply lookup_zip_with_Some. by exists a, b.
Qed.

Lemma foldl_zip_with_add_length {X} (f : X -> list float) (l : list X) (s0 : list float) :
  Forall (fun x => length (f x) = length s0) l ->
  length (foldl (fun s x => zip_with PrimFloat.add s (f x)) s0 l) = length s0.
Proof.
  revert s0. induction l as [|x l IH]; intros s0 Hall; [done|].
  apply Forall_cons in Hall as [Hx Hall]. cbn [foldl]. rewrite IH.
  - rewrite length_zip_with. lia.
  - eapply Forall_impl; [exact Hall|]. intros y Hy. cbn in *.
    rewrite length_zip_with. lia.
Qed.

Lemma raw_scores_length scorer t : length (raw_scores scorer t) = length (scores t).
Proof. unfold raw_scores. by destruct (scores t). Qed.

(** X9. When [_concat_translations] returns for two or more chunks that all
    have the same number [F >= 1] of scores, the result has [F] scores too:
    its primary score is what the scorer makes, for the length and the
    reference length of the result, of the sum of the chunks' primary scores
    taken back to raw scores, each for its own length and reference length;
    and each secondary score is the sum of the chunks' secondary scores at
    its place. The sums start from zero and run from the first chunk to the
    last. *)
Theorem concat_translations_scores (ts : list Translation) (stop_ids : gset Z)
  (scorer : CandidateScorer) (t : Translation) (F : nat) :
  2 <= length ts -> 1 <= F ->
  Forall (fun c => length (scores c) = F) ts ->
  _concat_translations ts stop_ids scorer = Ok t ->
  exists rest,
    scores t
    = scorer_call scorer
        (foldl PrimFloat.add 0%float
           ((fun c => unnormalize scorer (default 0%float (head (scores c)))
                        (length (target_ids c)) (estimated_reference_length c))
              <$> ts))
        (length (target_ids t)) (estimated_reference_length t)
      :: rest
    /\ length rest = F - 1
    /\ forall j, j < F - 1 ->
         rest !! j
         = Some (foldl PrimFloat.add 0%float
                   ((fun c => default 0%float (scores c !! S j)) <$> ts)).
Proof.
  intros Hlen HF Hall Ht.
  destruct (concat_translations_inv _ _ _ _ Hlen Ht)
    as (sc & s0 & rest & Hsc & -> & _ & _ & Hscores & _).
  destruct ts as [|t0 ts]; [cbn in Hlen; lia|].
  change (default [] (scores <$> head (t0 :: ts))) with (scores t0) in Hsc.
  set (zeros := (fun _ : float => 0%float) <$> scores t0) in *.
  assert (Hz : length zeros = F).
  { unfold zeros. rewrite length_fmap. by apply Forall_inv in Hall. }
  assert (Hrows : Forall (fun c => length (raw_scores scorer c) = length zeros)
                         (t0 :: ts)).
  { eapply Forall_impl; [exact Hall|]. intros c Hc. cbn in *.
    by rewrite raw_scores_length, Hz. }
  rewrite (foldR_np_add (raw_scores scorer)) in Hsc by done.
  set (total := foldl _ zeros (t0 :: ts)) in Hsc.
  assert (Htotal : total = s0 :: rest) by congruence. clear Hsc.
  assert (Hcol : forall j, j < F ->
            (s0 :: rest) !! j
            = Some (foldl PrimFloat.add 0%float
                      ((fun c => default 0%float (raw_scores scorer c !! j))
                         <$> t0 :: ts))).
  { intros j Hj. rewrite <- Htotal. apply foldl_zip_with_add_lookup; [done|].
    unfold zeros. rewrite list_lookup_fmap.
    destruct (lookup_lt_is_Some_2 (scores t0) j) as [b Hb].
    { apply Forall_inv in Hall. lia. }
    by rewrite Hb. }
  assert (Hl : length (s0 :: rest) = F).
  { rewrite <- Htotal. unfold total. by rewrite foldl_zip_with_add_length. }
  exists rest. split; [|split].
  - rewrite Hscores. f_equal. f_equal.
    pose proof (Hcol 0 ltac:(lia)) as H0.
    change ((s0 :: rest) !! 0) with (Some s0) in H0.
    assert (Hs0 : s0 = foldl PrimFloat.add 0%float
                         ((fun c => default 0%float (raw_scores scorer c !! 0))
                            <$> t0 :: ts)) by congruence.
    rewrite Hs0. f_equal. apply list_fmap_ext. intros i c Hc.
    rewrite Forall_lookup in Hall. specialize (Hall i c Hc). cbn in Hall.
    unfold raw_scores. destruct (scores c); [cbn in Hall; lia|done].
  - cbn in Hl. lia.
  - intros j Hj. pose proof (Hcol (S j) ltac:(lia)) as Hj'.
    change ((s0 :: rest) !! S j) with (rest !! j) in Hj'.
    rewrite Hj'. do 2 f_equal. apply list_fmap_ext. intros i c _.
    unfold raw_scores. by destruct (scores c).
Qed.

Lemma concat_translations_scores_witness :
  2 <= length [translation_of [[4%Z]; [3%Z]]; translation_of [[5%Z]; [3%Z]]]
  /\ exists t rest,
       _concat_translations [translation_of [[4%Z]; [3%Z]]; translation_of [[5%Z]; [3%Z]]]
                            {[ 3%Z; PAD_ID ]} plain_scorer = Ok t
       /\ scores t = (0 + 0 + 0)%float :: rest
       /\ length rest = 0.
Proof.
  assert (H2 : 2 <= length [translation_of [[4%Z]; [3%Z]];
                            translation_of [[5%Z]; [3%Z]]]) by (cbn; lia).
  split; [exact H2|].
  destruct (_concat_translations
              [translation_of [[4%Z]; [3%Z]]; translation_of [[5%Z]; [3%Z]]]
              {[ 3%Z; PAD_ID ]} plain_scorer) as [t|e] eqn:Ht.
  - destruct (concat_translations_scores _ _ _ _ 1 H2 ltac:(lia)
                ltac:(repeat constructor) Ht) as (rest & Hsc & Hrest & _).
    exists t, rest. split; [reflexivity|]. split; [exact Hsc|exact Hrest].
  - vm_compute in Ht. discriminate Ht.
Defined.

(** ** The n-best list of a concatenation *)

Lemma zip_star_length {A} (r : list A) (rs : list (list A)) :
  length (zip_star (r :: rs)) = foldr (fun r' m => py_min m (length r')) (length r) rs.
Proof. unfold zip_star. by rewrite length_fmap, length_seq. Qed.

Lemma foldr_py_min_spec {A} (rs : list (list A)) a :
  let m := foldr (fun r' m => py_min m (length r')) a rs in
  m <= a /\ Forall (fun r => m <= length r) rs
  /\ (m = a \/ Exists (fun r => m = length r) rs).
Proof.
  induction rs as [|r rs IH]; cbn.
  - split; [done|]. split; [constructor|by left].
  - destruct IH as (Hle & Hall & Hex). set (m := foldr _ a rs) in *.
    unfold py_min. case_decide.
    + split; [lia|]. split.
      * constructor; [done|]. eapply Forall_impl; [exact Hall|]. cbn. lia.
      * right. by left.
    + split; [done|]. split.
      * constructor; [lia|done].
      * destruct Hex as [?|?]; [by left|right; by right].
Qed.

Lemma expand_nbest_length t row :
  _expand_nbest_translation t = Ok row -> length row = nbest_count t.
Proof.
  unfold _expand_nbest_translation, nbest_count.
  destruct (nbest_translations t) as [nb|]; [|done]. intros [= <-].
  by rewrite length_fmap, length_zip_with.
Qed.

(** X10. When [_concat_nbest_translations] returns, the result has an
    n-best list with as many hypotheses as the chunk with the fewest has, at
    least one, with one score list each, and it shows the first of them as
    its own target ids and scores. *)
Theorem concat_nbest_translations_size (ts : list Translation) (stop_ids : gset Z)
  (scorer : CandidateScorer) (t : Translation) :
  _concat_nbest_translations ts stop_ids scorer = Ok t ->
  exists nb,
    nbest_translations t = Some nb
    /\ length (NBestTranslations.scores nb) = length (NBestTranslations.target_ids_list nb)
    /\ 1 <= length (NBestTranslations.target_ids_list nb)
    /\ head (NBestTranslations.target_ids_list nb) = Some (target_ids t)
    /\ head (NBestTranslations.scores nb) = Some (scores t)
    /\ Forall (fun c => length (NBestTranslations.target_ids_list nb) <= nbest_count c) ts
    /\ Exists (fun c => length (NBestTranslations.target_ids_list nb) = nbest_count c) ts.
Proof.
  unfold _concat_nbest_translations.
  destruct (mapR _expand_nbest_translation ts) as [rows|] eqn:Hrows; [|done].
  cbn [mbind result_bind].
  destruct (mapR _ (zip_star rows)) as [cts|] eqn:Hcts; [|done].
  cbn [mbind result_bind]. intros Ht.
  destruct cts as [|best others]; [done|]. injection Ht as <-.
  apply mapR_Ok_Forall2 in Hrows, Hcts.
  pose proof (Forall2_length _ _ _ Hcts) as Hlen.
  eexists. split; [reflexivity|]. cbn [NBestTranslations.target_ids_list
    NBestTranslations.scores target_ids scores].
  change (target_ids best :: list_fmap _ _ target_ids others)
    with (target_ids <$> best :: others).
  change (scores best :: list_fmap _ _ scores others)
    with (scores <$> best :: others).
  rewrite !length_fmap. split; [done|]. split; [cbn; lia|].
  split; [done|]. split; [done|].
  rewrite <- Hlen.
  destruct rows as [|r rs].
  { cbn in Hlen. done. }
  rewrite zip_star_length.
  destruct (foldr_py_min_spec rs (length r)) as (Hle & Hall & Hex).
  set (m := foldr _ (length r) rs) in *. clearbody m.
  destruct ts as [|c ts]; [by apply Forall2_nil_inv_l in Hrows|].
  apply Forall2_cons in Hrows as [Hc Hrows].
  apply expand_nbest_length in Hc.
  assert (Hrest : Forall2 (fun c r => length r = nbest_count c) ts rs).
  { eapply Forall2_impl; [exact Hrows|]. intros ? ?. apply expand_nbest_length. }
  split.
  - constructor; [lia|]. clear -Hall Hrest. revert Hall.
    induction Hrest as [|c' r' ts' rs' Hcr _ IH]; [constructor|].
    intros [Hr Hrs]%Forall_cons. constructor; [lia|by apply IH].
  - destruct Hex as [Hm|Hex]; [left; lia|]. right. clear -Hex Hrest.
    induction Hrest as [|c' r' ts' rs' Hcr _ IH]; [by apply Exists_nil in Hex|].
    apply Exists_cons in Hex as [Hr|Hrs]; [left; lia|right; by apply IH].
Qed.

Lemma concat_nbest_translations_size_witness :
  exists t,
    _concat_nbest_translations
      [nbest_translation_of [[[4%Z]; [3%Z]]; [[6%Z]; [3%Z]]];
       nbest_translation_of [[[5%Z]; [3%Z]]]]
      {[ 3%Z; PAD_ID ]} plain_scorer = Ok t
    /\ exists nb,
         nbest_translations t = Some nb
         /\ length (NBestTranslations.scores nb)
            = length (NBestTranslations.target_ids_list nb)
         /\ 1 <= length (NBestTranslations.target_ids_list nb)
         /\ head (NBestTranslations.target_ids_list nb) = Some (target_ids t)
         /\ head (NBestTranslations.scores nb) = Some (scores t)
         /\ Forall (fun c => length (NBestTranslations.target_ids_list nb) <= nbest_count c)
              [nbest_translation_of [[[4%Z]; [3%Z]]; [[6%Z]; [3%Z]]];
               nbest_translation_of [[[5%Z]; [3%Z]]]]
         /\ Exists (fun c => length (NBestTranslations.target_ids_list nb) = nbest_count c)
              [nbest_translation_of [[[4%Z]; [3%Z]]; [[6%Z]; [3%Z]]];
               nbest_translation_of [[[5%Z]; [3%Z]]]].
Proof.
  destruct (_concat_nbest_translations
              [nbest_translation_of [[[4%Z]; [3%Z]]; [[6%Z]; [3%Z]]];
               nbest_translation_of [[[5%Z]; [3%Z]]]]
              {[ 3%Z; PAD_ID ]} plain_scorer) as [t|e] eqn:Ht.
  - exists t. split; [reflexivity|].
    exact (concat_nbest_translations_size _ _ _ _ Ht).
  - vm_compute in Ht. discriminate Ht.
Defined.

(** ** Formatting target ids *)

Lemma pruned_all_stripped (S : gset Z) (ids : TokenIds) :
  Forall (fun tok => exists w, head tok = Some w /\ w ∈ S) ids ->
  mapR (fun tokens' : list Z =>
          match head tokens' with
          | None => Raise IndexError_token_first
          | Some w => Ok (bool_decide (w ∉ S), tokens')
          end) ids
  = Ok ((fun tok => (false, tok)) <$> ids).
Proof.
  intros Hall. apply mapR_Ok_fmap. eapply Forall_impl; [exact Hall|].
  intros tok (w & -> & Hw). cbn. by rewrite bool_decide_eq_false_2 by (by intros ?).
Qed.

(** X11. Target ids without a token to show, because there is none or
    because every token starts with an id that is stripped (a stop id, or the
    unknown-word id when unknown words are stripped), are formatted as no
    tokens and the empty string, with an empty token list and an empty
    string for each secondary target factor. Without any target vocabulary
    this raises. *)
Theorem get_translation_tokens_all_stripped (self : Translator) (ids : TokenIds) :
  Forall (fun tok => exists w, head tok = Some w /\ w ∈ strip_ids self) ids ->
  _get_translation_tokens_and_factors self ids
  = match vocab_targets_inv self with
    | [] => Raise ValueError_unpack_tokens
    | _ :: vs => Ok ([], EmptyString, replicate (length vs) [],
                     replicate (length vs) EmptyString)
    end.
Proof.
  intros Hall. unfold _get_translation_tokens_and_factors.
  rewrite pruned_all_stripped by done. cbn [mbind result_bind].
  assert (Hnone : filter (fun p : bool * list Z => p.1 = true)
                         ((fun tok : list Z => (false, tok)) <$> ids) = []).
  { clear. induction ids as [|tok ids IH]; [done|]. cbn [fmap list_fmap].
    by rewrite filter_cons_False. }
  rewrite Hnone. cbn. by destruct (vocab_targets_inv self).
Qed.

Lemma get_translation_tokens_all_stripped_witness :
  _get_translation_tokens_and_factors (sample_translator 2 3) [[3%Z]; [0%Z]]
  = Ok ([], EmptyString, [], []).
Proof.
  apply (get_translation_tokens_all_stripped (sample_translator 2 3) [[3%Z]; [0%Z]]).
  repeat constructor; eexists; (split; [reflexivity|]); vm_compute; reflexivity.
Defined.

Lemma keep_inv (S : gset Z) (ids : TokenIds) keep :
  mapR (fun tokens' : list Z =>
          match head tokens' with
          | None => Raise IndexError_token_first
          | Some w => Ok (bool_decide (w ∉ S), tokens')
          end) ids = Ok keep ->
  length (omap head ids) = length ids
  /\ Forall (fun tok => tok <> []) ((filter (fun p : bool * list Z => p.1 = true) keep).*2)
  /\ omap head ((filter (fun p : bool * list Z => p.1 = true) keep).*2)
     = filter (fun w => w ∉ S) (omap head ids).
Proof.
  revert keep. induction ids as [|tok ids IH]; intros keep.
  - intros [= <-]. by repeat split.
  - cbn [mapR]. destruct (head tok) as [w|] eqn:Hw; [|done]. cbn [mbind result_bind].
    destruct (mapR _ ids) as [keep'|]; [|done]. cbn [mbind result_bind].
    intros [= <-]. destruct (IH keep' eq_refl) as (Hlen & Hne & Hheads).
    cbn [omap list_omap]. rewrite Hw. cbn [length]. split; [by rewrite Hlen|].
    destruct (decide (w ∉ S)) as [Hin|Hin].
    + rewrite filter_cons_True by (cbn; by rewrite bool_decide_eq_true_2).
      rewrite (filter_cons_True (fun w => w ∉ S)) by done.
      cbn [fmap list_fmap snd omap list_omap]. rewrite Hw. split.
      * constructor; [by destruct tok|done].
      * by rewrite <- Hheads.
    + rewrite filter_cons_False by (cbn; by rewrite bool_decide_eq_false_2).
      rewrite (filter_cons_False (fun w => w ∉ S)) by done. done.
Qed.

Lemma zip_star_columns {A} (rows : list (list A)) j col :
  zip_star rows !! j = Some col ->
  length col = length rows /\ col = omap (fun r => r !! j) rows.
Proof.
  destruct rows as [|r rs]; [done|]. intros Hj.
  assert (Hcol : col = omap (fun r' => r' !! j) (r :: rs)
                 /\ j < foldr (fun r' m => py_min m (length r')) (length r) rs).
  { unfold zip_star in Hj. rewrite list_lookup_fmap in Hj.
    destruct (seq 0 _ !! j) as [j'|] eqn:Hseq; [|done].
    apply lookup_seq in Hseq as [-> Hlt]. injection Hj as <-. done. }
  destruct Hcol as [-> Hlt]. split; [|done].
  destruct (foldr_py_min_spec rs (length r)) as (Hle & Hall & _).
  set (m := foldr _ (length r) rs) in *. clearbody m.
  assert (Hrows : Forall (fun r' => j < length r') (r :: rs)).
  { constructor; [lia|]. eapply Forall_impl; [exact Hall|]. cbn. lia. }
  clear -Hrows. induction Hrows as [|r' rows Hr _ IH]; [done|].
  cbn [omap list_omap]. destruct (lookup_lt_is_Some_2 r' j Hr) as [x ->].
  cbn. by rewrite IH.
Qed.

Lemma zip_star_nil_inv {A} (rows : list (list A)) :
  Forall (fun r => r <> []) rows -> zip_star rows = [] -> rows = [].
Proof.
  intros Hall Hnil. destruct rows as [|r rs]; [done|]. exfalso.
  apply (f_equal length) in Hnil. rewrite zip_star_length in Hnil. cbn in Hnil.
  apply Forall_cons in Hall as [Hr Hrs].
  assert (Hpos : 1 <= foldr (fun r' m => py_min m (length r')) (length r) rs); [|lia].
  apply foldr_py_min_pos.
  - destruct r; [done|cbn; lia].
  - eapply Forall_impl; [exact Hrs|]. intros r' Hr'. destruct r'; [done|cbn; lia].
Qed.

(** X12. When [_get_translation_tokens_and_factors] returns, every token of
    the target ids has a first factor; the tokens returned are, in order,
    the words of the primary vocabulary for the first factors that are not
    stripped, and for no other; the translation is those tokens joined by
    the token separator, and likewise each factor string for its factor
    tokens; and every list of factor tokens is as long as the tokens. *)
Theorem get_translation_tokens_and_factors_spec (self : Translator) (ids : TokenIds)
  (tokens' : Tokens) (translation' : string)
  (factor_tokens : list Tokens) (factor_translations : list string) :
  _get_translation_tokens_and_factors self ids
  = Ok (tokens', translation', factor_tokens, factor_translations) ->
  length (omap head ids) = length ids
  /\ Forall2 (fun w s => exists v0, vocab_targets_inv self !! 0 = Some v0
                                    /\ v0 !! w = Some s)
       (filter (fun w => w ∉ strip_ids self) (omap head ids)) tokens'
  /\ translation' = String.concat (TOKEN_SEPARATOR (C self)) tokens'
  /\ factor_translations = String.concat (TOKEN_SEPARATOR (C self)) <$> factor_tokens
  /\ Forall (fun ft => length ft = length tokens') factor_tokens.
Proof.
  unfold _get_translation_tokens_and_factors.
  destruct (mapR _ ids) as [keep|] eqn:Hkeep; [|done]. cbn [mbind result_bind].
  apply keep_inv in Hkeep as (Hlen & Hne & Hheads).
  set (pruned := (filter (fun p : bool * list Z => p.1 = true) keep).*2) in *.
  destruct (mapR _ (enumerate (zip_star pruned))) as [att|] eqn:Hatt; [|done].
  cbn [mbind result_bind]. apply mapR_Ok_Forall2 in Hatt.
  pose proof (Forall2_length _ _ _ Hatt) as Hattlen. rewrite length_enumerate in Hattlen.
  destruct att as [|toks att].
  - (* nothing to show *)
    assert (Hpruned : pruned = []).
    { apply zip_star_nil_inv; [done|]. by destruct (zip_star pruned). }
    rewrite Hpruned in Hheads. cbn in Hheads. rewrite <- Hheads.
    cbn [fmap list_fmap]. destruct (vocab_targets_inv self) as [|v vs]; [done|].
    cbn. intros [= <- <- <- <-]. split; [done|]. split; [constructor|].
    split; [done|]. split; [by rewrite fmap_replicate|].
    apply Forall_forall. by intros ft [-> _]%elem_of_replicate.
  - cbn [fmap list_fmap]. intros [= <- <- <- <-]. split; [done|].
    assert (Hcols : Forall (fun col => length col = length pruned) (toks :: att)).
    { apply Forall_forall. intros col [j Hj]%list_elem_of_lookup.
      destruct (Forall2_lookup_r _ _ _ _ _ Hatt Hj) as ([j' col'] & Hjc & Hcol).
      apply lookup_enumerate_inv in Hjc as [-> Hjc].
      apply zip_star_columns in Hjc as [Hl _].
      destruct (vocab_targets_inv self !! j) as [v|]; [|done].
      apply mapR_Ok_Forall2, Forall2_length in Hcol. lia. }
    split; [|split; [done|split; [done|]]].
    + rewrite <- Hheads.
      destruct (Forall2_lookup_r _ _ _ 0 toks Hatt eq_refl) as ([j' col'] & Hjc & Hcol).
      apply lookup_enumerate_inv in Hjc as [-> Hjc].
      apply zip_star_columns in Hjc as [_ ->].
      destruct (vocab_targets_inv self !! 0) as [v0|] eqn:Hv0; [|done].
      apply mapR_Ok_Forall2 in Hcol.
      assert (Hhead : omap (fun r : list Z => r !! 0) pruned = omap head pruned).
      { apply list_omap_ext. clear. induction pruned as [|r p IH]; [constructor|].
        constructor; [by destruct r|done]. }
      rewrite <- Hhead. eapply Forall2_impl; [exact Hcol|].
      intros w s Hws. exists v0. split; [done|]. cbn in Hws.
      by destruct (v0 !! w) as [s'|]; [injection Hws as ->|].
    + apply Forall_inv in Hcols as Htoks. apply Forall_inv_tail in Hcols.
      eapply Forall_impl; [exact Hcols|]. intros ft Hft. cbn in *. lia.
Qed.

Lemma get_translation_tokens_and_factors_spec_witness :
  _get_translation_tokens_and_factors (sample_translator 2 3) [[100%Z]; [101%Z]; [3%Z]]
  = Ok (["free"; "lex0"]%string, "free lex0"%string, [], [])
  /\ Forall2 (fun w s => exists v0,
                vocab_targets_inv (sample_translator 2 3) !! 0 = Some v0
                /\ v0 !! w = Some s)
       (filter (fun w => w ∉ strip_ids (sample_translator 2 3))
               (omap head [[100%Z]; [101%Z]; [3%Z]]))
       ["free"; "lex0"]%string.
Proof.
  assert (H : _get_translation_tokens_and_factors (sample_translator 2 3)
                [[100%Z]; [101%Z]; [3%Z]]
              = Ok (["free"; "lex0"]%string, "free lex0"%string, [], []))
    by (vm_compute; reflexivity).
  split; [exact H|].
  apply (get_translation_tokens_and_factors_spec _ _ _ _ _ _ H).
Defined.

(** ** Formatting a translation *)

(** X13. When [_make_result] returns, the result has the sentence id and
    the pass-through dictionary of the input, what
    [_get_translation_tokens_and_factors] makes of the target ids, the
    first score as its score and the others as its factor scores; and its
    n-best fields are all absent when the translation has no n-best list,
    and otherwise hold one entry per list of target ids of the n-best list,
    next to the score lists of the n-best list as they are. Without a score,
    [_make_result] raises. *)
Theorem make_result_fields (self : Translator) (trans_input : TranslatorInput)
  (t : Translation) :
  (forall r, _make_result self trans_input t = Ok r ->
     TranslatorOutput.sentence_id r = sentence_id trans_input
     /\ TranslatorOutput.pass_through_dict r = pass_through_dict trans_input
     /\ (exists factor_tokens factor_translations factor_scores,
           _get_translation_tokens_and_factors self (target_ids t)
           = Ok (TranslatorOutput.tokens r, TranslatorOutput.translation r,
                 factor_tokens, factor_translations)
           /\ TranslatorOutput.factor_tokens r = Some factor_tokens
           /\ TranslatorOutput.factor_translations r = Some factor_translations
           /\ TranslatorOutput.factor_scores r = Some factor_scores
           /\ scores t = TranslatorOutput.score r :: factor_scores)
     /\ match nbest_translations t with
        | None =>
            TranslatorOutput.nbest_translations r = None
            /\ TranslatorOutput.nbest_tokens r = None
            /\ TranslatorOutput.nbest_scores r = None
            /\ TranslatorOutput.nbest_factor_translations r = None
            /\ TranslatorOutput.nbest_factor_tokens r = None
        | Some nb =>
            exists parts,
              mapR (_get_translation_tokens_and_factors self)
                   (NBestTranslations.target_ids_list nb) = Ok parts
              /\ length parts = length (NBestTranslations.target_ids_list nb)
              /\ TranslatorOutput.nbest_tokens r = Some ((fun p => p.1.1.1) <$> parts)
              /\ TranslatorOutput.nbest_translations r = Some ((fun p => p.1.1.2) <$> parts)
              /\ TranslatorOutput.nbest_factor_tokens r = Some ((fun p => p.1.2) <$> parts)
              /\ TranslatorOutput.nbest_factor_translations r
                 = Some ((fun p => p.2) <$> parts)
              /\ TranslatorOutput.nbest_scores r = Some (NBestTranslations.scores nb)
        end)
  /\ (scores t = [] -> exists e, _make_result self trans_input t = Raise e).
Proof.
  unfold _make_result. split.
  - intros r.
    destruct (_get_translation_tokens_and_factors self (target_ids t))
      as [[[[pt ps] ft] fs]|]; [|done]. cbn [mbind result_bind].
    destruct (nbest_translations t) as [nb|].
    + destruct (mapR _ (NBestTranslations.target_ids_list nb)) as [parts|] eqn:Hparts;
        [|done].
      cbn [mbind result_bind]. destruct (scores t) as [|sc fsc]; [done|].
      intros [= <-]. cbn. split; [done|]. split; [done|]. split.
      { by exists ft, fs, fsc. }
      exists parts. split; [done|]. split; [|done].
      apply mapR_Ok_Forall2, Forall2_length in Hparts. lia.
    + cbn [mbind result_bind]. destruct (scores t) as [|sc fsc]; [done|].
      intros [= <-]. cbn. split; [done|]. split; [done|]. split; [|done].
      by exists ft, fs, fsc.
  - intros ->.
    destruct (_get_translation_tokens_and_factors self (target_ids t))
      as [[[[pt ps] ft] fs]|]; [|by eexists]. cbn [mbind result_bind].
    destruct (nbest_translations t) as [nb|]; cbn [mbind result_bind].
    + destruct (mapR _ _); cbn; by eexists.
    + by eexists.
Qed.

Lemma make_result_fields_witness :
  exists r,
    _make_result (sample_translator 2 3) (new_TranslatorInput (IntId 0) ["a"%string])
                 (translation_of [[100%Z]; [3%Z]]) = Ok r
    /\ TranslatorOutput.sentence_id r = IntId 0
    /\ TranslatorOutput.pass_through_dict r = None
    /\ TranslatorOutput.nbest_tokens r = None.
Proof.
  destruct (_make_result (sample_translator 2 3)
              (new_TranslatorInput (IntId 0) ["a"%string])
              (translation_of [[100%Z]; [3%Z]])) as [r|e] eqn:Hr.
  - exists r. split; [reflexivity|].
    destruct (proj1 (make_result_fields _ _ _) r Hr) as (Hid & Hpt & _ & Hnb).
    split; [exact Hid|]. split; [exact Hpt|]. apply Hnb.
  - vm_compute in Hr. discriminate Hr.
Defined.

(** ** The traceback, item by item *)

Lemma mapR_lookup {A B} (f : A -> result B) (l : list A) ys i x :
  mapR f l = Ok ys -> l !! i = Some x -> exists y, ys !! i = Some y /\ f x = Ok y.
Proof.
  intros Hys Hx. apply mapR_Ok_Forall2 in Hys.
  destruct (Forall2_lookup_l _ _ _ _ _ Hys Hx) as (y & Hy & Hxy). by exists y.
Qed.

Lemma take_column_item a pointer col pointer' b p :
  take_column a pointer col = Ok pointer' -> pointer !! b = Some p ->
  exists p', pointer' !! b = Some p' /\ take_column a [p] col = Ok [p'].
Proof.
  unfold take_column. destruct (np_index (shape1 a) col) as [c|]; [|done].
  cbn [mbind result_bind]. intros Hcol Hp.
  destruct (mapR_lookup _ _ _ _ _ Hcol Hp) as (p' & Hp' & Hf).
  exists p'. split; [done|]. cbn [mapR]. rewrite Hf. done.
Qed.

Lemma traceback_loop_item a steps res pointer res' pointer' res1 b p :
  foldR (traceback_step a) (res, pointer) steps = Ok (res', pointer') ->
  pointer !! b = Some p ->
  exists res1' p',
    foldR (traceback_step a) (res1, [p]) steps = Ok (res1', [p'])
    /\ pointer' !! b = Some p'
    /\ shape1 res1' = shape1 res1
    /\ forall t, (t ∈ steps -> at2 res1' 0 t = at2 res' b t)
                 /\ (t ∉ steps -> at2 res1' 0 t = at2 res1 0 t
                                  /\ at2 res' b t = at2 res b t).
Proof.
  revert res pointer res1 p. induction steps as [|step steps IH];
    intros res pointer res1 p.
  - cbn. intros [= <- <-] Hp. exists res1, p. split; [done|]. split; [done|].
    split; [done|]. intros t. split; [by intros ?%elem_of_nil|done].
  - cbn [foldR traceback_step].
    destruct (take_column a pointer (Z.of_nat step)) as [pointer1|] eqn:Hcol; [|done].
    cbn [mbind result_bind]. intros Hrest Hp.
    destruct (take_column_item _ _ _ _ _ _ Hcol Hp) as (p1 & Hp1 & Hcol1).
    rewrite Hcol1. cbn [mbind result_bind].
    destruct (IH _ _ (set_column res1 step [p]) p1 Hrest Hp1)
      as (res1' & p' & Hf & Hp' & Hshape & Hat).
    exists res1', p'. split; [done|]. split; [done|]. split; [done|].
    intros t. destruct (Hat t) as [Hin Hout]. split.
    + intros [->|Ht]%elem_of_cons; [|by apply Hin].
      destruct (decide (step ∈ steps)) as [Hs|Hs]; [by apply Hin|].
      destruct (Hout Hs) as [-> ->]. cbn. rewrite !decide_True by done.
      by rewrite Hp.
    + intros Ht. apply not_elem_of_cons in Ht as [Hne Ht].
      destruct (Hout Ht) as [-> ->]. cbn. by rewrite !decide_False by done.
Qed.

(** X14. The traceback of a batch is the traceback of each of its items:
    when it returns for the ranks' slots [ks], it returns for each slot of
    [ks] alone, with the same number of columns, and the row it gives then
    is the row of that item in the batch. *)
Theorem traceback_per_item (ks : list Z) (all_hyp_indices res : ndarray2)
  (b : nat) (k : Z) :
  _get_best_word_indices_for_kth_hypotheses ks all_hyp_indices = Ok res ->
  ks !! b = Some k ->
  exists res1,
    _get_best_word_indices_for_kth_hypotheses [k] all_hyp_indices = Ok res1
    /\ shape0 res1 = 1
    /\ shape1 res1 = shape1 res
    /\ forall t, at2 res1 0 t = at2 res b t.
Proof.
  unfold _get_best_word_indices_for_kth_hypotheses. case_decide as HT; [done|].
  destruct (take_column all_hyp_indices ks (-1)) as [pointer|] eqn:Hcol; [|done].
  cbn [mbind result_bind].
  destruct (foldR _ _ _) as [[res' pointer']|] eqn:Hf; [|done].
  cbn [mbind result_bind fst]. intros [= <-] Hk.
  destruct (take_column_item _ _ _ _ _ _ Hcol Hk) as (p & Hp & Hcol1).
  rewrite Hcol1. cbn [mbind result_bind].
  destruct (traceback_loop_item _ _ _ _ _ _
              (np_zeros (length [k]) (shape1 all_hyp_indices - 1)) _ _ Hf Hp)
    as (res1' & p' & Hf1 & _ & Hshape & Hat).
  rewrite Hf1. cbn [mbind result_bind fst]. exists res1'.
  split; [done|].
  assert (Hshapes : forall steps r0 pt r1 pt1,
             foldR (traceback_step all_hyp_indices) (r0, pt) steps = Ok (r1, pt1) ->
             shape0 r1 = shape0 r0 /\ shape1 r1 = shape1 r0).
  { clear. induction steps as [|s steps IH]; intros r0 pt r1 pt1.
    - by intros [= <- <-].
    - cbn [foldR traceback_step].
      destruct (take_column _ _ _); [|done]. cbn [mbind result_bind].
      intros Hr. apply IH in Hr. done. }
  destruct (Hshapes _ _ _ _ _ Hf) as [_ Hs].
  destruct (Hshapes _ _ _ _ _ Hf1) as [Hs0 _].
  split; [by rewrite Hs0|]. split; [by rewrite Hshape, Hs|].
  intros t. destruct (Hat t) as [Hin Hout].
  destruct (decide (t ∈ range_down (shape1 all_hyp_indices - 1))) as [Ht|Ht];
    [by apply Hin|].
  destruct (Hout Ht) as [-> ->]. done.
Qed.

Lemma traceback_per_item_witness :
  exists res res1,
    _get_best_word_indices_for_kth_hypotheses [1%Z; 0%Z] sample_hyp_indices = Ok res
    /\ _get_best_word_indices_for_kth_hypotheses [0%Z] sample_hyp_indices = Ok res1
    /\ shape0 res1 = 1
    /\ shape1 res1 = shape1 res
    /\ forall t, at2 res1 0 t = at2 res 1 t.
Proof.
  destruct (_get_best_word_indices_for_kth_hypotheses [1%Z; 0%Z] sample_hyp_indices)
    as [res|e] eqn:Hres.
  - destruct (traceback_per_item [1%Z; 0%Z] sample_hyp_indices res 1 0%Z Hres eq_refl)
      as (res1 & Hres1 & H0 & H1 & Hat).
    exists res, res1. split; [reflexivity|]. split; [exact Hres1|].
    split; [exact H0|]. split; [exact H1|exact Hat].
  - vm_compute in Hres. discriminate Hres.
Defined.

Lemma np_index_in_range n i :
  (- Z.of_nat n <= i < Z.of_nat n)%Z -> exists j, np_index n i = Ok j /\ j < n.
Proof.
  intros Hi. unfold np_index. case_decide.
  - eexists. split; [done|]. lia.
  - rewrite decide_True by lia. eexists. split; [done|]. lia.
Qed.

Lemma np_index_out_of_range n i :
  ~ (- Z.of_nat n <= i < Z.of_nat n)%Z -> np_index n i = Raise IndexError_array.
Proof. intros Hi. unfold np_index. by rewrite !decide_False by lia. Qed.

Lemma mapR_raises_only {A B} (f : A -> result B) (l : list A) e0 :
  (forall x e, f x = Raise e -> e = e0) ->
  Exists (fun x => f x = Raise e0) l -> mapR f l = Raise e0.
Proof.
  intros Honly. induction 1 as [x l Hx|x l _ IH]; cbn [mapR].
  - by rewrite Hx.
  - destruct (f x) as [y|e] eqn:Hx; cbn [mbind result_bind].
    + by rewrite IH.
    + by rewrite (Honly x e Hx).
Qed.

(** X15. Which ranks' slots the traceback takes, for well-formed
    backpointers: it raises for a backpointer matrix without a column; with
    at least one column it returns when every slot of [ks] is an index numpy
    accepts for the rows of the matrix, counted from the start or, negative,
    from the end, and it raises [IndexError] when one is not. *)
Theorem traceback_slot_range (ks : list Z) (all_hyp_indices : ndarray2) :
  well_formed_backpointers all_hyp_indices ->
  (shape1 all_hyp_indices = 0 ->
   _get_best_word_indices_for_kth_hypotheses ks all_hyp_indices
   = Raise ValueError_negative_dim)
  /\ (1 <= shape1 all_hyp_indices ->
      (Forall (fun k => (- Z.of_nat (shape0 all_hyp_indices) <= k
                         < Z.of_nat (shape0 all_hyp_indices))%Z) ks ->
       exists res,
         _get_best_word_indices_for_kth_hypotheses ks all_hyp_indices = Ok res
         /\ shape0 res = length ks
         /\ shape1 res = shape1 all_hyp_indices - 1)
      /\ (~ Forall (fun k => (- Z.of_nat (shape0 all_hyp_indices) <= k
                              < Z.of_nat (shape0 all_hyp_indices))%Z) ks ->
          _get_best_word_indices_for_kth_hypotheses ks all_hyp_indices
          = Raise IndexError_array)).
Proof.
  intros Hwf. unfold _get_best_word_indices_for_kth_hypotheses. split.
  { intros ->. done. }
  intros HT. rewrite decide_False by lia.
  set (T := shape1 all_hyp_indices) in *. split.
  - intros Hks.
    destruct (mapR_Forall2
                (fun r => i ← np_index (shape0 all_hyp_indices) r;
                          Ok (at2 all_hyp_indices i (T - 1)))
                (fun _ p => (0 <= p < Z.of_nat (shape0 all_hyp_indices))%Z) ks)
      as (pointer & Hpointer & Hvalid).
    { eapply Forall_impl; [exact Hks|]. intros k Hk. cbn in Hk.
      destruct (np_index_in_range _ _ Hk) as (j & -> & Hj). cbn.
      eexists. split; [done|]. apply Hwf; lia. }
    assert (Hcol : take_column all_hyp_indices ks (-1) = Ok pointer).
    { unfold take_column. rewrite np_index_last by lia. exact Hpointer. }
    rewrite Hcol. cbn [mbind result_bind].
    destruct (traceback_loop all_hyp_indices (T - 1) Hwf ltac:(lia)
                (np_zeros (length ks) (T - 1)) pointer)
      as (res & pointer' & Hf & Hs0 & Hs1 & _).
    { apply Forall_forall. intros p [j Hj]%list_elem_of_lookup.
      by destruct (Forall2_lookup_r _ _ _ _ _ Hvalid Hj) as (? & _ & ?). }
    rewrite Hf. cbn. exists res. by rewrite Hs0, Hs1.
  - intros Hks. apply not_Forall_Exists in Hks; [|intros k; apply _].
    assert (Hcol : take_column all_hyp_indices ks (-1) = Raise IndexError_array).
    { unfold take_column. rewrite np_index_last by lia.
      apply (mapR_raises_only _ ks IndexError_array).
      + intros k e. unfold np_index. repeat case_decide; cbn; congruence.
      + eapply Exists_impl; [exact Hks|]. intros k Hk. cbn in Hk.
        by rewrite np_index_out_of_range. }
    by rewrite Hcol.
Qed.

Lemma traceback_slot_range_witness :
  (exists res,
     _get_best_word_indices_for_kth_hypotheses [(-1)%Z] sample_hyp_indices = Ok res
     /\ shape0 res = 1 /\ shape1 res = 2)
  /\ _get_best_word_indices_for_kth_hypotheses [5%Z] sample_hyp_indices
     = Raise IndexError_array.
Proof.
  assert (Hwf : well_formed_backpointers sample_hyp_indices).
  { intros [|[|i]] [|[|[|j]]] Hi Hj; cbn in *; lia. }
  split.
  - apply (proj2 (traceback_slot_range [(-1)%Z] sample_hyp_indices Hwf));
      [cbn; lia|]. repeat constructor; cbn; lia.
  - apply (proj2 (traceback_slot_range [5%Z] sample_hyp_indices Hwf));
      [cbn; lia|]. intros Hall. apply Forall_inv in Hall. cbn in Hall. lia.
Defined.

(** ** What picking the lexicon logs *)

Lemma last_named_lexicon_elem batch l :
  Some l ∈ restrict_lexicon <$> batch ->
  exists l', last_named_lexicon batch = Some l'
             /\ Some l' ∈ restrict_lexicon <$> batch.
Proof.
  induction batch as [|x batch IH] using rev_ind; [by intros ?%elem_of_nil|].
  rewrite fmap_app, last_named_lexicon_snoc. cbn [fmap list_fmap].
  intros Hin. destruct (restrict_lexicon x) as [lx|] eqn:Hx.
  - exists lx. split; [done|]. apply elem_of_app. right. by left.
  - apply elem_of_app in Hin as [Hin|Hin].
    + destruct (IH Hin) as (l' & Hl' & Hin'). exists l'. split; [done|].
      apply elem_of_app. by left.
    + by apply list_elem_of_singleton in Hin.
Qed.

Lemma last_named_lexicon_in batch l :
  last_named_lexicon batch = Some l -> Some l ∈ restrict_lexicon <$> batch.
Proof.
  unfold last_named_lexicon. intros Hl. apply last_Some in Hl as [pre Hl].
  assert (Hin : l ∈ omap restrict_lexicon batch).
  { rewrite Hl. apply elem_of_app. right. by left. }
  apply list_elem_of_omap in Hin as (x & Hx & Hxl).
  apply list_elem_of_fmap. by exists x.
Qed.

Lemma foldl_restrict_lexicon_step_NoLexicon batch :
  (foldl (restrict_lexicon_step NoLexicon) (None, []) batch).1 = last_named_lexicon batch
  /\ ((foldl (restrict_lexicon_step NoLexicon) (None, []) batch).2 = []
      <-> forall l l', Some l ∈ restrict_lexicon <$> batch ->
                       Some l' ∈ restrict_lexicon <$> batch -> l = l').
Proof.
  induction batch as [|x batch [IHcur IHlog]] using rev_ind.
  - split; [done|]. split; [by intros _ l l' ?%elem_of_nil|done].
  - rewrite foldl_app. cbn [foldl]. rewrite last_named_lexicon_snoc, fmap_app.
    cbn [fmap list_fmap].
    destruct (foldl _ _ batch) as [cur log]. cbn [fst snd] in IHcur, IHlog.
    unfold restrict_lexicon_step.
    destruct (restrict_lexicon x) as [lx|] eqn:Hx; cbn [fst snd].
    + split; [done|]. split.
      * intros Hlog.
        assert (Hl : log = [] /\ (cur = None \/ cur = Some lx)).
        { destruct cur as [l0|]; [|by split; [|left]].
          case_decide as Heq; [subst; by split; [|right]|].
          by destruct log. }
        destruct Hl as [Hnil Hcur].
        assert (Hone : forall l, Some l ∈ restrict_lexicon <$> batch -> l = lx).
        { intros l Hl. destruct (last_named_lexicon_elem _ _ Hl) as (l2 & Hl2 & Hin2).
          rewrite <- IHcur in Hl2. destruct Hcur as [->| ->]; [done|].
          injection Hl2 as <-. by apply (proj1 IHlog Hnil). }
        intros l l' Hl Hl'.
        apply elem_of_app in Hl as [Hl|Hl%list_elem_of_singleton];
          apply elem_of_app in Hl' as [Hl'|Hl'%list_elem_of_singleton].
        -- by apply (proj1 IHlog Hnil).
        -- injection Hl' as <-. by apply Hone.
        -- injection Hl as <-. symmetry. by apply Hone.
        -- congruence.
      * intros Hall.
        assert (Hlog : log = []).
        { apply IHlog. intros l l' Hl Hl'. apply Hall; apply elem_of_app; by left. }
        destruct cur as [l0|]; [|done]. rewrite decide_True; [done|].
        symmetry in IHcur. apply last_named_lexicon_in in IHcur.
        apply Hall; apply elem_of_app; [by left|right; by left].
    + split; [done|]. etransitivity; [exact IHlog|].
      split; intros Hall l l' Hl Hl'.
      * apply elem_of_app in Hl as [Hl|Hl%list_elem_of_singleton]; [|done].
        apply elem_of_app in Hl' as [Hl'|Hl'%list_elem_of_singleton]; [|done].
        by apply Hall.
      * apply Hall; apply elem_of_app; by left.
Qed.

Lemma foldl_restrict_lexicon_step_log self_lex batch rec :
  rec ∈ (foldl (restrict_lexicon_step self_lex) (None, []) batch).2 ->
  exists x, x ∈ batch /\ rec = Warning_different_restrict_lexicon (sentence_id x)
            /\ is_Some (restrict_lexicon x).
Proof.
  induction batch as [|x batch IH] using rev_ind; [by intros ?%elem_of_nil|].
  rewrite foldl_app. cbn [foldl].
  destruct (foldl _ _ batch) as [cur log]. cbn [snd] in IH.
  assert (Hold : rec ∈ log ->
            exists x0, x0 ∈ batch ++ [x]
                       /\ rec = Warning_different_restrict_lexicon (sentence_id x0)
                       /\ is_Some (restrict_lexicon x0)).
  { intros Hin. destruct (IH Hin) as (x0 & Hx0 & Hrec). exists x0.
    split; [apply elem_of_app; by left|done]. }
  unfold restrict_lexicon_step.
  destruct (restrict_lexicon x) as [lx|] eqn:Hx; cbn [snd].
  - destruct cur as [l0|]; [|done]. case_decide; [done|].
    intros [Hin|Hin%list_elem_of_singleton]%elem_of_app; [by apply Hold|].
    exists x. split; [apply elem_of_app; right; by left|]. by rewrite Hx.
  - by destruct self_lex.
Qed.

(** X16. What [_get_inference_input] logs while it picks the lexicon of a
    batch. A warning is only ever logged for an input of the batch that
    names a lexicon, under that input's sentence id. With a translator
    without a lexicon of its own, nothing at all is logged exactly when all
    the inputs that name a lexicon name the same one. And the note that no
    lexicon is used is logged exactly when the translator holds a dict of
    named lexicons and no lexicon is picked. *)
Theorem batch_restrict_lexicon_log (self_lex : TranslatorLexicon)
  (batch : list TranslatorInput) :
  (forall sid,
     Warning_different_restrict_lexicon sid ∈ (batch_restrict_lexicon self_lex batch).2 ->
     exists x, x ∈ batch /\ sentence_id x = sid /\ is_Some (restrict_lexicon x))
  /\ ((batch_restrict_lexicon NoLexicon batch).2 = []
      <-> forall l l', Some l ∈ restrict_lexicon <$> batch ->
                       Some l' ∈ restrict_lexicon <$> batch -> l = l')
  /\ (Info_no_restrict_lexicon ∈ (batch_restrict_lexicon self_lex batch).2
      <-> (exists d, self_lex = NamedLexicons d)
          /\ (batch_restrict_lexicon self_lex batch).1 = None).
Proof.
  split; [|split].
  - intros sid. unfold batch_restrict_lexicon.
    pose proof (foldl_restrict_lexicon_step_log self_lex batch
                  (Warning_different_restrict_lexicon sid)) as Hlog.
    destruct (foldl _ _ batch) as [lex log]. cbn [snd] in Hlog.
    intros Hin.
    assert (Hin' : Warning_different_restrict_lexicon sid ∈ log).
    { destruct lex, self_lex; cbn [snd] in Hin; try done.
      by apply elem_of_app in Hin as [Hin|Hin%list_elem_of_singleton]. }
    destruct (Hlog Hin') as (x & Hx & [= ->] & Hsome). by exists x.
  - destruct (foldl_restrict_lexicon_step_NoLexicon batch) as [_ Hiff].
    unfold batch_restrict_lexicon.
    destruct (foldl _ _ batch) as [lex log]. cbn [snd] in Hiff.
    by destruct lex.
  - unfold batch_restrict_lexicon.
    pose proof (foldl_restrict_lexicon_step_log self_lex batch
                  Info_no_restrict_lexicon) as Hlog.
    destruct (foldl _ _ batch) as [lex log]. cbn [snd] in Hlog.
    assert (Hnot : Info_no_restrict_lexicon ∉ log).
    { intros Hin. by destruct (Hlog Hin) as (x & _ & ? & _). }
    destruct lex as [l|], self_lex as [|l0|d]; cbn [fst snd]; split;
      try (intros Hin; by apply Hnot in Hin);
      try (by intros [[d' ?] ?]).
    + intros _. split; [by exists d|done].
    + intros _. apply elem_of_app. right. by left.
Qed.

(** ** Batching is transparent *)

Lemma search_by_input_contract self f :
  search_by_input self f -> scorer_contract self (fun x t => t = f x).
Proof.
  intros Hf lex batch Hne. exists (f <$> batch). split; [by apply Hf|].
  apply Forall2_fmap_r, Forall_Forall2_diag, Forall_forall. by intros x _.
Qed.

Lemma translates_functional f ics g1 g2 :
  Forall2 (translates (fun x t => t = f x)) ics g1 ->
  Forall2 (translates (fun x t => t = f x)) ics g2 -> g1 = g2.
Proof.
  intros H1. revert g2. induction H1 as [|ci tc ics g1 (Hi & Hc & Ht) _ IH];
    intros g2 H2.
  - by apply Forall2_nil_inv_l in H2.
  - apply Forall2_cons_inv_l in H2 as (tc' & g2' & (Hi' & Hc' & Ht') & H2 & ->).
    f_equal; [|by apply IH].
    destruct tc, tc'. cbn in *. congruence.
Qed.

(** X17. Batching is transparent for a search that answers each input by
    itself, whatever the batch and the lexicon: with a batch size of at
    least one, [translate] gives the same outcome for every batch size and
    with or without filling up the batches. *)
Theorem translate_batching_transparent (self : Translator)
  (f : TranslatorInput -> Translation) (trans_inputs : list TranslatorInput)
  (batch_size' : nat) (fill_up_batches fill_up_batches' : bool) :
  1 <= batch_size self -> 1 <= batch_size' ->
  search_by_input self f ->
  translate (with_batch_size self batch_size') trans_inputs fill_up_batches'
  = translate self trans_inputs fill_up_batches.
Proof.
  intros Hbs Hbs' Hf.
  set (self' := with_batch_size self batch_size').
  destruct (translate_pipeline self _ trans_inputs fill_up_batches Hbs
              (search_by_input_contract self f Hf)) as (g1 & -> & Hg1).
  destruct (translate_pipeline self' _ trans_inputs fill_up_batches' Hbs'
              (search_by_input_contract self' f Hf)) as (g2 & -> & Hg2).
  apply mapR_ext_in. intros [i x] Hin. apply elem_of_enumerate in Hin.
  specialize (Hg1 i). specialize (Hg2 i). unfold group_spec in Hg1, Hg2.
  rewrite Hin in Hg1, Hg2.
  assert (Hg : g2 i = g1 i).
  { destruct (decide (skipped_input self' x)) as [Hs'|Hs'];
      destruct (decide (skipped_input self x)) as [Hs|Hs]; try done.
    - by rewrite Hg1, Hg2.
    - destruct Hg2 as (ics2 & Hp2 & _ & H2), Hg1 as (ics1 & Hp1 & _ & H1).
      assert (ics2 = ics1) as -> by (change (input_parts self' i x)
                                       with (input_parts self i x) in Hp2; congruence).
      by eapply translates_functional. }
  rewrite Hg. done.
Qed.

Lemma translate_batching_transparent_witness :
  1 <= batch_size (plain_translator 2 3)
  /\ translate (with_batch_size (plain_translator 2 3) 5) sample_inputs false
     = translate (plain_translator 2 3) sample_inputs true.
Proof.
  assert (H1 : 1 <= batch_size (plain_translator 2 3)) by (cbn; lia).
  split; [exact H1|].
  apply (translate_batching_transparent (plain_translator 2 3)
           (echo_translation None) sample_inputs 5 true false H1); [lia|].
  intros lex batch Hne. reflexivity.
Defined.

(** ** Inputs made from strings *)

(** X18. [make_input_from_multiple_strings] keeps the sentence id and gives
    either a bad input without tokens, exactly when some factor string has
    another number of tokens than the first string, or a plain input with
    the tokens of the first string and one factor per further string; so in
    the input it gives every factor is as long as the tokens. Without any
    string the input has no tokens and no factors. *)
Theorem make_input_from_multiple_strings_spec (get_tokens : string -> Tokens)
  (sentence_id' : SentenceId) (strings : list string) :
  let r := make_input_from_multiple_strings get_tokens sentence_id' strings in
  sentence_id r = sentence_id'
  /\ (forall fs, factors r = Some fs ->
                 Forall (fun f => length f = length (tokens r)) fs)
  /\ (is_bad r = true
      <-> exists string0 rest factor,
            strings = string0 :: rest /\ factor ∈ rest
            /\ length (get_tokens factor) <> length (get_tokens string0))
  /\ (is_bad r = true -> tokens r = [] /\ factors r = None)
  /\ (is_bad r = false ->
      tokens r = default [] (get_tokens <$> head strings)
      /\ factors r = match strings with
                     | [] => None
                     | _ :: rest => Some (get_tokens <$> rest)
                     end).
Proof.
  cbn zeta. unfold make_input_from_multiple_strings.
  destruct strings as [|string0 rest].
  - cbn. split; [done|]. split; [done|]. split; [|done].
    split; [done|]. by intros (? & ? & ? & ? & _).
  - case_bool_decide as Hall; cbn.
    + split; [done|]. split; [by intros fs [= <-]|]. split; [|done].
      split; [done|]. intros (s0 & rest' & f & [= <- <-] & Hf & Hne).
      rewrite Forall_fmap, Forall_forall in Hall. by apply Hall in Hf.
    + split; [done|]. split; [done|]. split; [|done]. split; [|done]. intros _.
      rewrite Forall_fmap in Hall.
      apply not_Forall_Exists in Hall; [|intros f; unfold compose; apply _].
      apply Exists_exists in Hall as (f & Hf & Hne). by exists string0, rest, f.
Qed.

Lemma bad_pieces_iff n d tok :
  negb (forallb (fun piece => negb (String.eqb piece EmptyString)) (py_split d tok))
  || negb (length (py_split d tok) =? n) = false
  <-> well_factored n d tok.
Proof.
  unfold well_factored. rewrite orb_false_iff, !negb_false_iff, Nat.eqb_eq.
  rewrite forallb_forall, Forall_forall.
  split; intros [Hall Hlen]; (split; [|done]); intros p Hp.
  - apply list_elem_of_In, Hall in Hp. rewrite negb_true_iff in Hp.
    by apply String.eqb_neq in Hp.
  - apply list_elem_of_In, Hall in Hp. rewrite negb_true_iff. by apply String.eqb_neq.
Qed.

Lemma append_pieces_Checked pieces i factors :
  i + length factors < length pieces ->
  append_pieces pieces i factors
  = Checked (imap (fun j f => f ++ [default EmptyString (pieces !! (i + j + 1))]) factors).
Proof.
  revert i. induction factors as [|f factors IH]; intros i Hlen; [done|].
  cbn [append_pieces]. cbn [length] in Hlen.
  destruct (lookup_lt_is_Some_2 pieces (i + 1) ltac:(lia)) as [p Hp].
  rewrite Hp, IH by lia. cbn [imap]. rewrite Nat.add_0_r, Hp. cbn. do 2 f_equal.
  apply imap_ext. intros j f' _. unfold compose. do 4 f_equal. lia.
Qed.

Lemma imap_compose {A B C'} (g : nat -> B -> C') (f : nat -> A -> B) (l : list A) :
  imap g (imap f l) = imap (fun j x => g j (f j x)) l.
Proof.
  revert f g. induction l as [|x l IH]; intros f g; [done|].
  cbn [imap]. f_equal. apply IH.
Qed.

Lemma factored_loop_spec n d toks tokens0 factors0 :
  1 <= n -> length factors0 = n - 1 ->
  match factored_loop n d toks tokens0 factors0 with
  | Fails _ => False
  | Checked None => Exists (fun tok => ~ well_factored n d tok) toks
  | Checked (Some (tokens', factors')) =>
      Forall (well_factored n d) toks
      /\ tokens' = tokens0 ++ ((fun tok => default EmptyString (head (py_split d tok)))
                                <$> toks)
      /\ factors' = imap (fun j f =>
                            f ++ ((fun tok => default EmptyString
                                                (py_split d tok !! (j + 1))) <$> toks))
                         factors0
  end.
Proof.
  intros Hn. revert tokens0 factors0. induction toks as [|tok toks IH];
    intros tokens0 factors0 Hlen.
  - cbn. split; [constructor|]. split; [by rewrite app_nil_r|].
    rewrite (imap_ext _ (fun _ f => f) factors0).
    + clear. induction factors0 as [|f fs IH]; [done|]. cbn [imap]. f_equal. exact IH.
    + intros j f _. cbn. by rewrite app_nil_r.
  - cbn [factored_loop].
    destruct (negb _ || negb _) eqn:Hbad.
    { left. intros Hwf. apply bad_pieces_iff in Hwf. congruence. }
    apply bad_pieces_iff in Hbad as Hwf. destruct Hwf as [Hne Hpl].
    destruct (py_split d tok) as [|p0 ps] eqn:Hpieces; [cbn in Hpl; lia|].
    rewrite append_pieces_Checked by (cbn in *; lia).
    specialize (IH (tokens0 ++ [p0])
                   (imap (fun j f => f ++ [default EmptyString
                                             ((p0 :: ps) !! (0 + j + 1))]) factors0)).
    rewrite length_imap in IH. specialize (IH Hlen).
    destruct (factored_loop _ _ _ _ _) as [[[tokens' factors']|]|]; [| |done].
    + destruct IH as (Hall & -> & ->). split; [|split].
      * constructor; [|done]. apply bad_pieces_iff. by rewrite Hpieces.
      * cbn [fmap list_fmap]. rewrite Hpieces. cbn [head default].
        by rewrite <- app_assoc.
      * rewrite imap_compose. apply imap_ext. intros j f _. cbn [fmap list_fmap compose].
        rewrite Hpieces, <- app_assoc. done.
    + by right.
Qed.

(** X19. [make_input_from_factored_string], for a delimiter that is neither
    empty nor whitespace and a model with two or more source factors, keeps
    the sentence id and gives either a bad input without tokens, exactly when
    some token of the string does not split at the delimiter into as many
    non-empty pieces as the model has source factors, or a plain input in
    which, for every token of the string, the first piece is the token at its
    place and the further pieces are the factors at its place, one factor
    sequence per secondary source factor, each as long as the tokens. *)
Theorem make_input_from_factored_string_spec (get_tokens : string -> Tokens)
  (str_isspace : string -> bool) (sentence_id' : SentenceId) (factored_string : string)
  (model_num_source_factors : nat) (delimiter : string) :
  delimiter <> EmptyString -> str_isspace delimiter = false ->
  2 <= model_num_source_factors ->
  exists r,
    make_input_from_factored_string get_tokens str_isspace sentence_id' factored_string
      model_num_source_factors delimiter = Checked r
    /\ sentence_id r = sentence_id'
    /\ (is_bad r = true
        <-> Exists (fun tok => ~ well_factored model_num_source_factors delimiter tok)
                   (get_tokens factored_string))
    /\ (is_bad r = true -> tokens r = [] /\ factors r = None)
    /\ (is_bad r = false ->
        exists fs,
          factors r = Some fs
          /\ length fs = model_num_source_factors - 1
          /\ length (tokens r) = length (get_tokens factored_string)
          /\ Forall (fun f => length f = length (tokens r)) fs
          /\ forall i tok, get_tokens factored_string !! i = Some tok ->
               exists piece ps,
                 py_split delimiter tok = piece :: ps
                 /\ tokens r !! i = Some piece
                 /\ Forall2 (fun f q => f !! i = Some q) fs ps).
Proof.
  intros Hd Hsp Hn. unfold make_input_from_factored_string.
  apply String.eqb_neq in Hd. rewrite Hd, Hsp. cbn [negb andb].
  rewrite decide_False by lia.
  set (toks := get_tokens factored_string).
  pose proof (factored_loop_spec model_num_source_factors delimiter toks []
                (replicate (model_num_source_factors - 1) []) ltac:(lia)
                ltac:(by rewrite length_replicate)) as Hloop.
  destruct (factored_loop _ _ _ _ _) as [[[tokens' factors']|]|]; [| |done].
  - destruct Hloop as (Hall & -> & ->). eexists. split; [done|]. cbn.
    split; [done|]. split.
    { split; [done|]. intros Hex. apply Exists_exists in Hex as (tok & Htok & Hbad).
      rewrite Forall_forall in Hall. by apply Hall in Htok. }
    split; [done|]. intros _. eexists. split; [done|].
    rewrite length_imap, length_replicate, length_fmap. split; [done|]. split; [done|].
    split.
    { apply Forall_forall. intros f [j Hf]%list_elem_of_lookup.
      rewrite list_lookup_imap in Hf.
      destruct (replicate _ _ !! j) as [f0|] eqn:Hj; [|done].
      apply lookup_replicate in Hj as [-> _]. injection Hf as <-.
      by rewrite length_fmap. }
    intros i tok Hi. rewrite Forall_forall in Hall.
    destruct (Hall tok (list_elem_of_lookup_2 _ _ _ Hi)) as [_ Hlen].
    destruct (py_split delimiter tok) as [|piece ps] eqn:Hpieces; [cbn in Hlen; lia|].
    exists piece, ps. split; [done|]. split.
    { rewrite list_lookup_fmap, Hi. cbn. by rewrite Hpieces. }
    apply Forall2_same_length_lookup_2.
    { rewrite length_imap, length_replicate. cbn in Hlen. lia. }
    intros j f q Hf Hq. rewrite list_lookup_imap in Hf.
    destruct (replicate _ _ !! j) as [f0|] eqn:Hj; [|done].
    apply lookup_replicate in Hj as [-> _]. injection Hf as <-. cbn.
    rewrite list_lookup_fmap, Hi. cbn. rewrite Hpieces.
    replace (j + 1) with (S j) by lia.
    change ((piece :: ps) !! S j) with (ps !! j). by rewrite Hq.
  - eexists. split; [done|]. cbn. split; [done|]. by repeat split.
Qed.

Lemma make_input_from_factored_string_spec_witness :
  exists r,
    make_input_from_factored_string sample_get_tokens (fun s => String.eqb s " ")
      (IntId 0) "a|A b|B" 2 "|" = Checked r
    /\ is_bad r = false
    /\ tokens r = ["a"; "b"]%string
    /\ factors r = Some [["A"; "B"]%string].
Proof.
  destruct (make_input_from_factored_string_spec sample_get_tokens
              (fun s => String.eqb s " ") (IntId 0) "a|A b|B" 2 "|")
    as (r & Hr & _); [done|done|lia|].
  exists r. split; [exact Hr|].
  vm_compute in Hr. injection Hr as <-. by repeat split.
Defined.

(** ** The JSON form of an output *)

Lemma pretty_N_char_digit x : is_digit (pretty_N_char x) = true.
Proof. unfold pretty_N_char. by repeat case_match. Qed.

Lemma pretty_N_go_digits x s : all_digits s = true -> all_digits (pretty_N_go x s) = true.
Proof.
  revert s. induction (N.lt_wf_0 x) as [x _ IH]; intros s Hs.
  assert (x = 0 \/ 0 < x)%N as [->|Hx] by lia; [by rewrite pretty_N_go_0|].
  rewrite pretty_N_go_step by done. apply IH; [by apply N.div_lt|].
  cbn. by rewrite pretty_N_char_digit.
Qed.

Lemma pretty_nat_digits (n : nat) : all_digits (pretty n) = true.
Proof.
  unfold pretty, pretty_nat, pretty, pretty_N. case_decide; [done|].
  by apply pretty_N_go_digits.
Qed.

Lemma all_digits_score s : all_digits (s +:+ "_score") = false.
Proof.
  induction s as [|c s IH]; [done|].
  change (all_digits (String c s +:+ "_score"))
    with (is_digit c && all_digits (s +:+ "_score")).
  by rewrite IH, andb_false_r.
Qed.

Lemma append_score_inj s1 s2 :
  all_digits s1 = true -> all_digits s2 = true ->
  s1 +:+ "_score" = s2 +:+ "_score" -> s1 = s2.
Proof.
  revert s2. induction s1 as [|c1 s1 IH]; intros [|c2 s2] H1 H2 Heq.
  - done.
  - cbn [all_digits] in H2. apply andb_true_iff in H2 as [H2 _].
    injection Heq as <- _. vm_compute in H2. discriminate H2.
  - cbn [all_digits] in H1. apply andb_true_iff in H1 as [H1 _].
    injection Heq as -> _. vm_compute in H1. discriminate H1.
  - cbn [all_digits] in H1, H2. injection Heq as -> Heq. f_equal.
    apply andb_true_iff in H1 as [_ H1].
    apply andb_true_iff in H2 as [_ H2]. by apply IH.
Qed.

Lemma append_inj_l (s x y : string) : s +:+ x = s +:+ y -> x = y.
Proof. induction s as [|c s IH]; [done|]. intros [= H]. by apply IH. Qed.

Lemma factor_key_inj i j : factor_key i = factor_key j -> i = j.
Proof.
  unfold factor_key. intros H%append_inj_l. by apply pretty_nat_inj in H.
Qed.

Lemma factor_score_key_inj i j : factor_score_key i = factor_score_key j -> i = j.
Proof.
  unfold factor_score_key. intros H%append_inj_l.
  apply append_score_inj in H; [|apply pretty_nat_digits..].
  by apply pretty_nat_inj in H.
Qed.

Lemma factor_key_ne_score i j : factor_key i <> factor_score_key j.
Proof.
  unfold factor_key, factor_score_key. intros H%append_inj_l.
  pose proof (pretty_nat_digits i) as Hi. rewrite H in Hi.
  by rewrite all_digits_score in Hi.
Qed.

Lemma prefix_append (s x : string) : String.prefix s (s +:+ x) = true.
Proof.
  induction s as [|c s IH]; [by destruct x|].
  change (String c s +:+ x) with (String c (s +:+ x)).
  cbn [String.prefix]. by destruct (Ascii.ascii_dec c c).
Qed.

Lemma factor_key_prefix i : String.prefix "factor" (factor_key i) = true.
Proof. apply prefix_append. Qed.

Lemma factor_score_key_prefix i : String.prefix "factor" (factor_score_key i) = true.
Proof. apply prefix_append. Qed.

Lemma factor_key_not_fixed i : factor_key i ∉ json_fixed_keys.
Proof.
  unfold json_fixed_keys, factor_key. cbn. rewrite !elem_of_cons, elem_of_nil.
  intros [?|[?|[?|[?|[?|[?|[]]]]]]]; discriminate.
Qed.

Lemma factor_score_key_not_fixed i : factor_score_key i ∉ json_fixed_keys.
Proof.
  unfold json_fixed_keys, factor_score_key. cbn. rewrite !elem_of_cons, elem_of_nil.
  intros [?|[?|[?|[?|[?|[?|[]]]]]]]; discriminate.
Qed.

(** A loop that writes [val v] under [key i] for every [(i, v)] of
    [enumerate(l, start)]. *)
Lemma foldl_insert_other {A V} (key : nat -> string) (val : A -> V)
  (l : list A) (start : nat) (d : gmap string V) (k : string) :
  (forall i, start <= i -> key i <> k) ->
  foldl (fun d '(i, v) => <[key i := val v]> d) d (enumerate_from start l) !! k = d !! k.
Proof.
  unfold enumerate_from. revert start d. induction l as [|v l IH]; intros start d Hk;
    [done|].
  cbn [length seq zip zip_with foldl]. rewrite IH by (intros i Hi; apply Hk; lia).
  apply lookup_insert_ne. apply Hk. lia.
Qed.

Lemma foldl_insert_hit {A V} (key : nat -> string) (val : A -> V)
  (l : list A) (start : nat) (d : gmap string V) (j : nat) (v : A) :
  (forall i i', key i = key i' -> i = i') ->
  l !! j = Some v ->
  foldl (fun d '(i, v) => <[key i := val v]> d) d (enumerate_from start l)
    !! key (start + j) = Some (val v).
Proof.
  intros Hinj. unfold enumerate_from. revert start d j.
  induction l as [|v0 l IH]; intros start d j Hj; [done|].
  cbn [length seq zip zip_with foldl]. destruct j as [|j].
  - injection Hj as ->. rewrite Nat.add_0_r.
    pose proof (foldl_insert_other key val l (S start)
                  (<[key start := val v]> d) (key start)) as Hother.
    unfold enumerate_from in Hother. rewrite Hother.
    + apply lookup_insert_eq.
    + intros i Hi Heq. apply Hinj in Heq. lia.
  - replace (start + S j) with (S start + j) by lia. by apply IH.
Qed.

Lemma json_nbest_other self d k :
  k <> "translations"%string -> k <> "scores"%string -> json_nbest self d !! k = d !! k.
Proof.
  intros H1 H2. unfold json_nbest.
  destruct (TranslatorOutput.nbest_translations self); [|done].
  case_decide; [|done]. by rewrite !lookup_insert_ne.
Qed.

Lemma json_factor_translations_other self d k :
  (forall i, factor_key i <> k) -> json_factor_translations self d !! k = d !! k.
Proof.
  intros Hk. unfold json_factor_translations.
  destruct (TranslatorOutput.factor_translations self) as [fts|]; [|done].
  apply (foldl_insert_other factor_key JStr). by intros i _.
Qed.

Lemma json_factor_scores_other self d k :
  (forall i, factor_score_key i <> k) -> json_factor_scores self d !! k = d !! k.
Proof.
  intros Hk. unfold json_factor_scores.
  destruct (TranslatorOutput.factor_scores self) as [fs|]; [|done].
  apply (foldl_insert_other factor_score_key JFloat). by intros i _.
Qed.

Lemma json_nbest_factor_translations_other self d k :
  k <> "translations_factors"%string ->
  json_nbest_factor_translations self d !! k = d !! k.
Proof.
  intros Hk. unfold json_nbest_factor_translations.
  destruct (TranslatorOutput.nbest_factor_translations self); [|done].
  case_decide; [|done]. by rewrite lookup_insert_ne.
Qed.

Lemma factor_key_ne_fixed i k : k ∈ json_fixed_keys -> factor_key i <> k.
Proof. intros Hk Heq. subst k. by apply factor_key_not_fixed in Hk. Qed.

Lemma factor_score_key_ne_fixed i k : k ∈ json_fixed_keys -> factor_score_key i <> k.
Proof. intros Hk Heq. subst k. by apply factor_score_key_not_fixed in Hk. Qed.

Lemma json_fixed_key self k :
  k ∈ json_fixed_keys -> k <> "translations_factors"%string ->
  json self !! k = json_nbest self (json_base self) !! k.
Proof.
  intros Hk Hne. unfold json.
  rewrite json_nbest_factor_translations_other by done.
  rewrite json_factor_scores_other by (intros i; by apply factor_score_key_ne_fixed).
  by rewrite json_factor_translations_other by (intros i; by apply factor_key_ne_fixed).
Qed.

(** X20. The dictionary [TranslatorOutput.json] returns. The sentence id,
    the translation and the score are always there under their keys,
    whatever the pass-through dictionary holds under them. The i-th factor
    translation is under [factor<i>] and the i-th factor score under
    [factor<i>_score], counted from one, and neither overwrites the other.
    The n-best translations and scores are there when there is more than
    one n-best translation; otherwise these two keys are as in the
    pass-through dictionary. And every key of the pass-through dictionary
    that is none of the keys written and does not start with [factor] is
    passed through with its value. *)
Theorem json_keys (self : TranslatorOutput.t) :
  json self !! "sentence_id"%string = Some (JSentenceId (TranslatorOutput.sentence_id self))
  /\ json self !! "translation"%string = Some (JStr (TranslatorOutput.translation self))
  /\ json self !! "score"%string = Some (JFloat (TranslatorOutput.score self))
  /\ (forall fts j ft,
        TranslatorOutput.factor_translations self = Some fts -> fts !! j = Some ft ->
        json self !! factor_key (j + 1) = Some (JStr ft))
  /\ (forall fs j sc,
        TranslatorOutput.factor_scores self = Some fs -> fs !! j = Some sc ->
        json self !! factor_score_key (j + 1) = Some (JFloat sc))
  /\ (forall nb, TranslatorOutput.nbest_translations self = Some nb -> 1 < length nb ->
        json self !! "translations"%string = Some (JStrs nb)
        /\ json self !! "scores"%string
           = Some (JScores (TranslatorOutput.nbest_scores self)))
  /\ ((forall nb, TranslatorOutput.nbest_translations self = Some nb -> length nb <= 1) ->
      json self !! "translations"%string
      = pass_through (TranslatorOutput.pass_through_dict self) !! "translations"%string
      /\ json self !! "scores"%string
         = pass_through (TranslatorOutput.pass_through_dict self) !! "scores"%string)
  /\ (forall k, k ∉ json_fixed_keys -> String.prefix "factor" k = false ->
        json self !! k = pass_through (TranslatorOutput.pass_through_dict self) !! k).
Proof.
  assert (Hfixed : forall k, k ∈ json_fixed_keys ->
            k <> "translations_factors"%string ->
            k <> "translations"%string -> k <> "scores"%string ->
            json self !! k = json_base self !! k).
  { intros k Hk H1 H2 H3. by rewrite json_fixed_key, json_nbest_other. }
  split; [|split; [|split; [|split; [|split; [|split; [|split]]]]]].
  - rewrite Hfixed; [|unfold json_fixed_keys; set_solver|done..].
    unfold json_base. cbn zeta. rewrite !lookup_insert_ne by done.
    by rewrite lookup_insert_eq.
  - rewrite Hfixed; [|unfold json_fixed_keys; set_solver|done..].
    unfold json_base. cbn zeta. rewrite lookup_insert_ne by done.
    by rewrite lookup_insert_eq.
  - rewrite Hfixed; [|unfold json_fixed_keys; set_solver|done..].
    unfold json_base. cbn zeta. by rewrite lookup_insert_eq.
  - intros fts j ft Hfts Hj. unfold json.
    rewrite json_nbest_factor_translations_other
      by (apply factor_key_ne_fixed; unfold json_fixed_keys; set_solver).
    rewrite json_factor_scores_other
      by (intros i Heq; symmetry in Heq; by apply factor_key_ne_score in Heq).
    unfold json_factor_translations. rewrite Hfts. rewrite (Nat.add_comm j 1).
    apply (foldl_insert_hit factor_key JStr); [apply factor_key_inj|done].
  - intros fs j sc Hfs Hj. unfold json.
    rewrite json_nbest_factor_translations_other
      by (apply factor_score_key_ne_fixed; unfold json_fixed_keys; set_solver).
    unfold json_factor_scores. rewrite Hfs. rewrite (Nat.add_comm j 1).
    apply (foldl_insert_hit factor_score_key JFloat); [apply factor_score_key_inj|done].
  - intros nb Hnb Hlen.
    rewrite !json_fixed_key by (done || unfold json_fixed_keys; set_solver).
    unfold json_nbest. rewrite Hnb, decide_True by done.
    split; [by rewrite lookup_insert_ne, lookup_insert_eq|by rewrite lookup_insert_eq].
  - intros Hnb.
    rewrite !json_fixed_key by (done || unfold json_fixed_keys; set_solver).
    assert (Hsame : json_nbest self (json_base self) = json_base self).
    { unfold json_nbest. destruct (TranslatorOutput.nbest_translations self) as [nb|];
        [|done]. specialize (Hnb nb eq_refl). by rewrite decide_False by lia. }
    rewrite Hsame. unfold json_base. cbn zeta. by rewrite !lookup_insert_ne by done.
  - intros k Hk Hpre. unfold json_fixed_keys in Hk.
    rewrite !not_elem_of_cons in Hk. destruct Hk as (H1 & H2 & H3 & H4 & H5 & H6 & _).
    unfold json.
    rewrite json_nbest_factor_translations_other by done.
    rewrite json_factor_scores_other
      by (intros i <-; by rewrite factor_score_key_prefix in Hpre).
    rewrite json_factor_translations_other
      by (intros i <-; by rewrite factor_key_prefix in Hpre).
    rewrite json_nbest_other by done.
    unfold json_base. cbn zeta. by rewrite !lookup_insert_ne by done.
Qed.

(** ** From the trellis to a translation *)

Lemma zip_longest_r_length {A B} (l : list A) (k : list B) fill :
  length (zip_longest_r l k fill) = length l.
Proof.
  revert k. induction l as [|x l IH]; intros k; [done|].
  destruct k; cbn; by rewrite IH.
Qed.

Lemma zip_longest_r_lookup {A B} (l : list A) (k : list B) fill i x :
  l !! i = Some x ->
  zip_longest_r l k fill !! i = Some (x, default fill (k !! i)).
Proof.
  revert k i. induction l as [|x0 l IH]; intros k i Hi; [done|].
  destruct i as [|i].
  - injection Hi as ->. by destruct k.
  - cbn in Hi. destruct k as [|y k].
    + change (zip_longest_r (x0 :: l) [] fill !! S i)
        with (zip_longest_r l [] fill !! i).
      rewrite (IH [] i Hi). by rewrite !lookup_nil.
    + change (zip_longest_r (x0 :: l) (y :: k) fill !! S i)
        with (zip_longest_r l k fill !! i).
      by rewrite (IH k i Hi).
Qed.

Lemma tolist2_lookup a i :
  i < shape0 a -> tolist2 a !! i = Some ((fun j => at2 a i j) <$> seq 0 (shape1 a)).
Proof.
  intros Hi. unfold tolist2. rewrite list_lookup_fmap.
  by rewrite (proj2 (lookup_seq 0 (shape0 a) i i) (conj eq_refl Hi)).
Qed.

Lemma unshift_lookup sequence fill ids i :
  2 <= shape1 sequence ->
  _unshift_target_factors sequence fill = Ok ids -> i < shape0 sequence ->
  ids !! i
  = Some (at2 sequence i 0
          :: (if decide (i + 1 < shape0 sequence)
              then (fun j => at2 sequence (i + 1) j) <$> seq 1 (shape1 sequence - 1)
              else replicate (shape1 sequence - 1) fill)).
Proof.
  intros Hm. unfold _unshift_target_factors.
  rewrite !decide_False by lia. intros [= <-] Hi.
  rewrite list_lookup_fmap.
  rewrite (zip_longest_r_lookup _ _ _ i (at2 sequence i 0)).
  2:{ rewrite list_lookup_fmap.
      by rewrite (proj2 (lookup_seq 0 (shape0 sequence) i i) (conj eq_refl Hi)). }
  cbn. f_equal. f_equal. rewrite list_lookup_fmap. case_decide as Hnext.
  - assert (seq 1 (shape0 sequence - 1) !! i = Some (1 + i)) as ->
      by (apply lookup_seq; lia).
    cbn. by rewrite (Nat.add_comm i 1).
  - rewrite lookup_seq_ge by lia. done.
Qed.

(** X21. [_unshift_target_factors] on a sequence of [n] steps and [m >= 2]
    target factors gives [n] tokens of [m] ids each: the word of a step
    stays with its step, every secondary factor of a step is the one the
    sequence holds at the next step, and at the last step the secondary
    factors are the fill value. A sequence of one factor is returned as it
    is, and a sequence without a column raises. *)
Theorem unshift_target_factors_spec (sequence : ndarray2) (fill_last_with : Z) :
  (shape1 sequence = 0 ->
   _unshift_target_factors sequence fill_last_with = Raise IndexError_array)
  /\ (shape1 sequence = 1 ->
      _unshift_target_factors sequence fill_last_with = Ok (tolist2 sequence))
  /\ (2 <= shape1 sequence ->
      exists ids,
        _unshift_target_factors sequence fill_last_with = Ok ids
        /\ length ids = shape0 sequence
        /\ forall i, i < shape0 sequence ->
             exists tok,
               ids !! i = Some tok
               /\ length tok = shape1 sequence
               /\ tok !! 0 = Some (at2 sequence i 0)
               /\ forall j, 1 <= j < shape1 sequence ->
                    tok !! j = Some (if decide (i + 1 < shape0 sequence)
                                     then at2 sequence (i + 1) j
                                     else fill_last_with)).
Proof.
  split; [|split].
  - intros H0. unfold _unshift_target_factors. rewrite decide_False by lia.
    by rewrite decide_True.
  - intros H1. unfold _unshift_target_factors. by rewrite decide_True.
  - intros Hm.
    destruct (_unshift_target_factors sequence fill_last_with) as [ids|e] eqn:Hids.
    2:{ unfold _unshift_target_factors in Hids. by rewrite !decide_False in Hids by lia. }
    exists ids. split; [done|]. split.
    { unfold _unshift_target_factors in Hids. rewrite !decide_False in Hids by lia.
      injection Hids as <-.
      by rewrite length_fmap, zip_longest_r_length, length_fmap, length_seq. }
    intros i Hi. rewrite (unshift_lookup _ _ _ _ Hm Hids Hi). eexists.
    split; [done|]. split; [|split; [done|]].
    + cbn. case_decide; [rewrite length_fmap, length_seq|rewrite length_replicate]; lia.
    + intros j Hj. destruct j as [|j]; [lia|].
      match goal with
      | |- (?a :: ?l) !! S ?k = ?r => change (l !! k = r)
      end.
      case_decide.
      * rewrite list_lookup_fmap.
        assert (seq 1 (shape1 sequence - 1) !! j = Some (1 + j)) as ->
          by (apply lookup_seq; lia).
        done.
      * apply lookup_replicate. split; [done|lia].
Qed.

Lemma unshift_target_factors_spec_witness :
  _unshift_target_factors sample_sequence 3 = Ok [[0; 11]; [10; 21]; [20; 3]]%Z
  /\ exists ids,
       _unshift_target_factors sample_sequence 3 = Ok ids
       /\ length ids = shape0 sample_sequence
       /\ forall i, i < shape0 sample_sequence ->
            exists tok,
              ids !! i = Some tok
              /\ length tok = shape1 sample_sequence
              /\ tok !! 0 = Some (at2 sample_sequence i 0)
              /\ forall j, 1 <= j < shape1 sample_sequence ->
                   tok !! j = Some (if decide (i + 1 < shape0 sample_sequence)
                                    then at2 sample_sequence (i + 1) j
                                    else 3%Z).
Proof.
  split; [reflexivity|].
  apply (proj2 (proj2 (unshift_target_factors_spec sample_sequence 3))).
  cbn. lia.
Defined.

Lemma py_prefix_length {A} (l : list A) n :
  length (py_prefix l n)
  = if decide (0 <= n)%Z then Nat.min (Z.to_nat n) (length l)
    else length l - Z.to_nat (- n).
Proof.
  unfold py_prefix. case_decide; rewrite length_take; lia.
Qed.

Lemma py_prefix_lookup {A} (l : list A) n i :
  i < length (py_prefix l n) -> py_prefix l n !! i = l !! i.
Proof.
  unfold py_prefix. case_decide; rewrite length_take; intros Hi;
    apply lookup_take_lt; lia.
Qed.

Lemma sequence_rows sequence fill (unshift : bool) :
  1 <= shape1 sequence ->
  exists ids,
    (if unshift then _unshift_target_factors sequence fill
     else Ok (tolist2 sequence)) = Ok ids
    /\ length ids = shape0 sequence
    /\ forall i, i < shape0 sequence ->
         exists tok, ids !! i = Some tok /\ length tok = shape1 sequence
                     /\ tok !! 0 = Some (at2 sequence i 0).
Proof.
  intros Hm.
  assert (exists ids, Ok (tolist2 sequence) = Ok ids
          /\ length ids = shape0 sequence
          /\ forall i, i < shape0 sequence ->
               exists tok, ids !! i = Some tok /\ length tok = shape1 sequence
                           /\ tok !! 0 = Some (at2 sequence i 0)) as Hplain.
  { eexists. split; [done|]. split.
    - unfold tolist2. by rewrite length_fmap, length_seq.
    - intros i Hi. rewrite (tolist2_lookup _ _ Hi). eexists. split; [done|].
      split; [by rewrite length_fmap, length_seq|].
      rewrite list_lookup_fmap.
      assert (seq 0 (shape1 sequence) !! 0 = Some 0) as ->
        by (apply lookup_seq; lia).
      done. }
  destruct unshift; [|done].
  destruct (decide (shape1 sequence = 1)) as [H1|H1].
  { unfold _unshift_target_factors. by rewrite decide_True. }
  assert (2 <= shape1 sequence) as H2 by lia.
  destruct (_unshift_target_factors sequence fill) as [ids|e] eqn:Hids.
  2:{ unfold _unshift_target_factors in Hids. by rewrite !decide_False in Hids by lia. }
  exists ids. split; [done|]. split.
  { unfold _unshift_target_factors in Hids. rewrite !decide_False in Hids by lia.
    injection Hids as <-.
    by rewrite length_fmap, zip_longest_r_length, length_fmap, length_seq. }
  intros i Hi. rewrite (unshift_lookup _ _ _ _ H2 Hids Hi). eexists.
  split; [done|]. split; [|done].
  cbn. case_decide; [rewrite length_fmap, length_seq|rewrite length_replicate]; lia.
Qed.

(** X22. [_assemble_translation] on a sequence of [n] steps with at least
    one factor returns a translation whose tokens are the first [length]
    steps (all [n] when [length] is larger, and all but the last [-length]
    when it is negative), each with one id per factor and the word the
    sequence has at that step, whether the factors are un-shifted or not;
    the scores are passed on, there is no n-best list, and a reference
    length is kept exactly when one is given and is not zero. *)
Theorem assemble_translation_spec (EOS_ID : Z) (sequence : ndarray2) (length' : Z)
  (seq_scores : list float) (reference_length : option float) (unshift : bool) :
  1 <= shape1 sequence ->
  exists t,
    _assemble_translation EOS_ID sequence length' seq_scores reference_length unshift
    = Ok t
    /\ length (target_ids t)
       = (if decide (0 <= length')%Z
          then Nat.min (Z.to_nat length') (shape0 sequence)
          else shape0 sequence - Z.to_nat (- length'))
    /\ (forall i, i < length (target_ids t) ->
          exists tok, target_ids t !! i = Some tok
                      /\ length tok = shape1 sequence
                      /\ tok !! 0 = Some (at2 sequence i 0))
    /\ scores t = seq_scores
    /\ nbest_translations t = None
    /\ estimated_reference_length t
       = match reference_length with
         | Some x => if PrimFloat.eqb x 0%float then None else Some x
         | None => None
         end.
Proof.
  intros Hm.
  destruct (sequence_rows sequence EOS_ID unshift Hm) as (ids & Hids & Hlen & Hrow).
  unfold _assemble_translation. rewrite Hids. cbn. eexists. split; [done|].
  cbn. split; [by rewrite py_prefix_length, Hlen|].
  split; [|split; [done|split; [done|]]].
  - intros i Hi. rewrite (py_prefix_lookup _ _ _ Hi). apply Hrow.
    rewrite py_prefix_length, Hlen in Hi. case_decide; lia.
  - destruct reference_length as [x|]; [|done].
    unfold float_truthy. by destruct (PrimFloat.eqb x 0).
Qed.

Lemma assemble_translation_spec_witness :
  exists t,
    _assemble_translation 3 sample_sequence 2 [1%float] (Some 0%float) true = Ok t
    /\ length (target_ids t)
       = (if decide (0 <= 2)%Z
          then Nat.min (Z.to_nat 2) (shape0 sample_sequence)
          else shape0 sample_sequence - Z.to_nat (- 2))
    /\ (forall i, i < length (target_ids t) ->
          exists tok, target_ids t !! i = Some tok
                      /\ length tok = shape1 sample_sequence
                      /\ tok !! 0 = Some (at2 sample_sequence i 0))
    /\ scores t = [1%float]
    /\ nbest_translations t = None
    /\ estimated_reference_length t
       = match Some 0%float with
         | Some x => if PrimFloat.eqb x 0%float then None else Some x
         | None => None
         end.
Proof.
  apply (assemble_translation_spec 3 sample_sequence 2 [1%float] (Some 0%float) true).
  cbn. lia.
Defined.
